(** * OneTable core (dynamodb-onetable-go): a shallow embedding

    The development follows the Go sources: [expression.go] (the expression
    builder), [model.go] (property preparation, the operation runner, the
    unique-sentinel protocol) and [errors.go].  Go maps that are ranged over
    are association lists (the list order is the iteration order, which Go
    leaves unspecified, so every statement holds for every order); the
    placeholder tables are finite maps; Go panics are a separate outcome. *)

From stdpp Require Import gmap strings list pretty.
From Stdlib Require Import ZArith Lia Ascii.

#[local] Set Warnings "-register-all".

(** ** Outcomes: a returned value, a returned [error], a panic, or a call
    that never returns *)

Inductive ErrorCode :=
  | ErrArgument | ErrValidation | ErrMissing | ErrNonUnique
  | ErrUnique | ErrNotFound | ErrRuntime | ErrType.

(** [errors.go]: [OneTableError] (with the validation map it may carry as
    context), [OneTableArgError], a [OneTableError] that wraps the error
    of the client (the cause is the text of that error), and any other
    error. *)
Inductive error :=
  | OneTableError (msg : string) (code : option ErrorCode)
      (validation : option (list (string * string)))
  | OneTableArgError (msg : string) (code : ErrorCode)
  | OneTableCaused (msg : string) (code : ErrorCode) (cause : string)
  | BackendError (msg : string).

Definition NewArgError (msg : string) : error := OneTableArgError msg ErrArgument.

Definition errorCode (e : error) : option ErrorCode :=
  match e with
  | OneTableError _ c _ => c
  | OneTableArgError _ c | OneTableCaused _ c _ => Some c
  | BackendError _ => None
  end.

Definition codeName (c : ErrorCode) : string :=
  match c with
  | ErrArgument => "ArgumentError" | ErrValidation => "ValidationError"
  | ErrMissing => "MissingError" | ErrNonUnique => "NonUniqueError"
  | ErrUnique => "UniqueError" | ErrNotFound => "NotFoundError"
  | ErrRuntime => "RuntimeError" | ErrType => "TypeError"
  end.

(** The [Error] method of [OneTableArgError]: the code in brackets, then
    the message. *)
Definition argErrorText (msg : string) : string :=
  "[" +:+ codeName ErrArgument +:+ "] " +:+ msg.

Inductive outcome (A : Type) :=
  | Ok (a : A)
  | Err (e : error)
  | Panic (msg : string)
  | Hang.
Arguments Ok {A} a.
Arguments Err {A} e.
Arguments Panic {A} msg.
Arguments Hang {A}.

Definition obind {A B} (x : outcome A) (f : A → outcome B) : outcome B :=
  match x with
  | Ok a => f a
  | Err e => Err e
  | Panic m => Panic m
  | Hang => Hang
  end.

Global Instance outcome_bind : MBind outcome := λ A B f x, obind x f.
Global Instance outcome_ret : MRet outcome := λ A a, Ok a.

Definition isOk {A} (x : outcome A) : bool :=
  match x with Ok _ => true | _ => false end.

(** ** Strings *)

Fixpoint isPrefix (p s : string) : bool :=
  match p, s with
  | EmptyString, _ => true
  | String a p', String b s' => if decide (a = b) then isPrefix p' s' else false
  | String _ _, EmptyString => false
  end.

(** [strings.Index]: the text before the first occurrence of [pat], and the
    text from that occurrence on. *)
Fixpoint cutAt (pat s : string) : option (string * string) :=
  if isPrefix pat s then Some (EmptyString, s)
  else match s with
       | EmptyString => None
       | String c s' =>
           match cutAt pat s' with
           | Some (pre, post) => Some (String c pre, post)
           | None => None
           end
       end.

(** [strings.Contains]. *)
Definition contains (s pat : string) : bool :=
  match cutAt pat s with Some _ => true | None => false end.

Fixpoint joinWith (sep : string) (l : list string) : string :=
  match l with
  | [] => ""
  | [x] => x
  | x :: rest => x +:+ sep +:+ joinWith sep rest
  end.

(** [containsStr] of [model.go]. *)
Fixpoint containsStr (s : list string) (v : string) : bool :=
  match s with
  | [] => false
  | x :: rest => if decide (x = v) then true else containsStr rest v
  end.

(** ** Dynamic values and items *)

(** The dynamic types the library handles in a property map.  A [float64] is
    kept as its bit pattern: only its dynamic type matters here. *)
Inductive value :=
  | VNil
  | VString (s : string)
  | VBool (b : bool)
  | VInt (n : Z)
  | VInt64 (n : Z)
  | VFloat64 (bits : Z)
  | VTime (nanos : Z)
  | VBytes (b : string)
  | VList (l : list value)
  | VMap (m : list (string * value)).

(** [Item = map[string]any]. *)
Abbreviation Item := (list (string * value)).

Section Assoc.
Context {V : Type}.

(** [m[k]] with the comma-ok result. *)
Fixpoint alookup (k : string) (m : list (string * V)) : option V :=
  match m with
  | [] => None
  | (k', v) :: rest => if decide (k' = k) then Some v else alookup k rest
  end.

(** [m[k] = v]: replaces the binding, or adds one. *)
Fixpoint ainsert (k : string) (v : V) (m : list (string * V)) : list (string * V) :=
  match m with
  | [] => [(k, v)]
  | (k', v') :: rest =>
      if decide (k' = k) then (k, v) :: rest else (k', v') :: ainsert k v rest
  end.

(** [delete(m, k)]. *)
Fixpoint adelete (k : string) (m : list (string * V)) : list (string * V) :=
  match m with
  | [] => []
  | (k', v') :: rest =>
      if decide (k' = k) then adelete k rest else (k', v') :: adelete k rest
  end.

Definition akeys (m : list (string * V)) : list string := m.*1.

Definition ahas (k : string) (m : list (string * V)) : bool :=
  match alookup k m with Some _ => true | None => false end.
End Assoc.

(** Go's [v == nil] on an [any], and [m[k]] (which is [nil] for a missing key). *)
Definition isNil (v : value) : bool := match v with VNil => true | _ => false end.
Definition aget (k : string) (m : Item) : value := default VNil (alookup k m).

Definition streq (a b : string) : bool := bool_decide (a = b).

(** ** Schema types ([IndexDef], [FieldDef], [preparedField], [fieldBlock]) *)

Module IndexDef.
Record t := mk {
  Hash : string;
  Sort : string;
  Type_ : string;
  (** "all", "keys", a list of attribute names, or nil. *)
  Project : value;
  Follow : bool;
}.
End IndexDef.

Inductive FieldType :=
  | FieldTypeArray | FieldTypeArrayBuffer | FieldTypeBinary | FieldTypeBoolean
  | FieldTypeBuffer | FieldTypeDate | FieldTypeNumber | FieldTypeObject
  | FieldTypeSet | FieldTypeString.

Global Instance FieldType_eq_dec : EqDecision FieldType.
Proof. solve_decision. Defined.

Module FieldDef.
Record t := mk {
  Default : value;
  Generate : string;
  Validate : string;
  Enum : option (list string);
  Encode : value;
  Crypt : bool;
  Unique : bool;
  TTL : bool;
  Filter : option bool;
}.

(** The zero value [FieldDef{}]. *)
Definition zero : t := mk VNil "" "" None VNil false false false None.
End FieldDef.

(** [Fields] is the map name → field of a block, in iteration order;
    [Attribute] has one element, or two for a packed sub-property; [Def] is
    nil only in the field the builder synthesizes for an unknown attribute. *)
Inductive preparedField := PreparedField {
  Name : string;
  Def : option FieldDef.t;
  FType : FieldType;
  Attribute : list string;
  IsIndexed : bool;
  IsPrimary : bool;
  Hidden : bool;
  Required : bool;
  Nulls : bool;
  IsoDates : bool;
  Partial : option bool;
  ValueTemplate : string;
  Block : option fieldBlock;
  IsArray : bool }
with fieldBlock := FieldBlock {
  Fields : list (string * preparedField);
  Deps : list preparedField }.

(** [field.Attribute[0]], and [field.Def] of a schema field. *)
Definition att0 (f : preparedField) : string := nth 0 (Attribute f) "".
Definition fdef (f : preparedField) : FieldDef.t := default FieldDef.zero (Def f).

Definition hasBlock (f : preparedField) : bool :=
  match Block f with Some _ => true | None => false end.

(** [&preparedField{Attribute: []string{name}, Name: name}]. *)
Definition synthField (name : string) : preparedField :=
  PreparedField name None FieldTypeString [name] false false false false false
    false None "" None false.

(** The table-wide timestamps policy: [true], "create", "update", or off. *)
Inductive Timestamps := TsTrue | TsCreate | TsUpdate | TsOff.

Definition tsCreate (ts : Timestamps) : bool :=
  match ts with TsTrue | TsCreate => true | _ => false end.
Definition tsUpdate (ts : Timestamps) : bool :=
  match ts with TsTrue | TsUpdate => true | _ => false end.

(** [Model], with the fields of its [Table] that the operations read:
    [m.table.client != nil], [m.table.context], [m.table.timestamps],
    [m.table.isoDates], [m.table.metrics != nil]. *)
Module Model.
Record t := mk {
  Name : string;
  typeField : string;
  createdField : string;
  updatedField : string;
  tableName : string;
  generic : bool;
  nested : bool;
  partial : bool;
  block : fieldBlock;
  mappings : list (string * list string);
  indexes : list (string * IndexDef.t);
  hasUniqueFields : bool;
  table_client : bool;
  table_context : Item;
  table_timestamps : Timestamps;
  table_isoDates : bool;
  table_metrics : bool;
}.
End Model.

(** ** The command envelope *)

(** An expression string is kept as the sequence of its characters and of
    the placeholders the builder wrote into it; [render] is the Go string. *)
Inductive atom :=
  | Ch (c : ascii)
  | NameRef (n : nat)
  | ValueRef (n : nat).

Abbreviation rope := (list atom).

Fixpoint lit (s : string) : rope :=
  match s with
  | EmptyString => []
  | String c s' => Ch c :: lit s'
  end.

(** [fmt.Sprintf("#_%d", n)] and [fmt.Sprintf(":_%d", n)]. *)
Definition nameKey (n : nat) : string := "#_" +:+ pretty n.
Definition valueKey (n : nat) : string := ":_" +:+ pretty n.

Definition renderAtom (a : atom) : string :=
  match a with
  | Ch c => String c EmptyString
  | NameRef n => nameKey n
  | ValueRef n => valueKey n
  end.

Fixpoint render (r : rope) : string :=
  match r with
  | [] => ""
  | a :: r' => renderAtom a +:+ render r'
  end.

(** [strings.Join] on expression strings. *)
Fixpoint joinRopes (sep : string) (l : list rope) : rope :=
  match l with
  | [] => []
  | [x] => x
  | x :: rest => x ++ lit sep ++ joinRopes sep rest
  end.

(** The DynamoDB attribute values of a marshalled item. *)
Inductive AttributeValue :=
  | AvS (s : string) | AvN (s : string) | AvBOOL (b : bool) | AvNULL
  | AvB (b : string)
  | AvL (l : list AttributeValue)
  | AvM (m : list (string * AttributeValue)).

Module Command.
Record t := mk {
  TableName : option string;
  ConditionExpression : option rope;
  ExpressionAttributeNames : option (gmap string string);
  ExpressionAttributeValues : option (gmap string AttributeValue);
  FilterExpression : option rope;
  KeyConditionExpression : option rope;
  ProjectionExpression : option rope;
  UpdateExpression : option rope;
  Select : option string;
  ReturnConsumedCapacity : option string;
  ReturnItemCollectionMetrics : option string;
  Item_ : option (list (string * AttributeValue));
  ReturnValues : option string;
  Key : option (list (string * AttributeValue));
  ConsistentRead : option bool;
  IndexName : option string;
  Limit : option Z;
  ScanIndexForward : option bool;
  ExclusiveStartKey : option (list (string * AttributeValue));
  TotalSegments : option Z;
  Segment : option Z;
}.

Definition set_ExclusiveStartKey
    (x : option (list (string * AttributeValue))) (r : t) : t :=
  mk (TableName r) (ConditionExpression r) (ExpressionAttributeNames r)
    (ExpressionAttributeValues r) (FilterExpression r)
    (KeyConditionExpression r) (ProjectionExpression r) (UpdateExpression r)
    (Select r) (ReturnConsumedCapacity r) (ReturnItemCollectionMetrics r)
    (Item_ r) (ReturnValues r) (Key r) (ConsistentRead r) (IndexName r)
    (Limit r) (ScanIndexForward r) x (TotalSegments r) (Segment r).
End Command.

(** ** Operation parameters *)

Record Stats := mkStats { StCount : Z; StScanned : Z; StCapacity : Z }.

(** [Set_] is the [Set] option; [Transaction] refers to the shared
    transaction collector; [expression] keeps the properties of the
    expression stored for the later [parseResponse]; [Client] and [Context]
    say whether one was supplied. *)
Module Params.
Record t := mk {
  Execute : option bool;
  Log : option bool;
  Parse : bool;
  High : bool;
  Hidden : option bool;
  Partial : option bool;
  Exists : option bool;
  Limit : Z;
  Next : option Item;
  Prev : option Item;
  Reverse : bool;
  MaxPages : Z;
  Index : string;
  Fields : option (list string);
  Consistent : bool;
  Return : value;
  Where : string;
  Set_ : option (list (string * string));
  Add : option Item;
  Remove : option (list string);
  Delete : option Item;
  Push : option Item;
  Substitutions : option Item;
  Segments : Z;
  Segment : Z;
  Count : bool;
  Select : string;
  Stats : option Stats;
  Capacity : string;
  Batch : option Item;
  Transaction : option nat;
  Follow : option bool;
  Many : bool;
  checked : bool;
  prepared : bool;
  fallback : bool;
  existsWasSet : bool;
  expression : option Item;
  PostFormat : option (Model.t → Command.t → Command.t);
  Client : bool;
  Context : bool;
}.

(** The zero value [Params{}]. *)
Definition zero : t :=
  mk None None false false None None None 0%Z None None false 0%Z "" None
     false VNil "" None None None None None None 0%Z 0%Z false "" None ""
     None None None false false false false false None None false false.

Definition set_Limit x (r : t) : t :=
  mk (Execute r) (Log r) (Parse r) (High r) (Hidden r) (Partial r) (Exists
    r) x (Next r) (Prev r) (Reverse r) (MaxPages r) (Index r) (Fields r)
    (Consistent r) (Return r) (Where r) (Set_ r) (Add r) (Remove r) (Delete
    r) (Push r) (Substitutions r) (Segments r) (Segment r) (Count r) (Select
    r) (Stats r) (Capacity r) (Batch r) (Transaction r) (Follow r) (Many r)
    (checked r) (prepared r) (fallback r) (existsWasSet r) (expression r)
    (PostFormat r) (Client r) (Context r).

Definition set_Set_ x (r : t) : t :=
  mk (Execute r) (Log r) (Parse r) (High r) (Hidden r) (Partial r) (Exists
    r) (Limit r) (Next r) (Prev r) (Reverse r) (MaxPages r) (Index r)
    (Fields r) (Consistent r) (Return r) (Where r) x (Add r) (Remove r)
    (Delete r) (Push r) (Substitutions r) (Segments r) (Segment r) (Count r)
    (Select r) (Stats r) (Capacity r) (Batch r) (Transaction r) (Follow r)
    (Many r) (checked r) (prepared r) (fallback r) (existsWasSet r)
    (expression r) (PostFormat r) (Client r) (Context r).

Definition set_Remove x (r : t) : t :=
  mk (Execute r) (Log r) (Parse r) (High r) (Hidden r) (Partial r) (Exists
    r) (Limit r) (Next r) (Prev r) (Reverse r) (MaxPages r) (Index r)
    (Fields r) (Consistent r) (Return r) (Where r) (Set_ r) (Add r) x
    (Delete r) (Push r) (Substitutions r) (Segments r) (Segment r) (Count r)
    (Select r) (Stats r) (Capacity r) (Batch r) (Transaction r) (Follow r)
    (Many r) (checked r) (prepared r) (fallback r) (existsWasSet r)
    (expression r) (PostFormat r) (Client r) (Context r).

Definition set_Stats x (r : t) : t :=
  mk (Execute r) (Log r) (Parse r) (High r) (Hidden r) (Partial r) (Exists
    r) (Limit r) (Next r) (Prev r) (Reverse r) (MaxPages r) (Index r)
    (Fields r) (Consistent r) (Return r) (Where r) (Set_ r) (Add r) (Remove
    r) (Delete r) (Push r) (Substitutions r) (Segments r) (Segment r) (Count
    r) (Select r) x (Capacity r) (Batch r) (Transaction r) (Follow r) (Many
    r) (checked r) (prepared r) (fallback r) (existsWasSet r) (expression r)
    (PostFormat r) (Client r) (Context r).

Definition set_Batch x (r : t) : t :=
  mk (Execute r) (Log r) (Parse r) (High r) (Hidden r) (Partial r) (Exists
    r) (Limit r) (Next r) (Prev r) (Reverse r) (MaxPages r) (Index r)
    (Fields r) (Consistent r) (Return r) (Where r) (Set_ r) (Add r) (Remove
    r) (Delete r) (Push r) (Substitutions r) (Segments r) (Segment r) (Count
    r) (Select r) (Stats r) (Capacity r) x (Transaction r) (Follow r) (Many
    r) (checked r) (prepared r) (fallback r) (existsWasSet r) (expression r)
    (PostFormat r) (Client r) (Context r).

Definition set_Transaction x (r : t) : t :=
  mk (Execute r) (Log r) (Parse r) (High r) (Hidden r) (Partial r) (Exists
    r) (Limit r) (Next r) (Prev r) (Reverse r) (MaxPages r) (Index r)
    (Fields r) (Consistent r) (Return r) (Where r) (Set_ r) (Add r) (Remove
    r) (Delete r) (Push r) (Substitutions r) (Segments r) (Segment r) (Count
    r) (Select r) (Stats r) (Capacity r) (Batch r) x (Follow r) (Many r)
    (checked r) (prepared r) (fallback r) (existsWasSet r) (expression r)
    (PostFormat r) (Client r) (Context r).

Definition set_prepared x (r : t) : t :=
  mk (Execute r) (Log r) (Parse r) (High r) (Hidden r) (Partial r) (Exists
    r) (Limit r) (Next r) (Prev r) (Reverse r) (MaxPages r) (Index r)
    (Fields r) (Consistent r) (Return r) (Where r) (Set_ r) (Add r) (Remove
    r) (Delete r) (Push r) (Substitutions r) (Segments r) (Segment r) (Count
    r) (Select r) (Stats r) (Capacity r) (Batch r) (Transaction r) (Follow
    r) (Many r) (checked r) x (fallback r) (existsWasSet r) (expression r)
    (PostFormat r) (Client r) (Context r).

Definition set_fallback x (r : t) : t :=
  mk (Execute r) (Log r) (Parse r) (High r) (Hidden r) (Partial r) (Exists
    r) (Limit r) (Next r) (Prev r) (Reverse r) (MaxPages r) (Index r)
    (Fields r) (Consistent r) (Return r) (Where r) (Set_ r) (Add r) (Remove
    r) (Delete r) (Push r) (Substitutions r) (Segments r) (Segment r) (Count
    r) (Select r) (Stats r) (Capacity r) (Batch r) (Transaction r) (Follow
    r) (Many r) (checked r) (prepared r) x (existsWasSet r) (expression r)
    (PostFormat r) (Client r) (Context r).

Definition set_expression x (r : t) : t :=
  mk (Execute r) (Log r) (Parse r) (High r) (Hidden r) (Partial r) (Exists
    r) (Limit r) (Next r) (Prev r) (Reverse r) (MaxPages r) (Index r)
    (Fields r) (Consistent r) (Return r) (Where r) (Set_ r) (Add r) (Remove
    r) (Delete r) (Push r) (Substitutions r) (Segments r) (Segment r) (Count
    r) (Select r) (Stats r) (Capacity r) (Batch r) (Transaction r) (Follow
    r) (Many r) (checked r) (prepared r) (fallback r) (existsWasSet r) x
    (PostFormat r) (Client r) (Context r).

Definition set_Exists x (r : t) : t :=
  mk (Execute r) (Log r) (Parse r) (High r) (Hidden r) (Partial r) x (Limit
    r) (Next r) (Prev r) (Reverse r) (MaxPages r) (Index r) (Fields r)
    (Consistent r) (Return r) (Where r) (Set_ r) (Add r) (Remove r) (Delete
    r) (Push r) (Substitutions r) (Segments r) (Segment r) (Count r) (Select
    r) (Stats r) (Capacity r) (Batch r) (Transaction r) (Follow r) (Many r)
    (checked r) (prepared r) (fallback r) (existsWasSet r) (expression r)
    (PostFormat r) (Client r) (Context r).

Definition set_Return x (r : t) : t :=
  mk (Execute r) (Log r) (Parse r) (High r) (Hidden r) (Partial r) (Exists
    r) (Limit r) (Next r) (Prev r) (Reverse r) (MaxPages r) (Index r)
    (Fields r) (Consistent r) x (Where r) (Set_ r) (Add r) (Remove r)
    (Delete r) (Push r) (Substitutions r) (Segments r) (Segment r) (Count r)
    (Select r) (Stats r) (Capacity r) (Batch r) (Transaction r) (Follow r)
    (Many r) (checked r) (prepared r) (fallback r) (existsWasSet r)
    (expression r) (PostFormat r) (Client r) (Context r).

Definition set_checked x (r : t) : t :=
  mk (Execute r) (Log r) (Parse r) (High r) (Hidden r) (Partial r) (Exists
    r) (Limit r) (Next r) (Prev r) (Reverse r) (MaxPages r) (Index r)
    (Fields r) (Consistent r) (Return r) (Where r) (Set_ r) (Add r) (Remove
    r) (Delete r) (Push r) (Substitutions r) (Segments r) (Segment r) (Count
    r) (Select r) (Stats r) (Capacity r) (Batch r) (Transaction r) (Follow
    r) (Many r) x (prepared r) (fallback r) (existsWasSet r) (expression r)
    (PostFormat r) (Client r) (Context r).
Definition set_Index x (r : t) : t :=
  mk (Execute r) (Log r) (Parse r) (High r) (Hidden r) (Partial r) (Exists
    r) (Limit r) (Next r) (Prev r) (Reverse r) (MaxPages r) x (Fields r)
    (Consistent r) (Return r) (Where r) (Set_ r) (Add r) (Remove r) (Delete
    r) (Push r) (Substitutions r) (Segments r) (Segment r) (Count r) (Select
    r) (Stats r) (Capacity r) (Batch r) (Transaction r) (Follow r) (Many r)
    (checked r) (prepared r) (fallback r) (existsWasSet r) (expression r)
    (PostFormat r) (Client r) (Context r).

Definition set_Add x (r : t) : t :=
  mk (Execute r) (Log r) (Parse r) (High r) (Hidden r) (Partial r) (Exists
    r) (Limit r) (Next r) (Prev r) (Reverse r) (MaxPages r) (Index r)
    (Fields r) (Consistent r) (Return r) (Where r) (Set_ r) x (Remove r)
    (Delete r) (Push r) (Substitutions r) (Segments r) (Segment r) (Count r)
    (Select r) (Stats r) (Capacity r) (Batch r) (Transaction r) (Follow r)
    (Many r) (checked r) (prepared r) (fallback r) (existsWasSet r)
    (expression r) (PostFormat r) (Client r) (Context r).

Definition set_Where x (r : t) : t :=
  mk (Execute r) (Log r) (Parse r) (High r) (Hidden r) (Partial r) (Exists
    r) (Limit r) (Next r) (Prev r) (Reverse r) (MaxPages r) (Index r)
    (Fields r) (Consistent r) (Return r) x (Set_ r) (Add r) (Remove r)
    (Delete r) (Push r) (Substitutions r) (Segments r) (Segment r) (Count r)
    (Select r) (Stats r) (Capacity r) (Batch r) (Transaction r) (Follow r)
    (Many r) (checked r) (prepared r) (fallback r) (existsWasSet r)
    (expression r) (PostFormat r) (Client r) (Context r).

Definition set_MaxPages x (r : t) : t :=
  mk (Execute r) (Log r) (Parse r) (High r) (Hidden r) (Partial r) (Exists
    r) (Limit r) (Next r) (Prev r) (Reverse r) x (Index r) (Fields r)
    (Consistent r) (Return r) (Where r) (Set_ r) (Add r) (Remove r) (Delete
    r) (Push r) (Substitutions r) (Segments r) (Segment r) (Count r) (Select
    r) (Stats r) (Capacity r) (Batch r) (Transaction r) (Follow r) (Many r)
    (checked r) (prepared r) (fallback r) (existsWasSet r) (expression r)
    (PostFormat r) (Client r) (Context r).

Definition set_High x (r : t) : t :=
  mk (Execute r) (Log r) (Parse r) x (Hidden r) (Partial r) (Exists r)
    (Limit r) (Next r) (Prev r) (Reverse r) (MaxPages r) (Index r) (Fields
    r) (Consistent r) (Return r) (Where r) (Set_ r) (Add r) (Remove r)
    (Delete r) (Push r) (Substitutions r) (Segments r) (Segment r) (Count r)
    (Select r) (Stats r) (Capacity r) (Batch r) (Transaction r) (Follow r)
    (Many r) (checked r) (prepared r) (fallback r) (existsWasSet r)
    (expression r) (PostFormat r) (Client r) (Context r).

Definition set_Many x (r : t) : t :=
  mk (Execute r) (Log r) (Parse r) (High r) (Hidden r) (Partial r) (Exists
    r) (Limit r) (Next r) (Prev r) (Reverse r) (MaxPages r) (Index r)
    (Fields r) (Consistent r) (Return r) (Where r) (Set_ r) (Add r) (Remove
    r) (Delete r) (Push r) (Substitutions r) (Segments r) (Segment r) (Count
    r) (Select r) (Stats r) (Capacity r) (Batch r) (Transaction r) (Follow
    r) x (checked r) (prepared r) (fallback r) (existsWasSet r) (expression
    r) (PostFormat r) (Client r) (Context r).

Definition set_Hidden x (r : t) : t :=
  mk (Execute r) (Log r) (Parse r) (High r) x (Partial r) (Exists r) (Limit
    r) (Next r) (Prev r) (Reverse r) (MaxPages r) (Index r) (Fields r)
    (Consistent r) (Return r) (Where r) (Set_ r) (Add r) (Remove r) (Delete
    r) (Push r) (Substitutions r) (Segments r) (Segment r) (Count r) (Select
    r) (Stats r) (Capacity r) (Batch r) (Transaction r) (Follow r) (Many r)
    (checked r) (prepared r) (fallback r) (existsWasSet r) (expression r)
    (PostFormat r) (Client r) (Context r).

Definition set_Partial x (r : t) : t :=
  mk (Execute r) (Log r) (Parse r) (High r) (Hidden r) x (Exists r) (Limit
    r) (Next r) (Prev r) (Reverse r) (MaxPages r) (Index r) (Fields r)
    (Consistent r) (Return r) (Where r) (Set_ r) (Add r) (Remove r) (Delete
    r) (Push r) (Substitutions r) (Segments r) (Segment r) (Count r) (Select
    r) (Stats r) (Capacity r) (Batch r) (Transaction r) (Follow r) (Many r)
    (checked r) (prepared r) (fallback r) (existsWasSet r) (expression r)
    (PostFormat r) (Client r) (Context r).

Definition set_Execute x (r : t) : t :=
  mk x (Log r) (Parse r) (High r) (Hidden r) (Partial r) (Exists r) (Limit
    r) (Next r) (Prev r) (Reverse r) (MaxPages r) (Index r) (Fields r)
    (Consistent r) (Return r) (Where r) (Set_ r) (Add r) (Remove r) (Delete
    r) (Push r) (Substitutions r) (Segments r) (Segment r) (Count r) (Select
    r) (Stats r) (Capacity r) (Batch r) (Transaction r) (Follow r) (Many r)
    (checked r) (prepared r) (fallback r) (existsWasSet r) (expression r)
    (PostFormat r) (Client r) (Context r).

Definition set_Parse x (r : t) : t :=
  mk (Execute r) (Log r) x (High r) (Hidden r) (Partial r) (Exists r) (Limit
    r) (Next r) (Prev r) (Reverse r) (MaxPages r) (Index r) (Fields r)
    (Consistent r) (Return r) (Where r) (Set_ r) (Add r) (Remove r) (Delete
    r) (Push r) (Substitutions r) (Segments r) (Segment r) (Count r) (Select
    r) (Stats r) (Capacity r) (Batch r) (Transaction r) (Follow r) (Many r)
    (checked r) (prepared r) (fallback r) (existsWasSet r) (expression r)
    (PostFormat r) (Client r) (Context r).

Definition set_Follow x (r : t) : t :=
  mk (Execute r) (Log r) (Parse r) (High r) (Hidden r) (Partial r) (Exists
    r) (Limit r) (Next r) (Prev r) (Reverse r) (MaxPages r) (Index r)
    (Fields r) (Consistent r) (Return r) (Where r) (Set_ r) (Add r) (Remove
    r) (Delete r) (Push r) (Substitutions r) (Segments r) (Segment r) (Count
    r) (Select r) (Stats r) (Capacity r) (Batch r) (Transaction r) x (Many
    r) (checked r) (prepared r) (fallback r) (existsWasSet r) (expression r)
    (PostFormat r) (Client r) (Context r).

Definition set_existsWasSet x (r : t) : t :=
  mk (Execute r) (Log r) (Parse r) (High r) (Hidden r) (Partial r) (Exists
    r) (Limit r) (Next r) (Prev r) (Reverse r) (MaxPages r) (Index r)
    (Fields r) (Consistent r) (Return r) (Where r) (Set_ r) (Add r) (Remove
    r) (Delete r) (Push r) (Substitutions r) (Segments r) (Segment r) (Count
    r) (Select r) (Stats r) (Capacity r) (Batch r) (Transaction r) (Follow
    r) (Many r) (checked r) (prepared r) (fallback r) x (expression r)
    (PostFormat r) (Client r) (Context r).

Definition set_Next x (r : t) : t :=
  mk (Execute r) (Log r) (Parse r) (High r) (Hidden r) (Partial r) (Exists
    r) (Limit r) x (Prev r) (Reverse r) (MaxPages r) (Index r) (Fields r)
    (Consistent r) (Return r) (Where r) (Set_ r) (Add r) (Remove r) (Delete
    r) (Push r) (Substitutions r) (Segments r) (Segment r) (Count r) (Select
    r) (Stats r) (Capacity r) (Batch r) (Transaction r) (Follow r) (Many r)
    (checked r) (prepared r) (fallback r) (existsWasSet r) (expression r)
    (PostFormat r) (Client r) (Context r).

Definition set_Prev x (r : t) : t :=
  mk (Execute r) (Log r) (Parse r) (High r) (Hidden r) (Partial r) (Exists
    r) (Limit r) (Next r) x (Reverse r) (MaxPages r) (Index r) (Fields r)
    (Consistent r) (Return r) (Where r) (Set_ r) (Add r) (Remove r) (Delete
    r) (Push r) (Substitutions r) (Segments r) (Segment r) (Count r) (Select
    r) (Stats r) (Capacity r) (Batch r) (Transaction r) (Follow r) (Many r)
    (checked r) (prepared r) (fallback r) (existsWasSet r) (expression r)
    (PostFormat r) (Client r) (Context r).

Definition set_Delete x (r : t) : t :=
  mk (Execute r) (Log r) (Parse r) (High r) (Hidden r) (Partial r) (Exists
    r) (Limit r) (Next r) (Prev r) (Reverse r) (MaxPages r) (Index r)
    (Fields r) (Consistent r) (Return r) (Where r) (Set_ r) (Add r) (Remove
    r) x (Push r) (Substitutions r) (Segments r) (Segment r) (Count r)
    (Select r) (Stats r) (Capacity r) (Batch r) (Transaction r) (Follow r)
    (Many r) (checked r) (prepared r) (fallback r) (existsWasSet r)
    (expression r) (PostFormat r) (Client r) (Context r).

Definition set_Push x (r : t) : t :=
  mk (Execute r) (Log r) (Parse r) (High r) (Hidden r) (Partial r) (Exists
    r) (Limit r) (Next r) (Prev r) (Reverse r) (MaxPages r) (Index r)
    (Fields r) (Consistent r) (Return r) (Where r) (Set_ r) (Add r) (Remove
    r) (Delete r) x (Substitutions r) (Segments r) (Segment r) (Count r)
    (Select r) (Stats r) (Capacity r) (Batch r) (Transaction r) (Follow r)
    (Many r) (checked r) (prepared r) (fallback r) (existsWasSet r)
    (expression r) (PostFormat r) (Client r) (Context r).

Definition set_Substitutions x (r : t) : t :=
  mk (Execute r) (Log r) (Parse r) (High r) (Hidden r) (Partial r) (Exists
    r) (Limit r) (Next r) (Prev r) (Reverse r) (MaxPages r) (Index r)
    (Fields r) (Consistent r) (Return r) (Where r) (Set_ r) (Add r) (Remove
    r) (Delete r) (Push r) x (Segments r) (Segment r) (Count r) (Select r)
    (Stats r) (Capacity r) (Batch r) (Transaction r) (Follow r) (Many r)
    (checked r) (prepared r) (fallback r) (existsWasSet r) (expression r)
    (PostFormat r) (Client r) (Context r).

Definition set_Fields x (r : t) : t :=
  mk (Execute r) (Log r) (Parse r) (High r) (Hidden r) (Partial r) (Exists
    r) (Limit r) (Next r) (Prev r) (Reverse r) (MaxPages r) (Index r) x
    (Consistent r) (Return r) (Where r) (Set_ r) (Add r) (Remove r) (Delete
    r) (Push r) (Substitutions r) (Segments r) (Segment r) (Count r) (Select
    r) (Stats r) (Capacity r) (Batch r) (Transaction r) (Follow r) (Many r)
    (checked r) (prepared r) (fallback r) (existsWasSet r) (expression r)
    (PostFormat r) (Client r) (Context r).

Definition set_Log x (r : t) : t :=
  mk (Execute r) x (Parse r) (High r) (Hidden r) (Partial r) (Exists r)
    (Limit r) (Next r) (Prev r) (Reverse r) (MaxPages r) (Index r) (Fields
    r) (Consistent r) (Return r) (Where r) (Set_ r) (Add r) (Remove r)
    (Delete r) (Push r) (Substitutions r) (Segments r) (Segment r) (Count r)
    (Select r) (Stats r) (Capacity r) (Batch r) (Transaction r) (Follow r)
    (Many r) (checked r) (prepared r) (fallback r) (existsWasSet r)
    (expression r) (PostFormat r) (Client r) (Context r).

End Params.

(** ** The expression builder's state ([expression] in [expression.go]) *)

Record Updates := mkUpdates {
  u_add : list rope;
  u_del : list rope;
  u_remove : list rope;
  u_set : list rope;
}.

(** [already] is the set of processed attribute paths; [names] and [values]
    are the two placeholder tables, [namesMap] and [valuesMap] their
    de-duplication indexes. *)
Module Expression.
Record t := mk {
  model : Model.t;
  op : string;
  properties : Item;
  params : Params.t;
  index : IndexDef.t;
  hash : string;
  sort : string;
  already : list string;
  key : Item;
  keys : list rope;
  conditions : list rope;
  filters : list rope;
  project : list rope;
  puts : Item;
  mapped : list (string * Item);
  names : gmap string string;
  namesMap : gmap string nat;
  values : gmap string value;
  valuesMap : gmap string nat;
  nindex : nat;
  vindex : nat;
  updates : Updates;
  execute : bool;
  canPut : bool;
  tableName : string;
}.

Definition set_properties x (r : t) : t :=
  mk (model r) (op r) x (params r) (index r) (hash r) (sort r) (already r)
    (key r) (keys r) (conditions r) (filters r) (project r) (puts r) (mapped
    r) (names r) (namesMap r) (values r) (valuesMap r) (nindex r) (vindex r)
    (updates r) (execute r) (canPut r) (tableName r).

Definition set_params x (r : t) : t :=
  mk (model r) (op r) (properties r) x (index r) (hash r) (sort r) (already
    r) (key r) (keys r) (conditions r) (filters r) (project r) (puts r)
    (mapped r) (names r) (namesMap r) (values r) (valuesMap r) (nindex r)
    (vindex r) (updates r) (execute r) (canPut r) (tableName r).

Definition set_already x (r : t) : t :=
  mk (model r) (op r) (properties r) (params r) (index r) (hash r) (sort r)
    x (key r) (keys r) (conditions r) (filters r) (project r) (puts r)
    (mapped r) (names r) (namesMap r) (values r) (valuesMap r) (nindex r)
    (vindex r) (updates r) (execute r) (canPut r) (tableName r).

Definition set_key x (r : t) : t :=
  mk (model r) (op r) (properties r) (params r) (index r) (hash r) (sort r)
    (already r) x (keys r) (conditions r) (filters r) (project r) (puts r)
    (mapped r) (names r) (namesMap r) (values r) (valuesMap r) (nindex r)
    (vindex r) (updates r) (execute r) (canPut r) (tableName r).

Definition set_keys x (r : t) : t :=
  mk (model r) (op r) (properties r) (params r) (index r) (hash r) (sort r)
    (already r) (key r) x (conditions r) (filters r) (project r) (puts r)
    (mapped r) (names r) (namesMap r) (values r) (valuesMap r) (nindex r)
    (vindex r) (updates r) (execute r) (canPut r) (tableName r).

Definition set_conditions x (r : t) : t :=
  mk (model r) (op r) (properties r) (params r) (index r) (hash r) (sort r)
    (already r) (key r) (keys r) x (filters r) (project r) (puts r) (mapped
    r) (names r) (namesMap r) (values r) (valuesMap r) (nindex r) (vindex r)
    (updates r) (execute r) (canPut r) (tableName r).

Definition set_filters x (r : t) : t :=
  mk (model r) (op r) (properties r) (params r) (index r) (hash r) (sort r)
    (already r) (key r) (keys r) (conditions r) x (project r) (puts r)
    (mapped r) (names r) (namesMap r) (values r) (valuesMap r) (nindex r)
    (vindex r) (updates r) (execute r) (canPut r) (tableName r).

Definition set_project x (r : t) : t :=
  mk (model r) (op r) (properties r) (params r) (index r) (hash r) (sort r)
    (already r) (key r) (keys r) (conditions r) (filters r) x (puts r)
    (mapped r) (names r) (namesMap r) (values r) (valuesMap r) (nindex r)
    (vindex r) (updates r) (execute r) (canPut r) (tableName r).

Definition set_puts x (r : t) : t :=
  mk (model r) (op r) (properties r) (params r) (index r) (hash r) (sort r)
    (already r) (key r) (keys r) (conditions r) (filters r) (project r) x
    (mapped r) (names r) (namesMap r) (values r) (valuesMap r) (nindex r)
    (vindex r) (updates r) (execute r) (canPut r) (tableName r).

Definition set_mapped x (r : t) : t :=
  mk (model r) (op r) (properties r) (params r) (index r) (hash r) (sort r)
    (already r) (key r) (keys r) (conditions r) (filters r) (project r)
    (puts r) x (names r) (namesMap r) (values r) (valuesMap r) (nindex r)
    (vindex r) (updates r) (execute r) (canPut r) (tableName r).

Definition set_names x (r : t) : t :=
  mk (model r) (op r) (properties r) (params r) (index r) (hash r) (sort r)
    (already r) (key r) (keys r) (conditions r) (filters r) (project r)
    (puts r) (mapped r) x (namesMap r) (values r) (valuesMap r) (nindex r)
    (vindex r) (updates r) (execute r) (canPut r) (tableName r).

Definition set_namesMap x (r : t) : t :=
  mk (model r) (op r) (properties r) (params r) (index r) (hash r) (sort r)
    (already r) (key r) (keys r) (conditions r) (filters r) (project r)
    (puts r) (mapped r) (names r) x (values r) (valuesMap r) (nindex r)
    (vindex r) (updates r) (execute r) (canPut r) (tableName r).

Definition set_values x (r : t) : t :=
  mk (model r) (op r) (properties r) (params r) (index r) (hash r) (sort r)
    (already r) (key r) (keys r) (conditions r) (filters r) (project r)
    (puts r) (mapped r) (names r) (namesMap r) x (valuesMap r) (nindex r)
    (vindex r) (updates r) (execute r) (canPut r) (tableName r).

Definition set_valuesMap x (r : t) : t :=
  mk (model r) (op r) (properties r) (params r) (index r) (hash r) (sort r)
    (already r) (key r) (keys r) (conditions r) (filters r) (project r)
    (puts r) (mapped r) (names r) (namesMap r) (values r) x (nindex r)
    (vindex r) (updates r) (execute r) (canPut r) (tableName r).

Definition set_nindex x (r : t) : t :=
  mk (model r) (op r) (properties r) (params r) (index r) (hash r) (sort r)
    (already r) (key r) (keys r) (conditions r) (filters r) (project r)
    (puts r) (mapped r) (names r) (namesMap r) (values r) (valuesMap r) x
    (vindex r) (updates r) (execute r) (canPut r) (tableName r).

Definition set_vindex x (r : t) : t :=
  mk (model r) (op r) (properties r) (params r) (index r) (hash r) (sort r)
    (already r) (key r) (keys r) (conditions r) (filters r) (project r)
    (puts r) (mapped r) (names r) (namesMap r) (values r) (valuesMap r)
    (nindex r) x (updates r) (execute r) (canPut r) (tableName r).

Definition set_updates x (r : t) : t :=
  mk (model r) (op r) (properties r) (params r) (index r) (hash r) (sort r)
    (already r) (key r) (keys r) (conditions r) (filters r) (project r)
    (puts r) (mapped r) (names r) (namesMap r) (values r) (valuesMap r)
    (nindex r) (vindex r) x (execute r) (canPut r) (tableName r).
End Expression.

(** ** What the Go libraries and the services outside the core provide *)

(** [fmtExt] is [fmt.Sprintf("%v", v)] for a float64, a time, a byte slice, a
    list or a map; [parseFloat] is [strconv.ParseFloat]; [regexpMatch pat s]
    compiles [pat] and matches [s] (none when the pattern does not compile);
    [atoi] is [strconv.Atoi] with its error dropped; [strconvQuote] is the
    quoting of the verb q of [fmt]; [generate] is the
    identifier service; [marshalValue] is the attribute-value encoder (none
    when it fails); [timeNow] is the instant [time.Now] returns;
    [transformWriteAttribute op field v] is the type-directed write
    conversion of one attribute value in [model.go], which rests on the time,
    strconv and crypto libraries. *)
Class GoLib := {
  fmtExt : value → string;
  parseFloat : string → option Z;
  regexpMatch : string → string → option bool;
  atoi : string → Z;
  strconvQuote : string → string;
  formatRFC3339Nano : Z → string;
  generate : string → value;
  marshalValue : value → option AttributeValue;
  timeNow : Z;
  transformWriteAttribute : string → preparedField → value → outcome value;
}.

(** [dq] is the double-quote character. *)
Definition dq : string := String (ascii_of_nat 34) EmptyString.

(** A loop over a list that threads a state and stops at the first failure. *)
Fixpoint foldM {A S : Type} (f : A → S → outcome S) (l : list A) (s : S) : outcome S :=
  match l with
  | [] => Ok s
  | a :: l' => s' ← f a s; foldM f l' s'
  end.

(** [strings.Split(s, sep)] for a one-character separator. *)
Fixpoint splitOn (sep : ascii) (s : string) : list string :=
  match s with
  | EmptyString => [""]
  | String c s' =>
      if decide (c = sep) then "" :: splitOn sep s'
      else match splitOn sep s' with
           | [] => [String c ""]
           | p :: ps => String c p :: ps
           end
  end.

(** [strings.ContainsAny(s, chars)]. *)
Fixpoint containsAny (s : string) (chars : list ascii) : bool :=
  match s with
  | EmptyString => false
  | String c s' => if decide (c ∈ chars) then true else containsAny s' chars
  end.

Fixpoint dropStr (n : nat) (s : string) : string :=
  match n, s with
  | S n', String _ s' => dropStr n' s'
  | _, _ => s
  end.

Fixpoint lastChar (s : string) : option ascii :=
  match s with
  | EmptyString => None
  | String c EmptyString => Some c
  | String _ s' => lastChar s'
  end.

Fixpoint dropLast (s : string) : string :=
  match s with
  | EmptyString => EmptyString
  | String _ EmptyString => EmptyString
  | String c s' => String c (dropLast s')
  end.

(** *** The three token scanners of [expand] *)

(** The attribute token (dollar sign, opening brace, the shortest text with
    no newline, closing brace), at a position just after its opening brace:
    the text up to the first closing brace, when no newline comes before it. *)
Fixpoint closeVar (s : string) : option string :=
  match s with
  | EmptyString => None
  | String c s' =>
      if decide (c = "}"%char) then Some EmptyString
      else if decide (c = ascii_of_nat 10) then None
      else match closeVar s' with
           | Some inner => Some (String c inner)
           | None => None
           end
  end.

Inductive tok1 :=
  | T1Chr (c : ascii)
  | T1Var (inner : string).

(** The attribute tokens of [s], left to right and not overlapping; [skip]
    counts the characters of the current match still to pass. *)
Fixpoint scanVars (skip : nat) (s : string) : list tok1 :=
  match s with
  | EmptyString => []
  | String c s' =>
      match skip with
      | S k => scanVars k s'
      | 0 =>
          if isPrefix "${" s then
            match closeVar (dropStr 1 s') with
            | Some inner => T1Var inner :: scanVars (String.length inner + 2) s'
            | None => T1Chr c :: scanVars 0 s'
            end
          else T1Chr c :: scanVars 0 s'
      end
  end.

(** The atoms up to the first closing brace. *)
Fixpoint closeBrace (r : rope) : option rope :=
  match r with
  | [] => None
  | Ch c :: r' =>
      if decide (c = "}"%char) then Some []
      else match closeBrace r' with
           | Some inner => Some (Ch c :: inner)
           | None => None
           end
  | a :: r' =>
      match closeBrace r' with
      | Some inner => Some (a :: inner)
      | None => None
      end
  end.

Inductive tok2 :=
  | T2Atom (a : atom)
  | T2Match (inner : rope).

Definition isCh (c : ascii) (a : atom) : bool :=
  match a with Ch c' => bool_decide (c' = c) | _ => false end.

(** The substitution tokens: an at sign and an opening brace, at least one
    character that is no closing brace, and the closing brace. *)
Fixpoint scanSubs (skip : nat) (r : rope) : list tok2 :=
  match r with
  | [] => []
  | a :: r' =>
      match skip with
      | S k => scanSubs k r'
      | 0 =>
          match r' with
          | b :: r'' =>
              if isCh "@" a && isCh "{" b then
                match closeBrace r'' with
                | Some (i :: inner) =>
                    T2Match (i :: inner) :: scanSubs (length (i :: inner) + 2) r'
                | _ => T2Atom a :: scanSubs 0 r'
                end
              else T2Atom a :: scanSubs 0 r'
          | [] => [T2Atom a]
          end
      end
  end.

(** The literal tokens: an opening brace, any characters that are no
    closing brace, and the closing brace. *)
Fixpoint scanLits (skip : nat) (r : rope) : list tok2 :=
  match r with
  | [] => []
  | a :: r' =>
      match skip with
      | S k => scanLits k r'
      | 0 =>
          if isCh "{" a then
            match closeBrace r' with
            | Some inner => T2Match inner :: scanLits (length inner + 1) r'
            | None => T2Atom a :: scanLits 0 r'
            end
          else T2Atom a :: scanLits 0 r'
      end
  end.

(** [KeyOperators]. *)
Definition KeyOperators : list string :=
  ["<"; "<="; "="; ">="; ">"; "begins"; "begins_with"; "between"].

(** [asSlice]. *)
Definition asSlice (v : value) : list value :=
  match v with VList arr => arr | _ => [v] end.

(** [coalesce]. *)
Definition coalesce (a b : string) : string := if streq a "" then b else a.

(** [unique] of [model.go]: the non-empty strings, each once. *)
Fixpoint uniqueFrom (seen : list string) (s : list string) : list string :=
  match s with
  | [] => []
  | v :: rest =>
      if negb (streq v "") && negb (containsStr seen v)
      then v :: uniqueFrom (v :: seen) rest
      else uniqueFrom seen rest
  end.
Definition unique (s : list string) : list string := uniqueFrom [] s.

Definition keysOnlyOp (op : string) : bool := streq op "delete" || streq op "get".

(** ** The expression builder ([expression.go]) *)

Section Builder.
Context `{GoLib}.

(** [fmt.Sprintf("%v", v)]. *)
Definition fmtV (v : value) : string :=
  match v with
  | VNil => "<nil>"
  | VString s => s
  | VBool true => "true"
  | VBool false => "false"
  | VInt n | VInt64 n => pretty n
  | _ => fmtExt v
  end.

(** [selectIndex] of [model.go]; none stands for the nil pointer that
    [m.indexes["primary"]] is when the schema has no primary index. *)
Definition selectIndex (m : Model.t) (params : option Params.t) : option IndexDef.t :=
  match params with
  | Some p =>
      if negb (streq (Params.Index p) "") && negb (streq (Params.Index p) "primary")
      then match alookup (Params.Index p) (Model.indexes m) with
           | Some idx => Some idx
           | None => alookup "primary" (Model.indexes m)
           end
      else alookup "primary" (Model.indexes m)
  | None => alookup "primary" (Model.indexes m)
  end.

(** The key of [m.indexes] whose entry [selectIndex] returns: pointers to
    index definitions are compared through it. *)
Definition selectIndexName (m : Model.t) (params : option Params.t) : string :=
  match params with
  | Some p =>
      if negb (streq (Params.Index p) "") && negb (streq (Params.Index p) "primary")
         && ahas (Params.Index p) (Model.indexes m)
      then Params.Index p
      else "primary"
  | None => "primary"
  end.

(** [getPartial]. *)
Definition getPartial (m : Model.t) (field : preparedField) (params : option Params.t) : bool :=
  match params with
  | Some p =>
      match Params.Partial p with
      | Some b => b
      | None => default (Model.partial m) (Partial field)
      end
  | None => default (Model.partial m) (Partial field)
  end.

(** [init]. *)
Definition init (model : Model.t) (op : string) (properties : Item)
    (params : Params.t) : outcome Expression.t :=
  match selectIndex model (Some params) with
  | None => Panic "invalid memory address or nil pointer dereference"
  | Some idx =>
      let e :=
        Expression.mk model op properties params idx
          (IndexDef.Hash idx) (IndexDef.Sort idx)
          [] [] [] [] [] [] [] [] ∅ ∅ ∅ ∅ 0 0 (mkUpdates [] [] [] [])
          (default true (Params.Execute params))
          (streq op "put" || (bool_decide (Params.Batch params ≠ None) && streq op "update"))
          (Model.tableName model) in
      if Model.table_client model then Ok e
      else Err (NewArgError "Table has not yet defined a client instance")
  end.

(** [addName]: the index of the name, and the state after the call. *)
Definition addName (name : string) (e : Expression.t) : nat * Expression.t :=
  match Expression.namesMap e !! name with
  | Some idx => (idx, e)
  | None =>
      let idx := Expression.nindex e in
      (idx,
       Expression.set_namesMap (<[name := idx]> (Expression.namesMap e))
         (Expression.set_names (<[nameKey idx := name]> (Expression.names e))
            (Expression.set_nindex (S idx) e)))
  end.

(** The dynamic types [addValue] never de-duplicates. *)
Definition noDedup (v : value) : bool :=
  match v with
  | VMap _ | VList _ | VFloat64 _ | VInt _ | VInt64 _ => true
  | _ => false
  end.

(** The tail of [addValue]: a new entry at the current [vindex]. *)
Definition newValue (v : value) (e : Expression.t) : nat * Expression.t :=
  let idx := Expression.vindex e in
  (idx,
   Expression.set_values (<[valueKey idx := v]> (Expression.values e))
     (Expression.set_vindex (S idx) e)).

(** [addValue]. *)
Definition addValue (v : value) (e : Expression.t) : nat * Expression.t :=
  if negb (isNil v) && negb (noDedup v) then
    let k := fmtV v in
    match Expression.valuesMap e !! k with
    | Some idx => (idx, e)
    | None =>
        let '(idx, e') := newValue v e in
        (idx, Expression.set_valuesMap (<[k := idx]> (Expression.valuesMap e')) e')
    end
  else newValue v e.

(** [addValueExp]. *)
Definition addValueExp (v : value) (e : Expression.t) : rope * Expression.t :=
  let '(idx, e') := addValue v e in ([ValueRef idx], e').

(** [makeTarget], part by part; [fields] is empty for a nil map. *)
Fixpoint makeTargetParts (fields : list (string * preparedField)) (parts : list string)
    (e : Expression.t) : list rope * Expression.t :=
  match parts with
  | [] => ([], e)
  | part0 :: rest =>
      let '(part, subscript) :=
        match cutAt "[" part0 with
        | Some (pre, post) => (pre, post)
        | None => (part0, "")
        end in
      let '(att, fields') :=
        match alookup part fields with
        | Some f => (att0 f, match Block f with Some b => Fields b | None => [] end)
        | None => (part, [])
        end in
      let '(idx, e1) := addName att e in
      let '(targets, e2) := makeTargetParts fields' rest e1 in
      ((NameRef idx :: lit subscript) :: targets, e2)
  end.

Definition makeTarget (fields : list (string * preparedField)) (name : string)
    (e : Expression.t) : rope * Expression.t :=
  let '(targets, e') := makeTargetParts fields (splitOn "." name) e in
  (joinRopes "." targets, e').

(** [expand], first pass: every attribute token becomes its target. *)
Fixpoint expandVars (toks : list tok1) (e : Expression.t) : rope * Expression.t :=
  match toks with
  | [] => ([], e)
  | T1Chr c :: rest =>
      let '(r, e') := expandVars rest e in (Ch c :: r, e')
  | T1Var inner :: rest =>
      let '(t, e1) := makeTarget (Fields (Model.block (Expression.model e))) inner e in
      let '(r, e2) := expandVars rest e1 in
      (t ++ r, e2)
  end.

(** The value placeholders of a spread list, joined by ", ". *)
Fixpoint addValues (vs : list value) (e : Expression.t) : list rope * Expression.t :=
  match vs with
  | [] => ([], e)
  | v :: rest =>
      let '(idx, e1) := addValue v e in
      let '(r, e2) := addValues rest e1 in
      ([ValueRef idx] :: r, e2)
  end.

(** The replacement of one substitution token. *)
Definition expandSub (inner : rope) (e : Expression.t) : outcome (rope * Expression.t) :=
  let text := render inner in
  let spread := isPrefix "..." text in
  let name := if spread then dropStr 3 text else text in
  match Params.Substitutions (Expression.params e) with
  | None => Panic ("missing substitution for " +:+ strconvQuote name)
  | Some subs =>
      let val := aget name subs in
      if isNil val then Panic ("missing substitution for " +:+ strconvQuote name)
      else
        match spread, val with
        | true, VList arr =>
            let '(idxs, e') := addValues arr e in Ok (joinRopes ", " idxs, e')
        | _, _ => Ok (addValueExp val e)
        end
  end.

(** [expand], second pass. *)
Fixpoint expandSubs (toks : list tok2) (e : Expression.t) : outcome (rope * Expression.t) :=
  match toks with
  | [] => Ok ([], e)
  | T2Atom a :: rest =>
      '(r, e') ← expandSubs rest e; Ok (a :: r, e')
  | T2Match inner :: rest =>
      '(t, e1) ← expandSub inner e;
      '(r, e2) ← expandSubs rest e1;
      Ok (t ++ r, e2)
  end.

(** The value a literal token stands for. *)
Definition literalValue (inner : string) : value :=
  match parseFloat inner with
  | Some f => VFloat64 f
  | None =>
      if streq inner "true" then VBool true
      else if streq inner "false" then VBool false
      else if bool_decide (2 ≤ String.length inner)
              && isPrefix dq inner
              && bool_decide (lastChar inner = Some (ascii_of_nat 34))
           then VString (dropLast (dropStr 1 inner))
           else VString inner
  end.

(** [expand], third pass. *)
Fixpoint expandLits (toks : list tok2) (e : Expression.t) : rope * Expression.t :=
  match toks with
  | [] => ([], e)
  | T2Atom a :: rest =>
      let '(r, e') := expandLits rest e in (a :: r, e')
  | T2Match inner :: rest =>
      let '(t, e1) := addValueExp (literalValue (render inner)) e in
      let '(r, e2) := expandLits rest e1 in
      (t ++ r, e2)
  end.

(** [expand]. *)
Definition expand (where_ : string) (e : Expression.t) : outcome (rope * Expression.t) :=
  let '(r1, e1) := expandVars (scanVars 0 where_) e in
  '(r2, e2) ← expandSubs (scanSubs 0 r1) e1;
  Ok (expandLits (scanLits 0 r2) e2).

(** [prepareKey]. *)
Definition prepareKey (key : string) (e : Expression.t) : rope * Expression.t :=
  makeTarget (Fields (Model.block (Expression.model e))) key
    (Expression.set_already (key :: Expression.already e) e).

(** [prepareKeyValue]. *)
Definition prepareKeyValue (key : string) (v : value) (e : Expression.t)
    : outcome (rope * rope * Expression.t) :=
  let '(target, e1) := prepareKey key e in
  match v with
  | VString s =>
      if containsAny s ["$"; "{"; "@"; "{"]%char then
        '(variable, e2) ← expand s e1; Ok (target, variable, e2)
      else let '(variable, e2) := addValueExp v e1 in Ok (target, variable, e2)
  | _ => let '(variable, e2) := addValueExp v e1 in Ok (target, variable, e2)
  end.

(** [filterDisabled]; dereferencing the nil [Def] of a synthesized field
    panics. *)
Definition filterDisabled (field : preparedField) : outcome bool :=
  match Def field with
  | None => Panic "invalid memory address or nil pointer dereference"
  | Some d => Ok (match FieldDef.Filter d with Some false => true | _ => false end)
  end.

(** [addFilter]. *)
Definition addFilter (field : preparedField) (path : string) (v : value)
    (e : Expression.t) : outcome Expression.t :=
  if streq path (Expression.hash e) || streq path (Expression.sort e) then Ok e
  else
    '(target, variable, e') ← prepareKeyValue path v e;
    Ok (Expression.set_filters
          (Expression.filters e' ++ [target ++ lit " = " ++ variable]) e').

(** [addGenericFilter]. *)
Definition addGenericFilter (att : string) (v : value) (e : Expression.t) : Expression.t :=
  let '(n, e1) := addName att e in
  let '(i, e2) := addValue v e1 in
  Expression.set_filters
    (Expression.filters e2 ++ [[NameRef n] ++ lit " = " ++ [ValueRef i]]) e2.

(** [addWhereFilters]. *)
Definition addWhereFilters (e : Expression.t) : outcome Expression.t :=
  if streq (Params.Where (Expression.params e)) "" then Ok e
  else
    '(w, e') ← expand (Params.Where (Expression.params e)) e;
    Ok (Expression.set_filters (Expression.filters e' ++ [w]) e').

Definition pushKey (k : rope) (e : Expression.t) : Expression.t :=
  Expression.set_keys (Expression.keys e ++ [k]) e.

(** One operator of a sort-key operator map in [addKey]. *)
Definition addKeyAction (att : string) (obj : Item) (entry : string * value)
    (e : Expression.t) : outcome Expression.t :=
  let '(action, vars) := entry in
  if negb (containsStr KeyOperators action) then
    Panic (argErrorText ("Invalid KeyCondition operator " +:+ dq +:+ action +:+ dq))
  else if streq action "begins_with" || streq action "begins" then
    let '(n, e1) := addName att e in
    let '(i, e2) := addValue vars e1 in
    Ok (pushKey (lit "begins_with(" ++ [NameRef n] ++ lit ", " ++ [ValueRef i] ++ lit ")") e2)
  else if streq action "between" then
    match vars with
    | VList [a; b] =>
        let '(n, e1) := addName att e in
        let '(i, e2) := addValue a e1 in
        let '(j, e3) := addValue b e2 in
        Ok (pushKey ([NameRef n] ++ lit " BETWEEN " ++ [ValueRef i] ++ lit " AND "
                       ++ [ValueRef j]) e3)
    | _ => Ok e
    end
  else
    let '(n, e1) := addName att e in
    let '(i, e2) := addValue (aget action obj) e1 in
    Ok (pushKey ([NameRef n] ++ lit " " ++ lit action ++ lit " " ++ [ValueRef i]) e2).

(** [addKey]. *)
Definition addKey (op : string) (field : preparedField) (v : value)
    (e : Expression.t) : outcome Expression.t :=
  let att := att0 field in
  let equality :=
    let '(n, e1) := addName att e in
    let '(i, e2) := addValue v e1 in
    Ok (pushKey ([NameRef n] ++ lit " = " ++ [ValueRef i]) e2) in
  if streq op "find" then
    if streq att (Expression.sort e) then
      match v with
      | VMap (entry :: obj) => foldM (addKeyAction att (entry :: obj)) (entry :: obj) e
      | _ => equality
      end
    else equality
  else
    Ok (Expression.set_already (att :: Expression.already e)
          (Expression.set_key (ainsert att v (Expression.key e)) e)).

Definition pushSet (u : rope) (e : Expression.t) : Expression.t :=
  let us := Expression.updates e in
  Expression.set_updates (mkUpdates (u_add us) (u_del us) (u_remove us) (u_set us ++ [u])) e.

(** [addUpdate]. *)
Definition addUpdate (field : preparedField) (path : string) (v : value)
    (e : Expression.t) : Expression.t :=
  if streq path (Expression.hash e) || streq path (Expression.sort e) then e
  else if streq (Name field) (Model.typeField (Expression.model e))
          && bool_decide (Params.Exists (Expression.params e) = Some true) then e
  else if containsStr (default [] (Params.Remove (Expression.params e))) (Name field) then e
  else
    let '(target, e1) := prepareKey path e in
    let '(variable, e2) := addValueExp v e1 in
    pushSet (target ++ lit " = " ++ variable) e2.

(** [assertNotPartition] inside [addUpdateConditions]. *)
Definition assertNotPartition (key op : string) (e : Expression.t) : outcome unit :=
  if streq key (Expression.hash e) || streq key (Expression.sort e)
  then Panic (argErrorText ("Cannot " +:+ op +:+ " hash or sort"))
  else Ok ().

(** The five loops of [addUpdateConditions]. *)
Definition updAdd (entry : string * value) (e : Expression.t) : outcome Expression.t :=
  let '(key, v) := entry in
  _ ← assertNotPartition key "add" e;
  '(target, variable, e') ← prepareKeyValue key v e;
  let us := Expression.updates e' in
  Ok (Expression.set_updates
        (mkUpdates (u_add us ++ [target ++ lit " " ++ variable]) (u_del us)
           (u_remove us) (u_set us)) e').

Definition updDelete (entry : string * value) (e : Expression.t) : outcome Expression.t :=
  let '(key, v) := entry in
  _ ← assertNotPartition key "delete" e;
  '(target, variable, e') ← prepareKeyValue key v e;
  let us := Expression.updates e' in
  Ok (Expression.set_updates
        (mkUpdates (u_add us) (u_del us ++ [target ++ lit " " ++ variable])
           (u_remove us) (u_set us)) e').

Definition updRemove (key : string) (e : Expression.t) : outcome Expression.t :=
  _ ← assertNotPartition key "remove" e;
  let '(target, e') := prepareKey key e in
  let us := Expression.updates e' in
  Ok (Expression.set_updates
        (mkUpdates (u_add us) (u_del us) (u_remove us ++ [target]) (u_set us)) e').

Definition updSet (entry : string * string) (e : Expression.t) : outcome Expression.t :=
  let '(key, v) := entry in
  _ ← assertNotPartition key "set" e;
  '(target, variable, e') ← prepareKeyValue key (VString v) e;
  Ok (pushSet (target ++ lit " = " ++ variable) e').

Definition updPush (entry : string * value) (e : Expression.t) : outcome Expression.t :=
  let '(key, v) := entry in
  _ ← assertNotPartition key "push" e;
  let '(emptyIdx, e1) := addValue (VList []) e in
  let '(itemsIdx, e2) := addValue (VList (asSlice v)) e1 in
  let '(target, e3) := prepareKey key e2 in
  Ok (pushSet (target ++ lit " = list_append(if_not_exists(" ++ target ++ lit ", "
                 ++ [ValueRef emptyIdx] ++ lit "), " ++ [ValueRef itemsIdx] ++ lit ")") e3).

(** [addUpdateConditions]. *)
Definition addUpdateConditions (e : Expression.t) : outcome Expression.t :=
  let params := Expression.params e in
  e1 ← foldM updAdd (default [] (Params.Add params)) e;
  e2 ← foldM updDelete (default [] (Params.Delete params)) e1;
  e3 ← foldM updRemove (default [] (Params.Remove params)) e2;
  e4 ← foldM updSet (default [] (Params.Set_ params)) e3;
  foldM updPush (default [] (Params.Push params)) e4.

Definition pushCondition (c : rope) (e : Expression.t) : Expression.t :=
  Expression.set_conditions (Expression.conditions e ++ [c]) e.

(** The condition [fn(#_N)] on an attribute. *)
Definition attrCondition (fn att : string) (e : Expression.t) : Expression.t :=
  let '(n, e') := addName att e in
  pushCondition (lit fn ++ lit "(" ++ [NameRef n] ++ lit ")") e'.

(** [addConditions]. *)
Definition addConditions (op : string) (e : Expression.t) : outcome Expression.t :=
  let hash := IndexDef.Hash (Expression.index e) in
  let sort := IndexDef.Sort (Expression.index e) in
  let params := Expression.params e in
  let e1 :=
    match Params.Exists params with
    | Some true =>
        let e' := attrCondition "attribute_exists" hash e in
        if streq sort "" then e' else attrCondition "attribute_exists" sort e'
    | Some false =>
        let e' := attrCondition "attribute_not_exists" hash e in
        if streq sort "" then e' else attrCondition "attribute_not_exists" sort e'
    | None => e
    end in
  e2 ← (if streq op "update" then addUpdateConditions e1 else Ok e1);
  if streq (Params.Where params) "" then Ok e2
  else '(w, e3) ← expand (Params.Where params) e2; Ok (pushCondition w e3).

(** [add]: emits the key, filter or update expression of one field value.
    [properties] is the map the caller ranges over; a put of a packed
    attribute writes into it. *)
Definition add (op : string) (properties : Item) (field : preparedField) (path : string)
    (v : value) (emit : bool) (e : Expression.t) : outcome (Item * Expression.t) :=
  if containsStr (Expression.already e) path then Ok (properties, e)
  else
    match Attribute field with
    | top :: sub :: _ =>
        let staged := default [] (alookup top (Expression.mapped e)) in
        let e' := Expression.set_mapped
                    (ainsert top (ainsert sub v staged) (Expression.mapped e)) e in
        Ok (if streq op "put" then ainsert top v properties else properties, e')
    | _ =>
        let isKey := streq path (Expression.hash e) || streq path (Expression.sort e) in
        let filterIt (batchToo : bool) : outcome (Item * Expression.t) :=
          if isNil (aget (Name field) properties) then Ok (properties, e)
          else
            disabled ← filterDisabled field;
            if (disabled : bool) then Ok (properties, e)
            else if batchToo && bool_decide (Params.Batch (Expression.params e) ≠ None)
            then Ok (properties, e)
            else e' ← addFilter field path v e; Ok (properties, e') in
        if isKey then
          if streq op "find" then e' ← addKey op field v e; Ok (properties, e')
          else if streq op "scan" then filterIt false
          else if streq op "delete" || streq op "get" || streq op "update" || streq op "check"
          then if IsIndexed field then e' ← addKey op field v e; Ok (properties, e')
               else Ok (properties, e)
          else Ok (properties, e)
        else if emit then
          if streq op "find" || streq op "scan" then filterIt true
          else if streq op "update" then Ok (properties, addUpdate field path v e)
          else Ok (properties, e)
        else Ok (properties, e)
    end.

(** [addProperties]: one block level; [fuel] bounds the nesting of blocks.
    The loop ranges over the bindings the map had on entry. *)
Fixpoint addProperties (fuel : nat) (op : string) (block : fieldBlock) (properties : Item)
    (e : Expression.t) : outcome (Item * Item * Expression.t) :=
  match fuel with
  | 0 => Panic "block nesting exceeds the bound"
  | S fuel' =>
      let m := Expression.model e in
      foldM
        (λ (entry : string * value) (st : Item * Item * Expression.t),
           let '(name, v) := entry in
           let '(rec, props, e) := st in
           match alookup name (Fields block) with
           | None =>
               '(props', e') ←
                 (if Model.generic m
                  then add op props (synthField name) name v true e
                  else Ok (props, e));
               Ok (ainsert name v rec, props', e')
           | Some field =>
               let path := att0 field in
               match Block field with
               | None =>
                   '(props', e') ← add op props field path v true e;
                   Ok (ainsert (att0 field) v rec, props', e')
               | Some sub =>
                   let partial := getPartial m field (Some (Expression.params e)) in
                   if IsArray field then
                     match v with
                     | VList arr =>
                         '(cp, arr', e1) ←
                           foldM
                             (λ (elem : value) (acc : list value * list value * Expression.t),
                                let '(cp, arr', e) := acc in
                                match elem with
                                | VMap s =>
                                    '(r, s', e') ← addProperties fuel' op sub s e;
                                    Ok (cp ++ [VMap r], arr' ++ [VMap s'], e')
                                | _ => Ok (cp ++ [elem], arr' ++ [elem], e)
                                end)
                             arr ([], [], e);
                         let props1 := ainsert name (VList arr') props in
                         '(props2, e2) ←
                           (if partial then Ok (props1, e1)
                            else add op props1 field path (VList cp) true e1);
                         Ok (ainsert (att0 field) (VList cp) rec, props2, e2)
                     | _ => Ok (ainsert (att0 field) v rec, props, e)
                     end
                   else
                     '(v', props1, e1) ←
                       match v with
                       | VMap s =>
                           '(r, s', e') ← addProperties fuel' op sub s e;
                           Ok (VMap r, ainsert name (VMap s') props, e')
                       | _ => Ok (v, props, e)
                       end;
                     '(props2, e2) ←
                       (if partial then Ok (props1, e1)
                        else add op props1 field path v' true e1);
                     Ok (ainsert (att0 field) v' rec, props2, e2)
               end
           end)
        properties ([], properties, e)
  end.

(** The depth of a block tree, the bound [prepare] gives [addProperties]. *)
Fixpoint blockDepth (fuel : nat) (b : fieldBlock) : nat :=
  match fuel with
  | 0 => 0
  | S fuel' =>
      S (foldr (λ (nf : string * preparedField) acc,
                  match Block nf.2 with
                  | Some sub => Nat.max (blockDepth fuel' sub) acc
                  | None => acc
                  end) 0 (Fields b))
  end.

(** The check that every packed attribute has all its sub-properties. *)
Definition checkMapped (e : Expression.t) : outcome unit :=
  foldM
    (λ (entry : string * Item) (_ : unit),
       let '(att, props) := entry in
       let expected := length (default [] (alookup att (Model.mappings (Expression.model e)))) in
       if bool_decide (length props = expected) then Ok ()
       else Err (NewArgError ("Missing properties for mapped field " +:+ dq +:+ att +:+ dq
                                +:+ " in model " +:+ dq
                                +:+ Model.Name (Expression.model e) +:+ dq)))
    (Expression.mapped e) ().

(** The loop of [prepare] that emits the packed attributes. *)
Definition emitMapped (op : string) (e : Expression.t) : outcome Expression.t :=
  foldM
    (λ (entry : string * Item) (e : Expression.t),
       let '(k, v) := entry in
       '(props, e') ← add op (Expression.properties e) (synthField k) k (VMap v) true e;
       Ok (Expression.set_puts (ainsert k (VMap v) (Expression.puts e'))
             (Expression.set_properties props e')))
    (Expression.mapped e) e.

(** The projection loop of [prepare]. *)
Definition addProjection (e : Expression.t) : Expression.t :=
  match Params.Fields (Expression.params e) with
  | None => e
  | Some fields =>
      foldl
        (λ (e : Expression.t) (name : string),
           let m := Expression.model e in
           if bool_decide (Params.Batch (Expression.params e) ≠ None) || Model.generic m then
             let '(n, e') := addName name e in
             Expression.set_project (Expression.project e' ++ [[NameRef n]]) e'
           else
             match alookup name (Fields (Model.block m)) with
             | Some f =>
                 let '(n, e') := addName (att0 f) e in
                 Expression.set_project (Expression.project e' ++ [[NameRef n]]) e'
             | None => e
             end)
        e fields
  end.

(** The generic filters of a scan for attributes the schema does not know. *)
Definition addScanFilters (e : Expression.t) : Expression.t :=
  foldl
    (λ (e : Expression.t) (entry : string * value),
       let '(name, v) := entry in
       if negb (ahas name (Fields (Model.block (Expression.model e)))) && negb (isNil v)
       then addGenericFilter name v e
       else e)
    e (Expression.properties e).

(** [prepare]. *)
Definition prepare (e : Expression.t) : outcome Expression.t :=
  let op := Expression.op e in
  e1 ←
    (if streq op "find" then addWhereFilters e
     else if streq op "delete" || streq op "put" || streq op "update" || streq op "check"
     then addConditions op e
     else if streq op "scan" then e' ← addWhereFilters e; Ok (addScanFilters e')
     else Ok e);
  let block := Model.block (Expression.model e1) in
  '(rec, props, e2) ←
    addProperties (blockDepth (length (Fields block) + 1) block + 1) op block
      (Expression.properties e1) e1;
  let e3 := Expression.set_puts rec (Expression.set_properties props e2) in
  _ ← checkMapped e3;
  e4 ← emitMapped op e3;
  Ok (addProjection e4).

(** [newExpression]. *)
Definition newExpression (model : Model.t) (op : string) (properties : Item)
    (params : Params.t) : outcome Expression.t :=
  e ← init model op properties params;
  prepare e.

(** [and]. *)
Definition and_ (terms : list rope) : rope :=
  match terms with
  | [t] => t
  | _ => joinRopes " and " (map (λ t, lit "(" ++ t ++ lit ")") terms)
  end.

(** [marshallForDynamo] on an item and on the value table. *)
Fixpoint marshallForDynamo (item : Item) : option (list (string * AttributeValue)) :=
  match item with
  | [] => Some []
  | (k, v) :: rest =>
      match marshalValue v, marshallForDynamo rest with
      | Some av, Some avs => Some ((k, av) :: avs)
      | _, _ => None
      end
  end.

Definition marshallTable (t : gmap string value) : option (gmap string AttributeValue) :=
  if decide (map_Forall (λ _ v, is_Some (marshalValue v)) t)
  then Some (omap marshalValue t)
  else None.

Definition marshalError : error := BackendError "marshal".

Definition orMarshalError {A} (x : option A) : outcome A :=
  match x with Some a => Ok a | None => Err marshalError end.

(** [strings.ToLower] on the letters A to Z. *)
Definition lowerChar (c : ascii) : ascii :=
  let n := nat_of_ascii c in
  if bool_decide (65 ≤ n) && bool_decide (n ≤ 90) then ascii_of_nat (n + 32) else c.

Fixpoint toLower (s : string) : string :=
  match s with
  | EmptyString => EmptyString
  | String c s' => String (lowerChar c) (toLower s')
  end.

(** The [ReturnValues] the caller asked for ("" when none). *)
Definition requestedReturn (op : string) (ret : value) : string :=
  match ret with
  | VBool true => if streq op "delete" then "ALL_OLD" else "ALL_NEW"
  | VBool false => "NONE"
  | VString r =>
      if streq (toLower r) "none" then "NONE"
      else if streq r "get" then "" else r
  | _ => ""
  end.

Definition nonEmptyRope (l : list rope) (r : rope) : option rope :=
  match l with [] => None | _ => Some r end.

(** The [UpdateExpression] of [command]. *)
Definition updateExpression (us : Updates) : rope :=
  joinRopes " "
    ((match u_add us with [] => [] | l => [lit "add " ++ joinRopes ", " l] end)
     ++ (match u_del us with [] => [] | l => [lit "delete " ++ joinRopes ", " l] end)
     ++ (match u_remove us with [] => [] | l => [lit "remove " ++ joinRopes ", " l] end)
     ++ (match u_set us with [] => [] | l => [lit "set " ++ joinRopes ", " l] end)).

(** The exclusive start key [command] builds from [Next] or [Prev]. *)
Definition startKey (e : Expression.t) : outcome (option (list (string * AttributeValue))) :=
  let params := Expression.params e in
  let hash := Expression.hash e in
  let sort := Expression.sort e in
  match (match Params.Next params with Some c => Some c | None => Params.Prev params end) with
  | None => Ok None
  | Some cursor =>
      let start0 := [(hash, aget hash cursor)] in
      let start1 :=
        if negb (streq sort "") && negb (isNil (aget sort cursor))
        then ainsert sort (aget sort cursor) start0 else start0 in
      start2 ←
        (if negb (streq (Params.Index params) "") && negb (streq (Params.Index params) "primary")
         then
           match alookup "primary" (Model.indexes (Expression.model e)) with
           | None => Panic "invalid memory address or nil pointer dereference"
           | Some pi =>
               let s := ainsert (IndexDef.Hash pi) (aget (IndexDef.Hash pi) cursor) start1 in
               Ok (if negb (streq (IndexDef.Sort pi) "")
                      && negb (isNil (aget (IndexDef.Sort pi) cursor))
                   then ainsert (IndexDef.Sort pi) (aget (IndexDef.Sort pi) cursor) s
                   else s)
           end
         else Ok start1);
      Ok (if isNil (aget hash start2) then None else marshallForDynamo start2)
  end.

(** [command]: the final command envelope. *)
Definition command (e : Expression.t) : outcome Command.t :=
  let op := Expression.op e in
  let params := Expression.params e in
  let namesLen := size (Expression.names e) in
  let valuesLen := size (Expression.values e) in
  key ← orMarshalError (marshallForDynamo (Expression.key e));
  puts ← orMarshalError (marshallForDynamo (Expression.puts e));
  values ← orMarshalError (marshallTable (Expression.values e));
  match Params.Batch params with
  | Some _ =>
      let bare (k it : option (list (string * AttributeValue))) :=
        Command.mk None None None None None None None None None None None it None k
          None None None None None None None in
      args ←
        (if streq op "get" || streq op "delete" then Ok (bare (Some key) None)
         else if streq op "put" then Ok (bare None (Some puts))
         else Err (NewArgError ("Unsupported batch operation " +:+ dq +:+ op +:+ dq)));
      match Expression.filters e with
      | [] => Ok args
      | _ => Err (NewArgError "Invalid filters with batch operation")
      end
  | None =>
      let requested := requestedReturn op (Params.Return params) in
      let orDefault (d : string) := if streq requested "" then d else requested in
      let isFindScan := streq op "find" || streq op "scan" in
      let namedIndex :=
        negb (streq (Params.Index params) "") && negb (streq (Params.Index params) "primary") in
      let metered :=
        bool_decide (Params.Stats params ≠ None) || Model.table_metrics (Expression.model e) in
      start ← (if isFindScan then startKey e else Ok None);
      let args :=
        Command.mk
          (Some (Expression.tableName e))
          (nonEmptyRope (Expression.conditions e) (and_ (Expression.conditions e)))
          (if bool_decide (0 < namesLen) then Some (Expression.names e) else None)
          (if bool_decide (0 < namesLen) && bool_decide (0 < valuesLen)
           then Some values else None)
          (nonEmptyRope (Expression.filters e) (and_ (Expression.filters e)))
          (nonEmptyRope (Expression.keys e) (joinRopes " and " (Expression.keys e)))
          (nonEmptyRope (Expression.project e) (joinRopes ", " (Expression.project e)))
          (if streq op "update" then Some (updateExpression (Expression.updates e)) else None)
          (if negb (streq (Params.Select params) "") then Some (Params.Select params)
           else if Params.Count params then Some "COUNT" else None)
          (if metered then Some (coalesce (Params.Capacity params) "TOTAL") else None)
          (if metered then Some "SIZE" else None)
          (if streq op "put" then Some puts else None)
          (if streq op "put" then Some (orDefault "NONE")
           else if streq op "update" then Some (orDefault "ALL_NEW")
           else if streq op "delete" then Some (orDefault "ALL_OLD")
           else None)
          (if streq op "delete" || streq op "get" || streq op "update" || streq op "check"
           then Some key else None)
          (if isFindScan || streq op "get" then Some (Params.Consistent params) else None)
          (if (isFindScan || streq op "get") && namedIndex
           then Some (Params.Index params) else None)
          (if isFindScan && bool_decide (0 < Params.Limit params)%Z
           then Some (Params.Limit params) else None)
          (if isFindScan
           then Some (negb (xorb (Params.Reverse params)
                              (bool_decide (Params.Prev params ≠ None)
                               && bool_decide (Params.Next params = None))))
           else None)
          start
          (if streq op "scan" && bool_decide (0 < Params.Segments params)%Z
           then Some (Params.Segments params) else None)
          (if streq op "scan" && bool_decide (0 < Params.Segment params)%Z
           then Some (Params.Segment params) else None) in
      Ok (match Params.PostFormat params with
          | Some f => f (Expression.model e) args
          | None => args
          end)
  end.

End Builder.

(** ** Call sequences on the placeholder tables

    The references to names and values that the builder makes within one
    command, in order, with the index each call returns. *)

Inductive tableCall :=
  | CallName (name : string)
  | CallValue (v : value).

Section Calls.
Context `{GoLib}.

Definition doCall (c : tableCall) (e : Expression.t) : nat * Expression.t :=
  match c with
  | CallName n => addName n e
  | CallValue v => addValue v e
  end.

Fixpoint doCalls (cs : list tableCall) (e : Expression.t) : list nat * Expression.t :=
  match cs with
  | [] => ([], e)
  | c :: rest =>
      let '(i, e1) := doCall c e in
      let '(is_, e2) := doCalls rest e1 in
      (i :: is_, e2)
  end.

(** What the specification calls a map, a list or a number. *)
Definition isMapListNumber (v : value) : bool := noDedup v.

(** The values [addValue] de-duplicates: neither nil nor a map, list or
    number. *)
Definition dedupable (v : value) : bool := negb (isNil v) && negb (noDedup v).

End Calls.

(** The keys of the [Add], [Delete], [Remove], [Set] and [Push] options. *)
Definition updateKeys (p : Params.t) : list string :=
  akeys (default [] (Params.Add p)) ++ akeys (default [] (Params.Delete p))
  ++ default [] (Params.Remove p) ++ akeys (default [] (Params.Set_ p))
  ++ akeys (default [] (Params.Push p)).

(** The message of the argument error [assertNotPartition] raises. *)
Definition cannotUpdateKey (what : string) : string :=
  argErrorText ("Cannot " +:+ what +:+ " hash or sort").

(** ** Property preparation ([model.go]) *)

(** [strings.SplitN(s, ":", 3)]. *)
Definition splitN3 (s : string) : list string :=
  match cutAt ":" s with
  | None => [s]
  | Some (a, rest) =>
      let rest' := dropStr 1 rest in
      match cutAt ":" rest' with
      | None => [a; rest']
      | Some (b, rest2) => [a; b; dropStr 1 rest2]
      end
  end.

(** The padding loop [for len(s) < length { s = pad + s }], for a pad that
    is not empty: at most [fuel] rounds. *)
Fixpoint padLoop (fuel : nat) (s pad : string) (length : Z) : string :=
  match fuel with
  | 0 => s
  | S fuel' =>
      if bool_decide (Z.of_nat (String.length s) < length)%Z
      then padLoop fuel' (pad +:+ s) pad length
      else s
  end.

(** The padding loop: with an empty pad and a text that is too short it
    never ends. *)
Definition padLeft (s pad : string) (length : Z) : outcome string :=
  if bool_decide (Z.of_nat (String.length s) < length)%Z then
    if streq pad "" then Hang
    else Ok (padLoop (Z.to_nat (length - Z.of_nat (String.length s))) s pad length)
  else Ok s.

(** The text before the last occurrence of [c] and the text after it. *)
Fixpoint cutLast (c : ascii) (s : string) : option (string * string) :=
  match s with
  | EmptyString => None
  | String a s' =>
      match cutLast c s' with
      | Some (pre, post) => Some (String a pre, post)
      | None => if decide (a = c) then Some (EmptyString, s') else None
      end
  end.

Section Prepare.
Context `{GoLib}.

(** [getPropValue]. *)
Fixpoint getPath (v : value) (parts : list string) : value :=
  match parts with
  | [] => v
  | part :: rest =>
      match v with
      | VMap cur => getPath (aget part cur) rest
      | _ => VNil
      end
  end.

Definition getPropValue (m : Item) (path : string) : value :=
  getPath (VMap m) (splitOn "." path).

(** [needsFallback]; the selected index is the primary one exactly when
    its key in [m.indexes] is "primary". *)
Definition needsFallback (m : Model.t) (op : string) (params : Params.t) : bool :=
  negb (streq (selectIndexName m (Some params)) "primary")
  && negb (streq op "find") && negb (streq op "scan").

(** [getHashValue]. *)
Fixpoint hashField (fields : list (string * preparedField)) (hash : string)
    : option preparedField :=
  match fields with
  | [] => None
  | (_, field) :: rest =>
      if streq (att0 field) hash then Some field else hashField rest hash
  end.

Definition getHashValue (m : Model.t) (rec : Item)
    (fields : list (string * preparedField)) (index : IndexDef.t) : value :=
  if Model.generic m then aget (IndexDef.Hash index) rec
  else match hashField fields (IndexDef.Hash index) with
       | Some field => aget (Name field) rec
       | None => VNil
       end.

(** [addContext]. *)
Definition addContext (m : Model.t) (op : string) (fields : list (string * preparedField))
    (index : IndexDef.t) (properties context : Item) : Item :=
  let props :=
    foldl
      (λ (props : Item) (nf : string * preparedField),
         let field := nf.2 in
         if hasBlock field then props
         else if streq op "put"
                 || (negb (streq (att0 field) (IndexDef.Hash index))
                     && negb (streq (att0 field) (IndexDef.Sort index)))
         then match alookup (Name field) context with
              | Some v => ainsert (Name field) v props
              | None => props
              end
         else props)
      properties fields in
  if negb (Model.generic m)
  then ainsert (Model.typeField m) (VString (Model.Name m)) props
  else props.

(** [setDefaults]. *)
Definition setDefaults (op : string) (fields : list (string * preparedField))
    (properties : Item) (params : Params.t) : Item :=
  if negb (streq op "put") && negb (streq op "init")
     && negb (streq op "update" && bool_decide (Params.Exists params = None))
  then properties
  else
    foldl
      (λ (props : Item) (nf : string * preparedField),
         let field := nf.2 in
         let name := Name field in
         if hasBlock field then props
         else if ahas name props then props
         else if negb (streq (ValueTemplate field) "") then props
         else if negb (isNil (FieldDef.Default (fdef field)))
         then ainsert name (FieldDef.Default (fdef field)) props
         else if streq op "init"
         then (if streq (FieldDef.Generate (fdef field)) ""
               then ainsert name VNil props else props)
         else if negb (streq (FieldDef.Generate (fdef field)) "")
         then ainsert name (generate (FieldDef.Generate (fdef field))) props
         else props)
      properties fields.

(** The replacement of one template token [inner] (the text between the
    braces); an unresolved token stays as it is. *)
Definition templateToken (m : Model.t) (field : preparedField) (properties : Item)
    (inner : string) : outcome string :=
  let parts := splitN3 inner in
  let varName := nth 0 parts "" in
  let v := getPropValue properties varName in
  if isNil v then Ok ("${" +:+ inner +:+ "}")
  else
    let s :=
      match v with
      | VTime t =>
          if IsoDates field || Model.table_isoDates m
          then formatRFC3339Nano t
          else pretty (t `div` 1000000)%Z
      | _ => fmtV v
      end in
    match parts with
    | [_; len] => padLeft s "0" (atoi len)
    | [_; len; pad] => padLeft s pad (atoi len)
    | _ => Ok s
    end.

(** [ReplaceAllStringFunc] over the tokens of a template. *)
Fixpoint substitute (m : Model.t) (field : preparedField) (properties : Item)
    (toks : list tok1) : outcome string :=
  match toks with
  | [] => Ok ""
  | T1Chr c :: rest =>
      r ← substitute m field properties rest; Ok (String c r)
  | T1Var inner :: rest =>
      s ← templateToken m field properties inner;
      r ← substitute m field properties rest;
      Ok (s +:+ r)
  end.

(** What [runTemplate] does with the text after substitution. *)
Definition templateResult (op : string) (index : IndexDef.t) (field : preparedField)
    (result : string) : value :=
  match cutAt "${" result with
  | Some (prefix, _) =>
      if streq (att0 field) (IndexDef.Sort index) && streq op "find"
         && negb (streq prefix "")
      then VMap [("begins", VString prefix)]
      else VNil
  | None => VString result
  end.

(** [runTemplate]; its error result is always nil. *)
Definition runTemplate (m : Model.t) (op : string) (index : IndexDef.t)
    (field : preparedField) (properties : Item) (tmpl : string) : outcome value :=
  result ← substitute m field properties (scanVars 0 tmpl);
  Ok (templateResult op index field result).

(** Whether the padding loop of a token ends for every text: the pad is "0"
    unless the token has a third part, which then must not be empty. *)
Definition padSafe (inner : string) : bool :=
  match splitN3 inner with
  | [_; _; pad] => negb (streq pad "")
  | _ => true
  end.

(** The body of the loop of [runTemplates]. *)
Definition templateStep (m : Model.t) (op : string) (index : IndexDef.t)
    (field : preparedField) (props : Item) : outcome Item :=
  if hasBlock field then Ok props
  else if IsIndexed field && negb (streq op "put") && negb (streq op "update")
          && negb (streq (att0 field) (IndexDef.Hash index))
          && negb (streq (att0 field) (IndexDef.Sort index))
  then Ok props
  else if streq (ValueTemplate field) "" then Ok props
  else if ahas (Name field) props then Ok props
  else
    val ← runTemplate m op index field props (ValueTemplate field);
    Ok (if isNil val then props else ainsert (Name field) val props).

(** [runTemplates]. *)
Definition runTemplates (m : Model.t) (op : string) (index : IndexDef.t)
    (deps : list preparedField) (properties : Item) : outcome Item :=
  foldM (templateStep m op index) deps properties.

(** [convertNulls]: the properties and the [Remove] list after the loop. *)
Definition convertNulls (pathname : string) (fields : list (string * preparedField))
    (properties : Item) (params : Params.t) : Item * Params.t :=
  foldl
    (λ (st : Item * Params.t) (entry : string * value),
       let '(props, params) := st in
       let '(name, v) := entry in
       match alookup name fields with
       | None => st
       | Some field =>
           if hasBlock field then st
           else if isNil v && negb (Nulls field) then
             if Required field then st
             else
               let path := if streq pathname "" then name else pathname +:+ "." +:+ name in
               (adelete name props,
                Params.set_Remove (Some (default [] (Params.Remove params) ++ [path])) params)
           else st
       end)
    (properties, params) properties.

Definition badValue (v : value) (name : string) : string :=
  "Bad value " +:+ dq +:+ fmtV v +:+ dq +:+ " for " +:+ dq +:+ name +:+ dq.

(** Whether the [validate] pattern of a field rejects the value: the
    pattern between slashes with its flags, or the bare pattern; a pattern
    that does not compile rejects nothing. *)
Definition patternRejects (pat : string) (v : value) : bool :=
  let s := match v with VString s => s | _ => "" end in
  if isPrefix "/" pat then
    match cutLast "/" pat with
    | Some (String _ inner, flags) =>
        let re := if streq flags "" then inner else "(?" +:+ flags +:+ ")" +:+ inner in
        match regexpMatch re s with Some false => true | _ => false end
    | _ => false
    end
  else match regexpMatch pat s with Some false => true | _ => false end.

(** [validateProperty]: the validation map with the entries of this
    field; its error result is always nil. *)
Definition validateProperty (field : preparedField) (v : value)
    (details : list (string * string)) : list (string * string) :=
  let name := Name field in
  let d1 :=
    if negb (streq (FieldDef.Validate (fdef field)) "")
       && patternRejects (FieldDef.Validate (fdef field)) v
    then ainsert name (badValue v name) details
    else details in
  match FieldDef.Enum (fdef field) with
  | Some enum =>
      if containsStr enum (fmtV v) then d1 else ainsert name (badValue v name) d1
  | None => d1
  end.

Definition notDefined (name : string) : string :=
  "Value not defined for required field " +:+ dq +:+ name +:+ dq.

(** The body of the first loop of [validateProperties], over the properties. *)
Definition valueStep (fields : list (string * preparedField))
    (validation : list (string * string)) (entry : string * value)
    : list (string * string) :=
  let '(name, v) := entry in
  match alookup name fields with
  | None => validation
  | Some field =>
      if hasBlock field then validation
      else if negb (streq (FieldDef.Validate (fdef field)) "")
              || bool_decide (FieldDef.Enum (fdef field) ≠ None)
      then validateProperty field v validation
      else validation
  end.

(** The body of its second loop, the required check over the fields. *)
Definition requiredStep (op : string) (props : Item)
    (validation : list (string * string)) (nf : string * preparedField)
    : list (string * string) :=
  let field := nf.2 in
  if Required field && negb (hasBlock field) then
    let v := aget (Name field) props in
    let present := ahas (Name field) props in
    if streq op "put" && (negb present || isNil v)
    then ainsert (Name field) (notDefined (Name field)) validation
    else if streq op "update" && isNil v && present
    then ainsert (Name field) (notDefined (Name field)) validation
    else validation
  else validation.

(** The validation map [validateProperties] collects. *)
Definition validationOf (op : string) (fields : list (string * preparedField))
    (properties : Item) : list (string * string) :=
  foldl (requiredStep op properties) (foldl (valueStep fields) [] properties) fields.

(** [validateProperties]. *)
Definition validateProperties (m : Model.t) (op : string)
    (fields : list (string * preparedField)) (properties : Item) : outcome unit :=
  if negb (streq op "put") && negb (streq op "update") then Ok ()
  else
    match validationOf op fields properties with
    | [] => Ok ()
    | validation =>
        Err (OneTableError
               ("Validation Error in " +:+ dq +:+ Model.Name m +:+ dq +:+ " for " +:+ dq
                  +:+ joinWith ", " (akeys validation) +:+ dq)
               (Some ErrValidation) (Some validation))
    end.

(** [m.indexes["primary"]], which schema validation guarantees. *)
Definition primaryIndex (m : Model.t) : IndexDef.t :=
  default (IndexDef.mk "" "" "" VNil false) (alookup "primary" (Model.indexes m)).

Definition stringsOf (l : list value) : list string :=
  omap (λ v, match v with VString s => Some s | _ => None end) l.

(** [getProjection]: none stands for the nil slice. *)
Definition getProjection (m : Model.t) (index : IndexDef.t) : option (list string) :=
  let primary := primaryIndex m in
  let keys := [IndexDef.Hash primary; IndexDef.Sort primary;
               IndexDef.Hash index; IndexDef.Sort index] in
  match IndexDef.Project index with
  | VString p =>
      if streq p "all" then None
      else if streq p "keys" then Some (unique keys)
      else None
  | VList p => Some (unique (stringsOf p ++ keys))
  | _ => None
  end.

(** [addProjectedProperties]. *)
Definition addProjectedProperties (m : Model.t) (op : string) (properties : Item)
    (project : option (list string)) (rec : Item) : Item :=
  if negb (Model.generic m) || keysOnlyOp op then rec
  else
    foldl
      (λ (rec : Item) (entry : string * value),
         let '(name, v) := entry in
         if match project with Some pr => negb (containsStr pr name) | None => false end
         then rec
         else if ahas name rec then rec
         else
           match v with
           | VTime t =>
               ainsert name
                 (if Model.table_isoDates m then VString (formatRFC3339Nano t)
                  else VInt64 (t `div` 1000000)%Z) rec
           | _ => ainsert name v rec
           end)
      rec properties.

(** The loop of [selectProperties] over the fields of a block: the record,
    and whether the loop stopped to ask for the fallback. *)
Fixpoint selectFields (m : Model.t) (op : string) (top : bool) (index : IndexDef.t)
    (project : option (list string)) (properties : Item) (params : Params.t)
    (fields : list (string * preparedField)) (rec : Item) : Item * bool :=
  match fields with
  | [] => (rec, false)
  | (name, field) :: rest =>
      if hasBlock field then selectFields m op top index project properties params rest rec
      else
        let att := att0 field in
        if top && isNil (aget name properties) && streq att (IndexDef.Sort index)
           && Params.High params && keysOnlyOp op
        then (rec, true)
        else
          let omit :=
            top &&
            ((keysOnlyOp op && negb (streq att (IndexDef.Hash index))
              && negb (streq att (IndexDef.Sort index)) && negb (Model.hasUniqueFields m))
             || match project with Some pr => negb (containsStr pr att) | None => false end
             || (streq name (Model.typeField m) && negb (streq name (IndexDef.Hash index))
                 && negb (streq name (IndexDef.Sort index)) && streq op "find")
             || negb (isNil (FieldDef.Encode (fdef field)))) in
          let rec' :=
            if omit then rec
            else match alookup name properties with
                 | Some v => ainsert name v rec
                 | None => rec
                 end in
          selectFields m op top index project properties params rest rec'
      end.

(** [selectProperties]; [top] says that the block is the model's own. *)
Definition selectProperties (m : Model.t) (op : string) (block : fieldBlock) (top : bool)
    (index : IndexDef.t) (properties : Item) (params : Params.t) (rec : Item)
    : Item * Params.t :=
  let project := getProjection m index in
  let '(rec', stopped) :=
    selectFields m op top index project properties params (Fields block) rec in
  if stopped then (rec', Params.set_fallback true params)
  else if top then (addProjectedProperties m op properties project rec', params)
  else (rec', params).

(** [transformProperties]. *)
Definition transformProperties (op : string) (fields : list (string * preparedField))
    (rec : Item) : outcome Item :=
  foldM
    (λ (nf : string * preparedField) (rec : Item),
       let '(name, field) := nf in
       if hasBlock field then Ok rec
       else match alookup name rec with
            | None => Ok rec
            | Some v =>
                v' ← transformWriteAttribute op field v;
                Ok (ainsert name v' rec)
            end)
    fields rec.

Definition nilMapPanic : string := "assignment to entry in nil map".

(** A write into a nil map panics: [props] is what a step made of the
    bindings of a map that was nil. *)
Definition guardNil (nilMap : bool) (props : Item) : outcome Item :=
  match nilMap, props with
  | true, _ :: _ => Panic nilMapPanic
  | _, _ => Ok props
  end.

(** [collectProperties], with [collectNested] inside: one schema level.
    [properties] is none for a nil map; the result is the record, the
    bindings of [properties] after the in-place changes, and the
    parameters. [fuel] bounds the nesting of blocks. *)
Fixpoint collectProperties (fuel : nat) (m : Model.t) (op pathname : string)
    (block : fieldBlock) (top : bool) (index : IndexDef.t) (properties : option Item)
    (params : Params.t) (context : option Item)
    : outcome (Item * Item * Params.t) :=
  match fuel with
  | 0 => Panic "block nesting exceeds the bound"
  | S fuel' =>
      let fields := Fields block in
      let nilMap := bool_decide (properties = None) in
      let props0 := default [] properties in
      let context := default (Model.table_context m) context in
      (* collectNested *)
      '(rec1, props1, params1) ←
        (if Model.nested m && negb (keysOnlyOp op) then
           foldM
             (λ (nf : string * preparedField) (st : Item * Item * Params.t),
                let '(rec, props, params) := st in
                let field := nf.2 in
                match Block field with
                | None => Ok st
                | Some sub =>
                    let name := Name field in
                    let value0 := aget name props in
                    let fromInput := negb (isNil value0) in
                    let v :=
                      if streq op "put" && isNil value0 then
                        if Required field then
                          (if bool_decide (FType field = FieldTypeArray)
                           then VList [] else VMap [])
                        else FieldDef.Default (fdef field)
                      else value0 in
                    let ctx2 := match aget name context with
                                | VMap c => Some c | _ => None end in
                    let partial := getPartial m field (Some params) in
                    let keep (obj : Item) :=
                      negb partial || bool_decide (obj ≠ [])
                      || negb (isNil (FieldDef.Default (fdef field))) in
                    let pathOf (p : string) :=
                      if streq pathname "" then p else pathname +:+ "." +:+ p in
                    if isNil v then Ok st
                    else if IsArray field then
                      match v with
                      | VList arr =>
                          '(result, arr', params', _) ←
                            foldM
                              (λ (elem : value)
                                 (acc : list value * list value * Params.t * nat),
                                 let '(result, arr', params, i) := acc in
                                 let path := pathOf (name +:+ "[" +:+ pretty i +:+ "]") in
                                 let elemMap := match elem with
                                                | VMap em => Some em | _ => None end in
                                 '(obj, em', params') ←
                                   collectProperties fuel' m op path sub false index
                                     elemMap params ctx2;
                                 Ok (if keep obj then result ++ [VMap obj] else result,
                                     arr' ++ [match elem with
                                              | VMap _ => VMap em' | _ => elem end],
                                     params', S i))
                              arr ([], [], params, 0);
                          Ok (ainsert name (VList result) rec,
                              if fromInput then ainsert name (VList arr') props else props,
                              params')
                      | _ => Ok st
                      end
                    else
                      let valMap := match v with VMap vm => Some vm | _ => None end in
                      '(obj, vm', params') ←
                        collectProperties fuel' m op (pathOf name) sub false index
                          valMap params ctx2;
                      Ok (if keep obj then ainsert name (VMap obj) rec else rec,
                          match v with
                          | VMap _ => if fromInput then ainsert name (VMap vm') props
                                      else props
                          | _ => props
                          end,
                          params')
                end)
             fields ([], props0, params)
         else Ok ([], props0, params));
      props2 ← guardNil (nilMap && bool_decide (props1 = []))
                 (addContext m op fields index props1 context);
      props3 ← guardNil (nilMap && bool_decide (props2 = []))
                 (setDefaults op fields props2 params1);
      props4 ← runTemplates m op index (Deps block) props3;
      props4 ← guardNil (nilMap && bool_decide (props3 = [])) props4;
      let '(props5, params2) := convertNulls pathname fields props4 params1 in
      _ ← validateProperties m op fields props5;
      let '(rec2, params3) := selectProperties m op block top index props5 params2 rec1 in
      rec3 ← transformProperties op fields rec2;
      Ok (rec3, props5, params3)
  end.

(** What [prepareProperties] returns: the record it built, or the map it was
    given (the same map, not a copy) when the fallback is asked for. *)
Inductive prepared :=
  | PreparedRecord (rec : Item)
  | SameProperties.

(** The first two statements of [prepareProperties]. *)
Definition resetFallback (params : Params.t) : Params.t :=
  Params.set_fallback false
    (Params.set_Batch (option_map (adelete "fallback") (Params.Batch params)) params).

(** The call of [collectProperties] on the block of the model. *)
Definition collectTop (m : Model.t) (op : string) (index : IndexDef.t)
    (properties : Item) (params : Params.t) : outcome (Item * Item * Params.t) :=
  let block := Model.block m in
  collectProperties (blockDepth (length (Fields block) + 1) block + 1) m op ""
    block true index (Some properties) params None.

Definition missingKey (m : Model.t) (op : string) : error :=
  OneTableError
    ("Cannot " +:+ op +:+ " data for " +:+ dq +:+ Model.Name m +:+ dq
       +:+ ". Missing data index key.")
    (Some ErrMissing) None.

(** [prepareProperties]: its result, the bindings of [properties] after the
    call, and the parameters. *)
Definition prepareProperties (m : Model.t) (op : string) (properties : Item)
    (params : Params.t) : outcome (prepared * Item * Params.t) :=
  let params := resetFallback params in
  match selectIndex m (Some params) with
  | None => Panic "invalid memory address or nil pointer dereference"
  | Some index =>
      if needsFallback m op params
      then Ok (SameProperties, properties, Params.set_fallback true params)
      else
        '(rec, props, params') ← collectTop m op index properties params;
        if Params.fallback params' then Ok (SameProperties, props, params')
        else if negb (streq op "scan")
                && isNil (getHashValue m rec (Fields (Model.block m)) index)
        then Err (missingKey m op)
        else Ok (PreparedRecord rec, props, params')
  end.
End Prepare.

(** * Operations

    [model.go]: the operations of a model and the runner, and [Transact]
    and [execute] of [table.go].  An operation works on maps it is given
    by reference, on the shared transaction collector, and on the DynamoDB
    client; the world below holds the three. *)

(** The transaction collector [params.Transaction]: its timestamp and its
    [TransactItems], each an operation name and a command. *)
Record Tx := mkTx {
  txTimestamp : option Z;
  txItems : list (string * Command.t) }.

(** What [execute] is given as [cmd]: a command, with the key the
    pagination loop stored under [ExclusiveStartKey] (an unmarshalled item,
    which the request builders of [table.go] do not read), or a
    transaction. *)
Inductive request :=
  | ReqCommand (cmd : Command.t) (storedKey : option Item)
  | ReqTransaction (tx : Tx).

Record BackendCall := mkCall {
  callModel : string;
  callOp : string;
  callRequest : request }.

(** The output of the client, unmarshalled. *)
Record ClientOut := mkOut {
  outItem : option Item;
  outAttributes : option Item;
  outItems : list Item;
  outCount : Z;
  outScannedCount : Z;
  outLastEvaluatedKey : option Item }.

(** The client returns an output or an error; [RequestError] is an error
    of building the request or of unmarshalling the output. *)
Inductive clientReply :=
  | ClientOk (out : ClientOut)
  | ClientError (msg : string)
  | RequestError (e : error).

(** The result envelope of [execute]. *)
Record Response := mkResponse {
  rItem : option Item;
  rAttributes : option Item;
  rItems : option (list Item);
  rCount : option Z;
  rScannedCount : option Z;
  rLastEvaluatedKey : option Item }.

Definition emptyResponse : Response := mkResponse None None None None None None.

(** What an item operation returns: nil, an item, the command (when it is
    not executed), or the envelope (when it is not parsed). *)
Inductive opResult :=
  | RNil
  | RItem (item : Item)
  | RCommand (cmd : Command.t)
  | RResponse (r : Response).

(** [Result]. *)
Record Result := mkResult {
  Items : list opResult;
  Next : option Item;
  Prev : option Item;
  Count : Z }.

(** Maps are kept by reference: [heap] holds the property maps, [txs] the
    transaction collectors; [calls] is the log of the calls of the client,
    [batched] what [accumulateBatch] appended to the request items of a
    batch. *)
Record World := mkWorld {
  heap : gmap nat Item;
  nextLoc : nat;
  txs : gmap nat Tx;
  nextTx : nat;
  calls : list BackendCall;
  batched : list (string * string * Command.t) }.

(** A computation in the world: its outcome and the world it leaves; the
    world is kept when an error is returned. *)
Definition W (A : Type) : Type := World → outcome A * World.

Definition wbind {A B} (x : W A) (f : A → W B) : W B :=
  λ w, match x w with
       | (Ok a, w') => f a w'
       | (Err e, w') => (Err e, w')
       | (Panic msg, w') => (Panic msg, w')
       | (Hang, w') => (Hang, w')
       end.

Global Instance W_bind : MBind W := λ A B f x, wbind x f.
Definition ret {A} (a : A) : W A := λ w, (Ok a, w).
Global Instance W_ret : MRet W := @ret.

Definition lift {A} (x : outcome A) : W A := λ w, (x, w).
Definition fail {A} (e : error) : W A := lift (Err e).

Definition readMap (r : nat) : W Item := λ w, (Ok (default [] (heap w !! r)), w).

Definition writeMap (r : nat) (item : Item) : W unit :=
  λ w, (Ok (), mkWorld (<[r := item]> (heap w)) (nextLoc w) (txs w) (nextTx w)
                 (calls w) (batched w)).

(** A new map: [Item{}], [make(Item)], or a map literal. *)
Definition newMap (item : Item) : W nat :=
  λ w, (Ok (nextLoc w),
        mkWorld (<[nextLoc w := item]> (heap w)) (S (nextLoc w)) (txs w) (nextTx w)
          (calls w) (batched w)).

Definition readTx (t : nat) : W Tx :=
  λ w, (Ok (default (mkTx None []) (txs w !! t)), w).

Definition writeTx (t : nat) (tx : Tx) : W unit :=
  λ w, (Ok (), mkWorld (heap w) (nextLoc w) (<[t := tx]> (txs w)) (nextTx w)
                 (calls w) (batched w)).

Definition newTx : W nat :=
  λ w, (Ok (nextTx w),
        mkWorld (heap w) (nextLoc w) (<[nextTx w := mkTx None []]> (txs w))
          (S (nextTx w)) (calls w) (batched w)).

Definition logCall (c : BackendCall) : W unit :=
  λ w, (Ok (), mkWorld (heap w) (nextLoc w) (txs w) (nextTx w) (calls w ++ [c])
                 (batched w)).

Definition logBatched (tableName op : string) (cmd : Command.t) : W unit :=
  λ w, (Ok (), mkWorld (heap w) (nextLoc w) (txs w) (nextTx w) (calls w)
                 (batched w ++ [(tableName, op, cmd)])).

Definition getCalls : W (list BackendCall) := λ w, (Ok (calls w), w).

(** ** The table of a model

    The client answers a call knowing the calls before it; [uniqueModel]
    and [modelNamed] are the models of the schema manager;
    [transformReadItem] is the read conversion of an item of [model.go],
    which builds a new map from the item it reads; [unmarshallItem] is
    that of [table.go]; [envelope] is a command or a result envelope seen
    as a map. *)
Class Table := {
  client : list BackendCall → BackendCall → clientReply;
  uniqueModel : Model.t;
  modelNamed : string → option Model.t;
  transformReadItem : Model.t → string → Item → Item → Params.t → Item;
  unmarshallItem : Item → Item;
  envelope : opResult → Item;
}.

Definition uniqueModelName : string := "_Unique".
Definition genericModelName : string := "_Generic".

(** The [Error] method of an error. *)
Definition errorText (e : error) : string :=
  match e with
  | OneTableError msg (Some c) _ | OneTableArgError msg c | OneTableCaused msg c _ =>
      "[" +:+ codeName c +:+ "] " +:+ msg
  | OneTableError msg None _ => msg
  | BackendError msg => msg
  end.

(** [isConditionalFailed]. *)
Definition isConditionalFailed (e : error) : bool :=
  let msg := errorText e in
  contains msg "ConditionalCheckFailed" || contains msg "TransactionCanceledException"
  || contains msg "Transaction Cancelled"
  || match e with
     | OneTableCaused _ _ cause =>
         contains cause "ConditionalCheckFailed"
         || contains cause "TransactionCanceledException"
     | _ => false
     end.

Section Operations.
Context `{GoLib} `{Table}.

(** ** [execute] and [Transact] of [table.go] *)

Definition executeOps : list string :=
  ["get"; "put"; "delete"; "update"; "find"; "scan"; "batchGet"; "batchWrite";
   "transactGet"; "transactWrite"].

(** The envelope [execute] builds from the output of the client. *)
Definition responseOf (op : string) (out : ClientOut) : Response :=
  if streq op "get" then
    mkResponse (outItem out) None None None None None
  else if streq op "put" || streq op "delete" || streq op "update" then
    mkResponse None (outAttributes out) None None None None
  else if streq op "find" then
    mkResponse None None (Some (outItems out)) (Some (outCount out)) None
      (outLastEvaluatedKey out)
  else if streq op "scan" then
    mkResponse None None (Some (outItems out)) (Some (outCount out))
      (Some (outScannedCount out)) (outLastEvaluatedKey out)
  else emptyResponse.

(** The error [execute] returns for an error of the client. *)
Definition executeError (modelName op msg : string) : error :=
  if contains msg "ConditionalCheckFailedException" && streq op "put" then
    OneTableCaused ("Conditional create failed for " +:+ dq +:+ modelName +:+ dq)
      ErrRuntime msg
  else if contains msg "ProvisionedThroughputExceededException" then
    OneTableCaused "Provisioning Throughput Exception" ErrRuntime msg
  else if contains msg "TransactionCanceledException" then
    OneTableCaused "Transaction Cancelled" ErrRuntime msg
  else
    OneTableCaused
      ("OneTable execute failed " +:+ dq +:+ op +:+ dq +:+ " for " +:+ dq +:+ modelName
         +:+ dq +:+ ": " +:+ msg)
      ErrRuntime msg.

(** [execute]: one call of the client. *)
Definition execute (clientSet : bool) (modelName op : string) (req : request)
    (params : Params.t) : W Response :=
  if negb (clientSet || Params.Client params) then
    fail (NewArgError "Table has no DynamoDB client configured")
  else if negb (containsStr executeOps op) then
    fail (NewArgError ("Unknown operation: " +:+ op))
  else
    before ← getCalls;
    let call := mkCall modelName op req in
    _ ← logCall call;
    match client before call with
    | RequestError e => fail e
    | ClientError msg => fail (executeError modelName op msg)
    | ClientOk out => ret (responseOf op out)
    end.

(** [Transact] with the operation "write": its result is not used. *)
Definition transactWrite (clientSet : bool) (t : nat) (params : Params.t) : W unit :=
  if bool_decide (Params.Execute params = Some false) then ret ()
  else
    tx ← readTx t;
    _ ← execute clientSet genericModelName "transactWrite" (ReqTransaction tx) params;
    ret ().

(** ** [checkArgs] *)

Definition pick {A} (own base : option A) : option A :=
  match own with Some _ => own | None => base end.

Definition pickPositive (own base : Z) : Z := if (0 <? own)%Z then own else base.

Definition pickText (own base : string) : string :=
  if streq own "" then base else own.

(** The merge of the caller's parameters into the overrides. *)
Definition mergeParams (params overrides : option Params.t) : Params.t :=
  let b := default Params.zero overrides in
  match params with
  | None => Params.set_checked true b
  | Some p =>
      Params.mk
        (pick (Params.Execute p) (Params.Execute b))
        (pick (Params.Log p) (Params.Log b))
        (Params.Parse p || Params.Parse b)
        (Params.High p || Params.High b)
        (pick (Params.Hidden p) (Params.Hidden b))
        (pick (Params.Partial p) (Params.Partial b))
        (pick (Params.Exists p) (Params.Exists b))
        (pickPositive (Params.Limit p) (Params.Limit b))
        (pick (Params.Next p) (Params.Next b))
        (pick (Params.Prev p) (Params.Prev b))
        (Params.Reverse p || Params.Reverse b)
        (pickPositive (Params.MaxPages p) (Params.MaxPages b))
        (pickText (Params.Index p) (Params.Index b))
        (pick (Params.Fields p) (Params.Fields b))
        (Params.Consistent p || Params.Consistent b)
        (if isNil (Params.Return p) then Params.Return b else Params.Return p)
        (pickText (Params.Where p) (Params.Where b))
        (pick (Params.Set_ p) (Params.Set_ b))
        (pick (Params.Add p) (Params.Add b))
        (pick (Params.Remove p) (Params.Remove b))
        (pick (Params.Delete p) (Params.Delete b))
        (pick (Params.Push p) (Params.Push b))
        (pick (Params.Substitutions p) (Params.Substitutions b))
        (pickPositive (Params.Segments p) (Params.Segments b))
        (pickPositive (Params.Segment p) (Params.Segment b))
        (Params.Count p || Params.Count b)
        (pickText (Params.Select p) (Params.Select b))
        (pick (Params.Stats p) (Params.Stats b))
        (pickText (Params.Capacity p) (Params.Capacity b))
        (pick (Params.Batch p) (Params.Batch b))
        (pick (Params.Transaction p) (Params.Transaction b))
        (pick (Params.Follow p) (Params.Follow b))
        (Params.Many p || Params.Many b)
        true (Params.prepared b) (Params.fallback b) (Params.existsWasSet b)
        (Params.expression b)
        (pick (Params.PostFormat p) (Params.PostFormat b))
        (Params.Client p || Params.Client b)
        (Params.Context p || Params.Context b)
  end.

(** [checkArgs]: parameters that are marked as checked come back with the
    map they came with; otherwise the merged parameters come back with a
    new map that holds the bindings of the given one. *)
Definition checkArgs (properties : nat) (params overrides : option Params.t)
    : W (nat * Params.t) :=
  match params with
  | Some p =>
      if Params.checked p then ret (properties, p)
      else
        props ← readMap properties;
        clone ← newMap props;
        ret (clone, mergeParams params overrides)
  | None =>
      props ← readMap properties;
      clone ← newMap props;
      ret (clone, mergeParams params overrides)
  end.

(** ** Preparation and the builder on a map of the heap *)

(** [prepareProperties] on the map at [properties]: the map is changed in
    place; the result is that same map on the fallback path and a new map
    otherwise. *)
Definition prepareAt (m : Model.t) (op : string) (properties : nat) (params : Params.t)
    : W (nat * Params.t) :=
  props ← readMap properties;
  '(result, props', params') ← lift (prepareProperties m op props params);
  _ ← writeMap properties props';
  match result with
  | SameProperties => ret (properties, params')
  | PreparedRecord rec => r ← newMap rec; ret (r, params')
  end.

(** [newExpression] on the map at [properties], which the builder may
    change in place. *)
Definition expressionAt (m : Model.t) (op : string) (properties : nat) (params : Params.t)
    : W Expression.t :=
  props ← readMap properties;
  e ← lift (newExpression m op props params);
  _ ← writeMap properties (Expression.properties e);
  ret e.

(** ** The runner *)

(** [parseResponse]. *)
Definition parseResponse (m : Model.t) (op : string) (properties : Item)
    (params : Params.t) (raw : list Item) : list Item :=
  let raw := if streq op "put" then [properties] else raw in
  omap
    (λ item,
       let typeName :=
         match aget (Model.typeField m) item with
         | VString s => if streq s "" then Model.Name m else s
         | _ => Model.Name m
         end in
       let mod_ := default m (modelNamed typeName) in
       if streq (Model.Name mod_) (Model.Name uniqueModel) then None
       else Some (transformReadItem mod_ op item properties params))
    raw.

(** [accumulateBatch]. *)
Definition accumulateBatch (m : Model.t) (op : string) (cmd : Command.t) (e : Expression.t)
    : W (opResult * Params.t) :=
  _ ← logBatched (Model.tableName m) op cmd;
  ret (RItem (transformReadItem m op (Expression.properties e) (Expression.properties e)
                 (Expression.params e)),
        Expression.params e).

Definition transactionTop (op : string) : option string :=
  if streq op "delete" then Some "Delete"
  else if streq op "get" then Some "Get"
  else if streq op "put" then Some "Put"
  else if streq op "update" then Some "Update"
  else if streq op "check" then Some "ConditionCheck"
  else None.

(** [accumulateTransaction]. *)
Definition accumulateTransaction (m : Model.t) (op : string) (cmd : Command.t)
    (e : Expression.t) (t : nat) : W (opResult * Params.t) :=
  match transactionTop op with
  | None => fail (NewArgError ("Unknown transaction operation: " +:+ op))
  | Some top =>
      tx ← readTx t;
      _ ← writeTx t (mkTx (txTimestamp tx) (txItems tx ++ [(top, cmd)]));
      let params := Params.set_expression (Some (Expression.properties e))
                      (Expression.params e) in
      ret (RItem (transformReadItem m op (Expression.properties e)
                     (Expression.properties e) params),
            params)
  end.

Definition firstItem (items : list Item) : opResult :=
  match items with
  | [] => RNil
  | item :: _ => RItem item
  end.

(** [run]: the result, and the parameters after the call. *)
Definition run (m : Model.t) (op : string) (e : Expression.t) : W (opResult * Params.t) :=
  let params := Expression.params e in
  cmd ← lift (command e);
  if negb (Expression.execute e) then ret (RCommand cmd, params)
  else if bool_decide (Params.Batch params ≠ None) then accumulateBatch m op cmd e
  else
    match Params.Transaction params with
    | Some t => accumulateTransaction m op cmd e t
    | None =>
        result ← execute (Model.table_client m) (Model.Name m) op (ReqCommand cmd None)
                   params;
        if negb (Params.Parse params) then ret (RResponse result, params)
        else
          let rawItems :=
            if streq op "get" then option_list (rItem result)
            else if streq op "delete" || streq op "update"
            then option_list (rAttributes result)
            else [] in
          ret (firstItem (parseResponse m op (Expression.properties e) params rawItems),
                params)
    end.

(** ** Calls between operations

    [Create], [Get], [Find] and [Remove] call one another (the unique
    sentinels, the fallback of a get, the follow of a find, the removal by
    find); an operation takes the operations it may call as [self]. *)

Inductive call :=
  | CallCreate (m : Model.t) (properties : nat) (params : option Params.t)
  | CallGet (m : Model.t) (properties : nat) (params : option Params.t)
  | CallFind (m : Model.t) (properties : nat) (params : option Params.t)
  | CallRemove (m : Model.t) (properties : nat) (params : option Params.t).

Inductive payload :=
  | PItem (r : opResult)
  | PResult (r : Result).

Definition itemOf (p : payload) : opResult :=
  match p with PItem r => r | PResult _ => RNil end.

Definition resultOf (p : payload) : Result :=
  match p with PResult r => r | PItem _ => mkResult [] None None 0 end.

(** An item result as a map, or nil. *)
Definition asItem (r : opResult) : option Item :=
  match r with
  | RNil => None
  | RItem item => Some item
  | _ => Some (envelope r)
  end.

(** Runs [x] and hands its error, if it returns one, to the caller. *)
Definition try {A} (x : W A) : W (error + A) :=
  λ w, match x w with
       | (Ok a, w') => (Ok (inr a), w')
       | (Err e, w') => (Ok (inl e), w')
       | (Panic msg, w') => (Panic msg, w')
       | (Hang, w') => (Hang, w')
       end.

(** A loop over a list in the world, which stops at the first failure. *)
Fixpoint foldW {A S : Type} (f : A → S → W S) (l : list A) (s : S) : W S :=
  match l with
  | [] => ret s
  | a :: l' => s' ← f a s; foldW f l' s'
  end.

Definition nilDeref : string := "invalid memory address or nil pointer dereference".

(** ** Pagination: [runMulti] *)

Definition sanityPages : Z := 1000.

(** The variables of the loop of [runMulti]. *)
Record Paging := mkPaging {
  pgStoredKey : option Item;
  pgRawItems : list Item;
  pgLastKey : option Item;
  pgTotalCount : Z;
  pgPages : Z;
  pgParams : Params.t }.

(** The statistics after one page. *)
Definition addStats (result : Response) (params : Params.t) : Params.t :=
  match Params.Stats params with
  | None => params
  | Some st =>
      let c := default 0%Z (rCount result) in
      let s := default 0%Z (rScannedCount result) in
      Params.set_Stats
        (Some (mkStats (if (0 <? c)%Z then StCount st + c else StCount st)%Z
                 (if (0 <? s)%Z then StScanned st + s else StScanned st)%Z
                 (StCapacity st)))
        params
  end.

(** One turn of the loop: the variables after it, and whether the loop
    goes on. *)
Definition pageStep (m : Model.t) (op : string) (cmd : Command.t) (maxPages : Z)
    (st : Paging) : W (Paging * bool) :=
  let params := pgParams st in
  result ← execute (Model.table_client m) (Model.Name m) op
             (ReqCommand cmd (pgStoredKey st)) params;
  let rawItems := pgRawItems st ++ default [] (rItems result) in
  let totalCount := (pgTotalCount st + default 0 (rCount result))%Z in
  let params' := addStats result params in
  let hasMore := bool_decide (rLastEvaluatedKey result ≠ None) in
  let storedKey := pick (rLastEvaluatedKey result) (pgStoredKey st) in
  let lastKey := pick (rLastEvaluatedKey result) (pgLastKey st) in
  if (0 <? Params.Limit params)%Z
     && (Params.Limit params <=? Z.of_nat (length rawItems))%Z
  then ret (mkPaging storedKey rawItems lastKey totalCount (pgPages st) params', false)
  else
    let pages := (pgPages st + 1)%Z in
    ret (mkPaging storedKey rawItems lastKey totalCount pages params',
          negb (negb hasMore || (maxPages <=? pages)%Z)).

(** The loop; [turns] is the number of turns the page cap leaves. *)
Fixpoint pageLoop (turns : nat) (m : Model.t) (op : string) (cmd : Command.t)
    (maxPages : Z) (st : Paging) : W Paging :=
  match turns with
  | 0 => lift Hang
  | S turns' =>
      '(st', more) ← pageStep m op cmd maxPages st;
      if (more : bool) then pageLoop turns' m op cmd maxPages st' else ret st'
  end.

Definition pageCap (params : Params.t) : Z :=
  if (Params.MaxPages params =? 0)%Z then sanityPages else Params.MaxPages params.

(** [shouldFollow]. *)
Definition shouldFollow (params : Params.t) (index : IndexDef.t) : bool :=
  default (IndexDef.Follow index) (Params.Follow params).

(** The cursor of the first item. *)
Definition prevCursor (m : Model.t) (params : Params.t) (idx : IndexDef.t) (first : Item)
    : Item :=
  let withSort (i : IndexDef.t) (prev : Item) :=
    if streq (IndexDef.Sort i) "" then prev
    else ainsert (IndexDef.Sort i) (aget (IndexDef.Sort i) first) prev in
  let prev := withSort idx [(IndexDef.Hash idx, aget (IndexDef.Hash idx) first)] in
  if negb (streq (Params.Index params) "") && negb (streq (Params.Index params) "primary")
  then
    let pi := primaryIndex m in
    withSort pi (ainsert (IndexDef.Hash pi) (aget (IndexDef.Hash pi) first) prev)
  else prev.

(** [followItems]: every item is looked up (the Go code does so in
    parallel, here one after the other); the first error is returned
    after all the lookups. *)
Definition followItems (self : call → W (payload * Params.t)) (m : Model.t) (op : string)
    (items : list opResult) (params : Params.t) : W (list opResult) :=
  if negb (streq op "find") then ret items
  else
    let p2 := Params.set_Index "" (Params.set_Follow None params) in
    '(results, failure, _) ←
      foldW
        (λ (item : opResult) (acc : list opResult * option error * Params.t),
           let '(results, failure, p2) := acc in
           r ← newMap (default [] (asItem item));
           got ← try (self (CallGet m r (Some p2)));
           match got with
           | inl e => ret (results, pick failure (Some e), p2)
           | inr (got, p2') =>
               ret (match itemOf got with
                     | RNil => results
                     | found => results ++ [found]
                     end, failure, p2')
           end)
        items ([], None, p2);
    match failure with
    | Some e => fail e
    | None => ret results
    end.

(** [runMulti]. *)
Definition runMulti (self : call → W (payload * Params.t)) (m : Model.t) (op : string)
    (e : Expression.t) : W (Result * Params.t) :=
  let params := Expression.params e in
  cmd ← lift (command e);
  if negb (Expression.execute e) then ret (mkResult [RCommand cmd] None None 0, params)
  else
    let maxPages := pageCap params in
    st ← pageLoop (Z.to_nat (Z.max 1 maxPages)) m op cmd maxPages
           (mkPaging None [] None 0 0 params);
    let params := pgParams st in
    let rawItems := pgRawItems st in
    match selectIndex m (Some params) with
    | None => lift (Panic nilDeref)
    | Some idx =>
        let prev :=
          match rawItems with
          | first :: _ =>
              if bool_decide (Params.Next params ≠ None)
                 || bool_decide (Params.Prev params ≠ None)
              then Some (prevCursor m params idx first)
              else None
          | [] => None
          end in
        let items :=
          if Params.Parse params
          then parseResponse m op (Expression.properties e) params rawItems
          else rawItems in
        let next := option_map unmarshallItem (pgLastKey st) in
        let prev := option_map unmarshallItem prev in
        let count :=
          if Params.Count params || streq (Params.Select params) "COUNT"
          then pgTotalCount st else 0%Z in
        let backward :=
          bool_decide (Params.Prev params ≠ None)
          && bool_decide (Params.Next params = None) && negb (streq op "scan") in
        let items := map RItem (if backward then reverse items else items) in
        let '(next, prev) := if backward then (prev, next) else (next, prev) in
        if shouldFollow params idx then
          items' ← followItems self m op items params;
          ret (mkResult items' next prev count, params)
        else ret (mkResult items next prev count, params)
    end.

(** ** The item operations *)

(** The timestamps [putItem] and [createUnique] write. *)
Definition stampPut (m : Model.t) (now : Z) (props : Item) : Item :=
  let ts := Model.table_timestamps m in
  let props := if tsCreate ts then ainsert (Model.createdField m) (VTime now) props
               else props in
  if tsUpdate ts then ainsert (Model.updatedField m) (VTime now) props else props.

(** [putItem]. *)
Definition putItem (m : Model.t) (properties : nat) (params : option Params.t)
    : W (opResult * Params.t) :=
  '(properties, params) ← checkArgs properties params None;
  '(properties, params) ←
    (if Params.prepared params then ret (properties, params)
     else
       now ← match Params.Transaction params with
             | None => ret timeNow
             | Some t => tx ← readTx t; ret (default timeNow (txTimestamp tx))
             end;
       props ← readMap properties;
       _ ← writeMap properties (stampPut m now props);
       prepareAt m "put" properties params);
  e ← expressionAt m "put" properties params;
  run m "put" e.

(** [getItem]. *)
Definition getItem (m : Model.t) (properties : nat) (params : option Params.t)
    : W (opResult * Params.t) :=
  '(properties, params) ← checkArgs properties params None;
  '(prepared, params) ← prepareAt m "get" properties params;
  e ← expressionAt m "get" prepared params;
  run m "get" e.

(** [deleteItem]. *)
Definition deleteItem (m : Model.t) (properties : nat) (params : option Params.t)
    : W (opResult * Params.t) :=
  '(properties, params) ← checkArgs properties params None;
  '(properties, params) ←
    (if Params.prepared params then ret (properties, params)
     else prepareAt m "delete" properties params);
  e ← expressionAt m "delete" properties params;
  run m "delete" e.

(** [queryItems] and [scanItems]. *)
Definition queryItems (self : call → W (payload * Params.t)) (m : Model.t)
    (properties : nat) (params : option Params.t) : W (Result * Params.t) :=
  '(properties, params) ← checkArgs properties params None;
  '(prepared, params) ← prepareAt m "find" properties params;
  e ← expressionAt m "find" prepared params;
  runMulti self m "find" e.

Definition scanItems (self : call → W (payload * Params.t)) (m : Model.t)
    (properties : nat) (params : option Params.t) : W (Result * Params.t) :=
  '(properties, params) ← checkArgs properties params None;
  '(prepared, params) ← prepareAt m "scan" properties params;
  e ← expressionAt m "scan" prepared params;
  runMulti self m "scan" e.

(** The text [updateItem] stores under the created field of [params.Set]. *)
Definition createdIfNotExists (m : Model.t) (now : Z) : string :=
  let when := if Model.table_isoDates m then formatRFC3339Nano now
              else pretty (now `div` 1000000)%Z in
  "if_not_exists(${" +:+ Model.createdField m +:+ "}, {" +:+ when +:+ "})".

(** The timestamps of [updateItem]: the updated field of the properties,
    and on an upsert the created field through [params.Set]. *)
Definition stampUpdate (m : Model.t) (properties : nat) (params : Params.t)
    : W Params.t :=
  let ts := Model.table_timestamps m in
  if tsUpdate ts then
    now ← match Params.Transaction params with
          | Some t =>
              tx ← readTx t;
              match txTimestamp tx with
              | Some stamp => ret stamp
              | None => _ ← writeTx t (mkTx (Some timeNow) (txItems tx)); ret timeNow
              end
          | None => ret timeNow
          end;
    props ← readMap properties;
    _ ← writeMap properties (ainsert (Model.updatedField m) (VTime now) props);
    if bool_decide (Params.Exists params = None)
       && match ts with TsTrue => true | _ => false end
    then ret (Params.set_Set_
                (Some (ainsert (Model.createdField m) (createdIfNotExists m now)
                         (default [] (Params.Set_ params))))
                params)
    else ret params
  else ret params.

(** [updateItem]. *)
Definition updateItem (m : Model.t) (properties : nat) (params : option Params.t)
    : W (opResult * Params.t) :=
  '(properties, params) ← checkArgs properties params None;
  params ← stampUpdate m properties params;
  '(prepared, params) ← prepareAt m "update" properties params;
  e ← expressionAt m "update" prepared params;
  run m "update" e.

(** [initItem]: the result is the map it was given. *)
Definition initItem (m : Model.t) (properties : nat) (params : Params.t)
    : W (opResult * Params.t) :=
  let fields := Fields (Model.block m) in
  props ← readMap properties;
  let props := setDefaults "init" fields props params in
  let props := foldl (λ (props : Item) (nf : string * preparedField),
                        if ahas nf.1 props then props else ainsert nf.1 VNil props)
                 props fields in
  _ ← writeMap properties props;
  props ← lift (runTemplates m "put" (primaryIndex m) (Deps (Model.block m)) props);
  _ ← writeMap properties props;
  ret (RItem props, params).

(** ** The unique sentinels *)

(** The fields that are unique and no attribute of the primary key. *)
Definition uniqueFields (m : Model.t) : list preparedField :=
  let primary := primaryIndex m in
  filter (λ f, FieldDef.Unique (fdef f) = true
               ∧ att0 f ≠ IndexDef.Hash primary ∧ att0 f ≠ IndexDef.Sort primary)
    (Fields (Model.block m)).*2.

Definition sentinelHash (m : Model.t) (field : preparedField) (v : value) : string :=
  "_unique#" +:+ Model.Name m +:+ "#" +:+ att0 field +:+ "#" +:+ fmtV v.

Definition sentinelSort : string := "_unique#".

(** The key of a sentinel: [Item{primary.Hash: pk, primary.Sort: sk}]. *)
Definition sentinelKey (m : Model.t) (field : preparedField) (v : value) : Item :=
  let primary := primaryIndex m in
  ainsert (IndexDef.Sort primary) (VString sentinelSort)
    [(IndexDef.Hash primary, VString (sentinelHash m field v))].

(** [&Params{Transaction: t, Exists: boolPtr(false), Return: "NONE"}]. *)
Definition sentinelParams (t : nat) : Params.t :=
  Params.set_Transaction (Some t)
    (Params.set_Exists (Some false) (Params.set_Return (VString "NONE") Params.zero)).

Definition uniqueError (m : Model.t) : error :=
  OneTableError
    ("Cannot create unique attributes " +:+ dq
       +:+ joinWith ", " (map Name (uniqueFields m)) +:+ dq +:+ " for " +:+ dq
       +:+ Model.Name m +:+ dq +:+ ". An item of the same name already exists.")
    (Some ErrUnique) None.

(** The transaction of the parameters, opened when there is none. *)
Definition openTransaction (params : Params.t) : W (nat * Params.t) :=
  match Params.Transaction params with
  | Some t => ret (t, params)
  | None => t ← newTx; ret (t, Params.set_Transaction (Some t) params)
  end.

(** [createUnique]. *)
Definition createUnique (self : call → W (payload * Params.t)) (m : Model.t)
    (properties : nat) (params : Params.t) : W (opResult * Params.t) :=
  let transactHere := bool_decide (Params.Transaction params = None) in
  '(t, params) ← openTransaction params;
  let now := timeNow in
  tx ← readTx t;
  _ ← writeTx t (mkTx (Some now) (txItems tx));
  props ← readMap properties;
  _ ← writeMap properties (stampPut m now props);
  '(properties, params) ← prepareAt m "put" properties params;
  let params := Params.set_prepared true params in
  props ← readMap properties;
  _ ← foldW
        (λ (field : preparedField) (_ : unit),
           if isNil (aget (Name field) props) then ret ()
           else
             up ← newMap (sentinelKey m field (aget (Name field) props));
             _ ← self (CallCreate uniqueModel up (Some (sentinelParams t)));
             ret ())
        (uniqueFields m) ();
  '(item, params) ← putItem m properties (Some params);
  if negb transactHere then ret (item, params)
  else
    committed ← try (transactWrite (Model.table_client m) t params);
    match committed with
    | inl e => if isConditionalFailed e then fail (uniqueError m) else fail e
    | inr _ =>
        match Params.expression params with
        | None => lift (Panic nilDeref)
        | Some stored => ret (firstItem (parseResponse m "put" stored params []), params)
        end
    end.

(** [Item{primary.Hash: properties[primary.Hash]}], with the sort key when
    the index has one. *)
Definition primaryKeys (m : Model.t) (props : Item) : Item :=
  let primary := primaryIndex m in
  let keys := [(IndexDef.Hash primary, aget (IndexDef.Hash primary) props)] in
  if streq (IndexDef.Sort primary) "" then keys
  else ainsert (IndexDef.Sort primary) (aget (IndexDef.Sort primary) props) keys.

(** The item a get with [&Params{Hidden: boolPtr(true)}] finds for the
    keys of [props], prepared for an update when there is one. *)
Definition priorItem (self : call → W (payload * Params.t)) (m : Model.t) (props : Item)
    (missing : W unit) : W (option Item) :=
  keys ← newMap (primaryKeys m props);
  '(found, _) ← self (CallGet m keys (Some (Params.set_Hidden (Some true) Params.zero)));
  match asItem (itemOf found) with
  | None => _ ← missing; ret None
  | Some prior =>
      r ← newMap prior;
      '(r', _) ← prepareAt m "update" r Params.zero;
      prior' ← readMap r';
      ret (Some prior')
  end.

(** [removeUnique]. *)
Definition removeUnique (self : call → W (payload * Params.t)) (m : Model.t)
    (properties : nat) (params : Params.t) : W (opResult * Params.t) :=
  let transactHere := bool_decide (Params.Transaction params = None) in
  '(t, params) ← openTransaction params;
  let params := Params.set_prepared true params in
  '(properties, params) ← prepareAt m "delete" properties params;
  props ← readMap properties;
  prior ← priorItem self m props
            (if bool_decide (Params.Exists params ≠ Some false)
             then fail (OneTableError "Cannot find existing item to remove"
                          (Some ErrNotFound) None)
             else ret ());
  _ ← foldW
        (λ (field : preparedField) (_ : unit),
           match prior with
           | None => ret ()
           | Some prior =>
               if isNil (aget (Name field) prior) then ret ()
               else
                 key ← newMap (sentinelKey m field (aget (Name field) prior));
                 _ ← self (CallRemove uniqueModel key
                             (Some (Params.set_Transaction (Some t) Params.zero)));
                 ret ()
           end)
        (uniqueFields m) ();
  '(removed, params) ← deleteItem m properties (Some params);
  if transactHere then
    _ ← transactWrite (Model.table_client m) t params;
    ret (removed, params)
  else ret (removed, params).

(** One turn of the loop of [updateUnique] over the fields; the errors of
    the sentinel calls are dropped. *)
Definition moveSentinel (self : call → W (payload * Params.t)) (m : Model.t)
    (props : Item) (prior : option Item) (params : Params.t) (t : nat)
    (field : preparedField) : W unit :=
  let primary := primaryIndex m in
  if negb (FieldDef.Unique (fdef field)) || streq (att0 field) (IndexDef.Hash primary)
     || streq (att0 field) (IndexDef.Sort primary)
  then ret ()
  else
    let toBeRemoved := containsStr (default [] (Params.Remove params)) (Name field) in
    let newVal := aget (Name field) props in
    let priorVal := match prior with Some p => aget (Name field) p | None => VNil end in
    if isNil newVal && negb toBeRemoved then ret ()
    else if streq (fmtV newVal) (fmtV priorVal) then ret ()
    else
      let create :=
        if negb (isNil newVal) && negb toBeRemoved then
          up ← newMap (sentinelKey m field newVal);
          _ ← try (self (CallCreate uniqueModel up (Some (sentinelParams t))));
          ret ()
        else ret () in
      if bool_decide (prior ≠ None) && negb (isNil priorVal) then
        if negb (isNil newVal)
           && streq (sentinelHash m field priorVal) (sentinelHash m field newVal)
        then ret ()
        else
          key ← newMap (sentinelKey m field priorVal);
          _ ← try (self (CallRemove uniqueModel key
                           (Some (Params.set_Transaction (Some t) Params.zero))));
          create
      else create.

(** [updateUnique]. *)
Definition updateUnique (self : call → W (payload * Params.t)) (m : Model.t)
    (properties : nat) (params : Params.t) : W (opResult * Params.t) :=
  let transactHere := bool_decide (Params.Transaction params = None) in
  '(t, params) ← openTransaction params;
  '(properties, params) ← prepareAt m "update" properties params;
  let params := Params.set_prepared true params in
  props ← readMap properties;
  prior ← priorItem self m props
            (if bool_decide (Params.Exists params = Some true)
             then fail (OneTableError "Cannot find existing item to update"
                          (Some ErrNotFound) None)
             else ret ());
  _ ← foldW (λ (nf : string * preparedField) (_ : unit),
               moveSentinel self m props prior params t nf.2)
        (Fields (Model.block m)) ();
  '(item, params) ← updateItem m properties (Some params);
  if negb transactHere then ret (item, params)
  else
    committed ← try (transactWrite (Model.table_client m) t params);
    match committed with
    | inl e =>
        if isConditionalFailed e
        then fail (OneTableError
                     ("Cannot update unique attributes for " +:+ dq +:+ Model.Name m
                        +:+ dq)
                     (Some ErrUnique) None)
        else fail e
    | inr _ => ret (item, params)
    end.

(** ** The public operations *)

Definition highLevel : Params.t := Params.set_High true (Params.set_Parse true Params.zero).

(** [Create]. *)
Definition Create_ (self : call → W (payload * Params.t)) (m : Model.t)
    (properties : nat) (params : option Params.t) : W (opResult * Params.t) :=
  '(properties, params) ←
    checkArgs properties params (Some (Params.set_Exists (Some false) highLevel));
  if Model.hasUniqueFields m then createUnique self m properties params
  else putItem m properties (Some params).

(** [Find] and [Scan]. *)
Definition Find_ (self : call → W (payload * Params.t)) (m : Model.t)
    (properties : nat) (params : option Params.t) : W (Result * Params.t) :=
  '(properties, params) ← checkArgs properties params (Some highLevel);
  queryItems self m properties (Some params).

Definition Scan_ (self : call → W (payload * Params.t)) (m : Model.t)
    (properties : nat) (params : option Params.t) : W (Result * Params.t) :=
  '(properties, params) ← checkArgs properties params (Some highLevel);
  scanItems self m properties (Some params).

(** [Get]. *)
Definition Get_ (self : call → W (payload * Params.t)) (m : Model.t)
    (properties : nat) (params : option Params.t) : W (opResult * Params.t) :=
  '(properties, params) ← checkArgs properties params (Some highLevel);
  '(prepared, params) ← prepareAt m "get" properties params;
  if Params.fallback params then
    let params := Params.set_Limit 2%Z params in
    '(found, params) ← self (CallFind m properties (Some params));
    match Items (resultOf found) with
    | [] => ret (RNil, params)
    | [item] => ret (item, params)
    | _ => fail (OneTableError "Get without sort key returns more than one result"
                   (Some ErrNonUnique) None)
    end
  else
    e ← expressionAt m "get" prepared params;
    run m "get" e.

(** Whether the properties bind a unique field. *)
Definition bindsUnique (m : Model.t) (props : Item) : bool :=
  existsb (λ k, match alookup k (Fields (Model.block m)) with
                | Some f => FieldDef.Unique (fdef f)
                | None => false
                end)
    (akeys props).

(** [Update] and [Upsert]. *)
Definition updateWith (self : call → W (payload * Params.t)) (m : Model.t)
    (properties : nat) (params : option Params.t) (overrides : Params.t)
    : W (opResult * Params.t) :=
  '(properties, params) ← checkArgs properties params (Some overrides);
  props ← readMap properties;
  if Model.hasUniqueFields m && bindsUnique m props
  then updateUnique self m properties params
  else updateItem m properties (Some params).

Definition Update_ (self : call → W (payload * Params.t)) (m : Model.t)
    (properties : nat) (params : option Params.t) : W (opResult * Params.t) :=
  updateWith self m properties params (Params.set_Exists (Some true) highLevel).

Definition Upsert_ (self : call → W (payload * Params.t)) (m : Model.t)
    (properties : nat) (params : option Params.t) : W (opResult * Params.t) :=
  updateWith self m properties (Some (default Params.zero params)) highLevel.

(** [removeByFind]. *)
Definition removeByFind (self : call → W (payload * Params.t)) (m : Model.t)
    (properties : nat) (params : Params.t) : W (opResult * Params.t) :=
  let findParams := Params.set_Parse true params in
  '(found, _) ← self (CallFind m properties (Some findParams));
  let items := Items (resultOf found) in
  if (1 <? length items) && negb (Params.Many params) then
    fail (OneTableError
            ("Removing multiple items from " +:+ dq +:+ Model.Name m +:+ dq
               +:+ ". Use many:true to enable.")
            (Some ErrNonUnique) None)
  else
    last ← foldW
             (λ (item : opResult) (_ : opResult),
                r ← newMap (default [] (asItem item));
                if Model.hasUniqueFields m then
                  '(removed, _) ←
                    removeUnique self m r
                      (Params.set_Transaction (Params.Transaction params) Params.zero);
                  ret removed
                else
                  '(removed, _) ←
                    self (CallRemove m r
                            (Some (Params.set_Transaction (Params.Transaction params)
                                     (Params.set_Return (Params.Return params)
                                        Params.zero))));
                  ret (itemOf removed))
             items RNil;
    ret (last, params).

(** [Remove]. *)
Definition Remove_ (self : call → W (payload * Params.t)) (m : Model.t)
    (properties : nat) (params : option Params.t) : W (opResult * Params.t) :=
  '(properties, params) ← checkArgs properties params (Some highLevel);
  '(prepared, params) ← prepareAt m "delete" properties params;
  if Params.fallback params || Params.Many params then removeByFind self m prepared params
  else if Model.hasUniqueFields m then removeUnique self m prepared params
  else
    e ← expressionAt m "delete" prepared params;
    run m "delete" e.

(** [Init]. *)
Definition Init (m : Model.t) (properties : nat) (params : option Params.t)
    : W (opResult * Params.t) :=
  '(properties, params) ← checkArgs properties params (Some highLevel);
  initItem m properties params.

(** The operations an operation calls, [depth] calls deep. *)
Fixpoint dispatch (depth : nat) (c : call) : W (payload * Params.t) :=
  match depth with
  | 0 => lift Hang
  | S depth' =>
      let self := dispatch depth' in
      match c with
      | CallCreate m properties params =>
          '(r, p) ← Create_ self m properties params; ret (PItem r, p)
      | CallGet m properties params =>
          '(r, p) ← Get_ self m properties params; ret (PItem r, p)
      | CallFind m properties params =>
          '(r, p) ← Find_ self m properties params; ret (PResult r, p)
      | CallRemove m properties params =>
          '(r, p) ← Remove_ self m properties params; ret (PItem r, p)
      end
  end.

Definition Create (depth : nat) := Create_ (dispatch depth).
Definition Get (depth : nat) := Get_ (dispatch depth).
Definition Find (depth : nat) := Find_ (dispatch depth).
Definition Scan (depth : nat) := Scan_ (dispatch depth).
Definition Update (depth : nat) := Update_ (dispatch depth).
Definition Upsert (depth : nat) := Upsert_ (dispatch depth).
Definition Remove (depth : nat) := Remove_ (dispatch depth).

End Operations.

(** ** A worked schema

    A library instance with simple stand-ins for the Go libraries, and a
    small user model: a primary index on [pk]/[sk], a secondary index
    [gs1], key templates, a unique [email] and an enumerated [status]. *)

Fixpoint digitsValue (s : string) (acc : Z) : Z :=
  match s with
  | EmptyString => acc
  | String c s' =>
      let n := Z.of_nat (nat_of_ascii c) in
      if ((48 <=? n) && (n <=? 57))%Z then digitsValue s' (acc * 10 + (n - 48))%Z
      else 0%Z
  end.

Fixpoint encodeValue (v : value) : AttributeValue :=
  match v with
  | VNil => AvNULL
  | VString s => AvS s
  | VBool b => AvBOOL b
  | VInt n | VInt64 n | VFloat64 n | VTime n => AvN (pretty n)
  | VBytes b => AvB b
  | VList l => AvL (map encodeValue l)
  | VMap m => AvM (map (λ kv, (kv.1, encodeValue kv.2)) m)
  end.

Definition exampleLib : GoLib := {|
  fmtExt := λ _, "?";
  parseFloat := λ _, None;
  regexpMatch := λ pat s, Some (contains s pat);
  atoi := λ s, digitsValue s 0;
  strconvQuote := λ s, dq +:+ s +:+ dq;
  formatRFC3339Nano := λ t, pretty t;
  generate := λ _, VString "01HX";
  marshalValue := λ v, Some (encodeValue v);
  timeNow := 1700000000000000000;
  transformWriteAttribute := λ _ _ v, Ok v;
|}.

Definition examplePrimary : IndexDef.t := IndexDef.mk "pk" "sk" "" VNil false.
Definition exampleGs1 : IndexDef.t := IndexDef.mk "gs1pk" "gs1sk" "" (VString "all") false.

Definition exampleField (name : string) (def : FieldDef.t) (indexed primary hidden
    required : bool) (template : string) : preparedField :=
  PreparedField name (Some def) FieldTypeString [name] indexed primary hidden required
    false false None template None false.

Definition fPk : preparedField :=
  exampleField "pk" FieldDef.zero true true true true "user#${id}".
Definition fSk : preparedField :=
  exampleField "sk" FieldDef.zero true true true true "user#".
Definition fId : preparedField :=
  exampleField "id" FieldDef.zero false false false true "".
Definition fEmail : preparedField :=
  exampleField "email"
    (FieldDef.mk VNil "" "@" None VNil false true false None) false false false true "".
Definition fName : preparedField :=
  exampleField "name" FieldDef.zero false false false false "".
Definition fStatus : preparedField :=
  exampleField "status"
    (FieldDef.mk VNil "" "" (Some ["active"; "inactive"]) VNil false false false None)
    false false false false "".
Definition fGs1pk : preparedField :=
  exampleField "gs1pk" FieldDef.zero true false true false "mail#${email}".
Definition fGs1sk : preparedField :=
  exampleField "gs1sk" FieldDef.zero true false true false "user#${name}".
Definition fType : preparedField :=
  exampleField "_type" FieldDef.zero false false true true "".

Definition exampleFields : list preparedField :=
  [fPk; fSk; fId; fEmail; fName; fStatus; fGs1pk; fGs1sk; fType].

Definition exampleBlock : fieldBlock :=
  FieldBlock (map (λ f, (Name f, f)) exampleFields) exampleFields.

Definition exampleModel : Model.t :=
  Model.mk "User" "_type" "created" "updated" "app" false false false exampleBlock []
    [("primary", examplePrimary); ("gs1", exampleGs1)] true true [] TsOff false false.

(** The user model with a nested [address] schema whose [city] is required. *)
Definition fCity : preparedField :=
  exampleField "city" FieldDef.zero false false false true "".

Definition fAddress : preparedField :=
  PreparedField "address" (Some FieldDef.zero) FieldTypeObject ["address"] false false
    false false false false None "" (Some (FieldBlock [("city", fCity)] [fCity])) false.

Definition nestedFields : list preparedField := exampleFields ++ [fAddress].

Definition nestedModel : Model.t :=
  Model.mk "User" "_type" "created" "updated" "app" false true false
    (FieldBlock (map (λ f, (Name f, f)) nestedFields) nestedFields) []
    [("primary", examplePrimary); ("gs1", exampleGs1)] true true [] TsOff false false.

Definition exampleUser : Item :=
  [("id", VString "42"); ("email", VString "ann@example.com"); ("name", VString "Ann");
   ("status", VString "active")].

(** The unique model of the table of the user model, and a table whose
    client finds nothing and accepts every write. *)
Definition exampleUniqueModel : Model.t :=
  let fields := [fPk; fSk; fType] in
  let plain (f : preparedField) :=
    PreparedField (Name f) (Some FieldDef.zero) FieldTypeString [Name f] (IsIndexed f)
      (IsPrimary f) (Hidden f) (Required f) false false None "" None false in
  Model.mk "_Unique" "_type" "created" "updated" "app" false false false
    (FieldBlock (map (λ f, (Name f, plain f)) fields) (map plain fields)) []
    [("primary", examplePrimary); ("gs1", exampleGs1)] false true [] TsOff false false.

Definition exampleTable : Table := {|
  client := λ _ _, ClientOk (mkOut None None [] 0 0 None);
  uniqueModel := exampleUniqueModel;
  modelNamed := λ name, if streq name "User" then Some exampleModel
                        else if streq name "_Unique" then Some exampleUniqueModel
                        else None;
  transformReadItem := λ _ _ raw _ _, raw;
  unmarshallItem := λ item, item;
  envelope := λ _, [];
|}.

(** A world in which the caller holds the user at the map 0. *)
Definition exampleWorld : World := mkWorld {[0 := exampleUser]} 1 ∅ 0 [] [].

(** A table whose client cancels every transaction. *)
Definition cancellingTable : Table := {|
  client := λ _ c, if streq (callOp c) "transactWrite"
                   then ClientError "TransactionCanceledException: ConditionalCheckFailed"
                   else ClientOk (mkOut None None [] 0 0 None);
  uniqueModel := exampleUniqueModel;
  modelNamed := λ name, if streq name "User" then Some exampleModel
                        else if streq name "_Unique" then Some exampleUniqueModel
                        else None;
  transformReadItem := λ _ _ raw _ _, raw;
  unmarshallItem := λ item, item;
  envelope := λ _, [];
|}.

(** * Properties *)

Section AssocFacts.
Context {V : Type}.
Implicit Types m : list (string * V).

Lemma alookup_ainsert_eq k (v : V) m : alookup k (ainsert k v m) = Some v.
Proof.
  induction m as [|[k' v'] m IH]; simpl.
  - by rewrite decide_True.
  - destruct (decide (k' = k)) as [->|Hne]; simpl.
    + by rewrite decide_True.
    + by rewrite decide_False.
Qed.

Lemma alookup_ainsert_ne k k' (v : V) m :
  k ≠ k' → alookup k' (ainsert k v m) = alookup k' m.
Proof.
  intros Hne. induction m as [|[k0 v0] m IH]; simpl.
  - by rewrite decide_False.
  - destruct (decide (k0 = k)) as [->|Hne0]; simpl.
    + by rewrite !decide_False.
    + destruct (decide (k0 = k')); [done|apply IH].
Qed.

Lemma alookup_adelete_eq k m : alookup k (adelete k m) = None.
Proof.
  induction m as [|[k' v'] m IH]; simpl; [done|].
  destruct (decide (k' = k)); simpl; [done|]. by rewrite decide_False.
Qed.

Lemma alookup_adelete_ne k k' m :
  k ≠ k' → alookup k' (adelete k m) = alookup k' m.
Proof.
  intros Hne. induction m as [|[k0 v0] m IH]; simpl; [done|].
  destruct (decide (k0 = k)) as [->|Hne0]; simpl.
  - by rewrite decide_False.
  - by destruct (decide (k0 = k')).
Qed.

Lemma alookup_Some_elem k (v : V) m : alookup k m = Some v → (k, v) ∈ m.
Proof.
  induction m as [|[k' v'] m IH]; simpl; [done|].
  destruct (decide (k' = k)) as [->|]; intros Hl.
  - injection Hl as ->. left.
  - right. by apply IH.
Qed.

Lemma alookup_None_keys k m : alookup k m = None ↔ k ∉ akeys m.
Proof.
  unfold akeys. induction m as [|[k' v'] m IH]; simpl.
  - split; [intros _; apply not_elem_of_nil|done].
  - rewrite not_elem_of_cons. destruct (decide (k' = k)) as [->|Hne].
    + split; [done|intros [? _]; done].
    + rewrite IH. split; [by intros ?; split|by intros [_ ?]].
Qed.

Lemma ahas_true k m : ahas k m = true ↔ is_Some (alookup k m).
Proof.
  unfold ahas. destruct (alookup k m); split; try done; eauto.
Qed.
End AssocFacts.

Lemma streq_true a b : streq a b = true ↔ a = b.
Proof. unfold streq. apply bool_decide_eq_true. Qed.

Lemma streq_false a b : streq a b = false ↔ a ≠ b.
Proof. unfold streq. apply bool_decide_eq_false. Qed.

Lemma streq_refl a : streq a a = true.
Proof. by apply streq_true. Qed.

Lemma nameKey_inj i j : nameKey i = nameKey j → i = j.
Proof. unfold nameKey. intros Hk. simplify_eq/=. by apply (inj pretty). Qed.

Lemma valueKey_inj i j : valueKey i = valueKey j → i = j.
Proof. unfold valueKey. intros Hk. simplify_eq/=. by apply (inj pretty). Qed.

Section Proofs.
Context `{GoLib}.

#[local] Arguments isPrefix : simpl never.
#[local] Arguments containsAny : simpl never.
#[local] Arguments cutAt : simpl never.
#[local] Arguments addName : simpl never.
#[local] Arguments addValue : simpl never.
#[local] Arguments newValue : simpl never.
#[local] Arguments addValueExp : simpl never.
#[local] Arguments makeTarget : simpl never.
#[local] Arguments prepareKey : simpl never.
#[local] Arguments prepareKeyValue : simpl never.
#[local] Arguments expand : simpl never.
#[local] Arguments expandSub : simpl never.

(** ** Index selection *)

Lemma selectIndex_primary_when_missing (m : Model.t) (p : Params.t) :
  alookup (Params.Index p) (Model.indexes m) = None →
  selectIndex m (Some p) = alookup "primary" (Model.indexes m).
Proof.
  intros Hnone. unfold selectIndex. rewrite Hnone.
  by destruct (negb _ && negb _).
Qed.

Lemma selectIndexName_primary_when_missing (m : Model.t) (p : Params.t) :
  alookup (Params.Index p) (Model.indexes m) = None →
  selectIndexName m (Some p) = "primary".
Proof.
  intros Hnone. unfold selectIndexName, ahas. rewrite Hnone.
  by rewrite andb_false_r.
Qed.

(** C10: when [params.Index] names no index of the model, index selection
    raises nothing and returns the primary index, and the expression the
    builder initialises works on the primary index's hash and sort
    attributes. *)
Theorem selectIndex_unknown_uses_primary
    (m : Model.t) (p : Params.t) (primary : IndexDef.t) (op : string) (props : Item) :
  alookup (Params.Index p) (Model.indexes m) = None →
  alookup "primary" (Model.indexes m) = Some primary →
  selectIndex m (Some p) = Some primary
  ∧ selectIndexName m (Some p) = "primary"
  ∧ (Model.table_client m = true →
     ∃ e, init m op props p = Ok e
          ∧ Expression.index e = primary
          ∧ Expression.hash e = IndexDef.Hash primary
          ∧ Expression.sort e = IndexDef.Sort primary).
Proof.
  intros Hnone Hprim.
  assert (Hsel : selectIndex m (Some p) = Some primary)
    by (by rewrite selectIndex_primary_when_missing).
  split; [done|]. split; [by apply selectIndexName_primary_when_missing|].
  intros Hclient. unfold init. rewrite Hsel, Hclient. eauto.
Qed.

(** ** The placeholder tables: [addName] and [addValue] *)

(** Every index in a de-duplication map is below its counter. *)
Definition tablesOk (e : Expression.t) : Prop :=
  (∀ n i, Expression.namesMap e !! n = Some i → i < Expression.nindex e)
  ∧ (∀ k i, Expression.valuesMap e !! k = Some i → i < Expression.vindex e).

Lemma addName_hit n i e :
  Expression.namesMap e !! n = Some i → addName n e = (i, e).
Proof. intros Hl. unfold addName. by rewrite Hl. Qed.

Lemma addName_records n e :
  Expression.namesMap (addName n e).2 !! n = Some (addName n e).1.
Proof.
  unfold addName. destruct (Expression.namesMap e !! n) eqn:Hl; simpl; [done|].
  by rewrite lookup_insert_eq.
Qed.

Lemma addValue_hit v i e :
  dedupable v = true → Expression.valuesMap e !! fmtV v = Some i →
  addValue v e = (i, e).
Proof.
  unfold dedupable, addValue. intros -> Hl. by rewrite Hl.
Qed.

Lemma addValue_records v e :
  dedupable v = true →
  Expression.valuesMap (addValue v e).2 !! fmtV v = Some (addValue v e).1.
Proof.
  unfold dedupable, addValue. intros ->.
  destruct (Expression.valuesMap e !! fmtV v) eqn:Hl; simpl; [done|].
  by rewrite lookup_insert_eq.
Qed.

Lemma addValue_fresh v e :
  dedupable v = false →
  addValue v e = newValue v e.
Proof. unfold dedupable, addValue. by intros ->. Qed.

Lemma doCall_namesMap_mono c e n i :
  Expression.namesMap e !! n = Some i →
  Expression.namesMap (doCall c e).2 !! n = Some i.
Proof.
  intros Hl. destruct c as [n'|v]; simpl.
  - unfold addName. destruct (Expression.namesMap e !! n') eqn:Hl'; simpl; [done|].
    rewrite lookup_insert_ne; [done|]. intros ->. congruence.
  - unfold addValue, newValue.
    destruct (negb (isNil v) && negb (noDedup v)); simpl; [|done].
    by destruct (Expression.valuesMap e !! fmtV v).
Qed.

Lemma doCall_valuesMap_mono c e k i :
  Expression.valuesMap e !! k = Some i →
  Expression.valuesMap (doCall c e).2 !! k = Some i.
Proof.
  intros Hl. destruct c as [n'|v]; simpl.
  - unfold addName. by destruct (Expression.namesMap e !! n').
  - unfold addValue, newValue.
    destruct (negb (isNil v) && negb (noDedup v)); simpl; [|done].
    destruct (Expression.valuesMap e !! fmtV v) eqn:Hl'; simpl; [done|].
    rewrite lookup_insert_ne; [done|]. intros ?. simplify_eq.
Qed.

Lemma doCall_counters c e :
  Expression.nindex e ≤ Expression.nindex (doCall c e).2
  ∧ Expression.vindex e ≤ Expression.vindex (doCall c e).2.
Proof.
  destruct c as [n|v]; simpl.
  - unfold addName. destruct (Expression.namesMap e !! n); simpl; lia.
  - unfold addValue, newValue.
    destruct (negb (isNil v) && negb (noDedup v)); simpl; [|lia].
    destruct (Expression.valuesMap e !! fmtV v); simpl; lia.
Qed.

Lemma doCall_tablesOk c e : tablesOk e → tablesOk (doCall c e).2.
Proof.
  intros [Hn Hv]. destruct c as [n|v]; simpl.
  - unfold addName. destruct (Expression.namesMap e !! n) eqn:Hl; simpl; [done|].
    split; simpl; [|done].
    intros n' i. rewrite lookup_insert. case_decide; simplify_eq/=.
    + intros [= <-]. lia.
    + intros Hl'. apply Hn in Hl'. lia.
  - unfold addValue, newValue.
    destruct (negb (isNil v) && negb (noDedup v)); simpl.
    + destruct (Expression.valuesMap e !! fmtV v) eqn:Hl; simpl; [done|].
      split; simpl; [done|].
      intros k i. rewrite lookup_insert. case_decide; simplify_eq/=.
      * intros [= <-]. lia.
      * intros Hl'. apply Hv in Hl'. lia.
    + split; simpl; [done|]. intros k i Hl'. apply Hv in Hl'. lia.
Qed.

(** The index a call returns is below the counter after the call. *)
Lemma doCall_index_bound c e :
  tablesOk e →
  match c with
  | CallName _ => (doCall c e).1 < Expression.nindex (doCall c e).2
  | CallValue _ => (doCall c e).1 < Expression.vindex (doCall c e).2
  end.
Proof.
  intros [Hn Hv]. destruct c as [n|v]; simpl.
  - unfold addName. destruct (Expression.namesMap e !! n) eqn:Hl; simpl; [eauto|lia].
  - unfold addValue, newValue.
    destruct (negb (isNil v) && negb (noDedup v)); simpl; [|lia].
    destruct (Expression.valuesMap e !! fmtV v) eqn:Hl; simpl; [eauto|lia].
Qed.

(** The state after the first [k] calls. *)
Definition stateAt (k : nat) (cs : list tableCall) (e : Expression.t) : Expression.t :=
  (doCalls (take k cs) e).2.

Lemma doCalls_cons c cs e :
  doCalls (c :: cs) e =
  ((doCall c e).1 :: (doCalls cs (doCall c e).2).1, (doCalls cs (doCall c e).2).2).
Proof.
  simpl. destruct (doCall c e) as [i e1]. simpl. by destruct (doCalls cs e1).
Qed.

Lemma doCalls_index cs : ∀ e k c,
  cs !! k = Some c →
  (doCalls cs e).1 !! k = Some (doCall c (stateAt k cs e)).1.
Proof.
  unfold stateAt. induction cs as [|c0 cs IH]; intros e k c Hk; [done|].
  rewrite doCalls_cons. destruct k as [|k]; simpl in *.
  - by injection Hk as ->.
  - rewrite (IH _ _ _ Hk). f_equal.
    destruct (doCall c0 e) as [i e1]. simpl. by destruct (doCalls (take k cs) e1).
Qed.

Lemma stateAt_S cs : ∀ e k c,
  cs !! k = Some c → stateAt (S k) cs e = (doCall c (stateAt k cs e)).2.
Proof.
  unfold stateAt. induction cs as [|c0 cs IH]; intros e k c Hk; [done|].
  destruct k as [|k]; simpl in *.
  - injection Hk as ->. by destruct (doCall c e).
  - destruct (doCall c0 e) as [i e1].
    specialize (IH e1 k c Hk). simpl in IH.
    destruct (doCalls (take k cs) e1) as [is1 e2] eqn:H1.
    destruct cs as [|c1 cs]; [done|]. simpl in *.
    destruct (doCall c1 e1) as [i1 e3] eqn:H3.
    destruct (doCalls (take k cs) e3) as [is2 e4] eqn:H4. simpl in *.
    done.
Qed.

Lemma stateAt_all cs e k :
  length cs ≤ k → stateAt k cs e = (doCalls cs e).2.
Proof. intros Hk. unfold stateAt. by rewrite take_ge. Qed.

(** A property every call preserves holds from any point of the run on. *)
Lemma stateAt_preserved (P : Expression.t → Prop) cs e :
  (∀ c e', P e' → P (doCall c e').2) →
  ∀ k k', k ≤ k' → P (stateAt k cs e) → P (stateAt k' cs e).
Proof.
  intros Hstep k k' Hle HP. induction Hle as [|k' Hle IH]; [done|].
  destruct (cs !! k') as [c|] eqn:Hc.
  - rewrite (stateAt_S _ _ _ _ Hc). by apply Hstep.
  - apply lookup_ge_None in Hc.
    rewrite stateAt_all by lia. rewrite stateAt_all in IH by lia. done.
Qed.

Lemma init_tablesOk m op props p e0 : init m op props p = Ok e0 → tablesOk e0.
Proof.
  unfold init. destruct (selectIndex m (Some p)); [|done].
  destruct (Model.table_client m); [|done].
  intros [= <-]. split; simpl; intros ? ?; by rewrite lookup_empty.
Qed.

Lemma stateAt_tablesOk cs e k : tablesOk e → tablesOk (stateAt k cs e).
Proof.
  intros Hok. apply (stateAt_preserved tablesOk cs e doCall_tablesOk 0 k); [lia|done].
Qed.

Lemma stateAt_counters cs e k k' :
  k ≤ k' →
  Expression.nindex (stateAt k cs e) ≤ Expression.nindex (stateAt k' cs e)
  ∧ Expression.vindex (stateAt k cs e) ≤ Expression.vindex (stateAt k' cs e).
Proof.
  intros Hle.
  apply (stateAt_preserved
           (λ e', Expression.nindex (stateAt k cs e) ≤ Expression.nindex e'
                  ∧ Expression.vindex (stateAt k cs e) ≤ Expression.vindex e')
           cs e) with (k := k); [|done|done].
  intros c e' [Hn Hv]. destruct (doCall_counters c e'). lia.
Qed.

Lemma names_shared_le cs e i j n :
  i ≤ j → cs !! i = Some (CallName n) → cs !! j = Some (CallName n) →
  (doCalls cs e).1 !! i = (doCalls cs e).1 !! j.
Proof.
  intros Hle Hi Hj.
  rewrite (doCalls_index _ _ _ _ Hi), (doCalls_index _ _ _ _ Hj). f_equal. simpl.
  destruct (decide (i = j)) as [->|Hne]; [done|].
  assert (Hrec : Expression.namesMap (stateAt j cs e) !! n
                 = Some (addName n (stateAt i cs e)).1).
  { apply (stateAt_preserved
             (λ e', Expression.namesMap e' !! n = Some (addName n (stateAt i cs e)).1)
             cs e (λ c e', doCall_namesMap_mono c e' n _) (S i) j); [lia|].
    rewrite (stateAt_S _ _ _ _ Hi). simpl. apply addName_records. }
  by rewrite (addName_hit _ _ _ Hrec).
Qed.

Lemma values_shared_le cs e i j v w :
  i ≤ j → cs !! i = Some (CallValue v) → cs !! j = Some (CallValue w) →
  dedupable v = true → dedupable w = true → fmtV v = fmtV w →
  (doCalls cs e).1 !! i = (doCalls cs e).1 !! j.
Proof.
  intros Hle Hi Hj Hv Hw Hfmt.
  rewrite (doCalls_index _ _ _ _ Hi), (doCalls_index _ _ _ _ Hj). f_equal. simpl.
  destruct (decide (i = j)) as [->|Hne]; [congruence|].
  assert (Hrec : Expression.valuesMap (stateAt j cs e) !! fmtV w
                 = Some (addValue v (stateAt i cs e)).1).
  { rewrite <-Hfmt.
    apply (stateAt_preserved
             (λ e', Expression.valuesMap e' !! fmtV v = Some (addValue v (stateAt i cs e)).1)
             cs e (λ c e', doCall_valuesMap_mono c e' (fmtV v) _) (S i) j); [lia|].
    rewrite (stateAt_S _ _ _ _ Hi). simpl. by apply addValue_records. }
  by rewrite (addValue_hit _ _ _ Hw Hrec).
Qed.

(** After a value that is never de-duplicated took index [x], no later call
    returns [x]. *)
Definition indexRetired (x : nat) (e : Expression.t) : Prop :=
  x < Expression.vindex e
  ∧ ∀ k i, Expression.valuesMap e !! k = Some i → i ≠ x.

Lemma doCall_indexRetired x c e : indexRetired x e → indexRetired x (doCall c e).2.
Proof.
  intros [Hlt Hmap]. destruct c as [n|v]; simpl.
  - unfold addName. by destruct (Expression.namesMap e !! n).
  - unfold addValue, newValue.
    destruct (negb (isNil v) && negb (noDedup v)); simpl.
    + destruct (Expression.valuesMap e !! fmtV v) eqn:Hl; simpl; [done|].
      split; simpl; [lia|].
      intros k i. rewrite lookup_insert. case_decide; simplify_eq/=.
      * intros [= <-]. lia.
      * apply Hmap.
    + split; simpl; [lia|done].
Qed.

Lemma addValue_avoids_retired x v e :
  indexRetired x e → (addValue v e).1 ≠ x.
Proof.
  intros [Hlt Hmap]. unfold addValue, newValue.
  destruct (negb (isNil v) && negb (noDedup v)); simpl; [|lia].
  destruct (Expression.valuesMap e !! fmtV v) eqn:Hl; simpl; [eauto|lia].
Qed.

Lemma fresh_value_distinct cs e i j v w :
  tablesOk e → i ≠ j →
  cs !! i = Some (CallValue v) → cs !! j = Some (CallValue w) →
  dedupable w = false →
  (doCalls cs e).1 !! i ≠ (doCalls cs e).1 !! j.
Proof.
  intros Hok Hne Hi Hj Hw.
  rewrite (doCalls_index _ _ _ _ Hi), (doCalls_index _ _ _ _ Hj). simpl.
  rewrite (addValue_fresh w _ Hw). simpl. intros [= Heq].
  destruct (decide (i < j)) as [Hlt|Hge].
  - pose proof (doCall_index_bound (CallValue v) _ (stateAt_tablesOk cs e i Hok)) as Hb.
    cbv beta iota in Hb. rewrite <-(stateAt_S _ _ _ _ Hi) in Hb. simpl in Hb.
    destruct (stateAt_counters cs e (S i) j) as [_ Hv]; [lia|]. lia.
  - assert (Hret : indexRetired (Expression.vindex (stateAt j cs e)) (stateAt i cs e)).
    { apply (stateAt_preserved _ cs e
               (doCall_indexRetired (Expression.vindex (stateAt j cs e))) (S j) i); [lia|].
      rewrite (stateAt_S _ _ _ _ Hj). simpl.
      rewrite (addValue_fresh w _ Hw). unfold newValue, indexRetired. simpl.
      split; [lia|]. intros k x Hl.
      destruct (stateAt_tablesOk cs e j Hok) as [_ Hv]. apply Hv in Hl. lia. }
    by apply (addValue_avoids_retired _ v _ Hret).
Qed.


(** ** The builder keeps its index, parameters and model *)

Definition sameCore (e e' : Expression.t) : Prop :=
  Expression.hash e' = Expression.hash e
  ∧ Expression.sort e' = Expression.sort e
  ∧ Expression.params e' = Expression.params e
  ∧ Expression.model e' = Expression.model e
  ∧ Expression.index e' = Expression.index e
  ∧ Expression.op e' = Expression.op e.

Lemma sameCore_refl e : sameCore e e.
Proof. by repeat split. Qed.

Lemma sameCore_trans e1 e2 e3 : sameCore e1 e2 → sameCore e2 e3 → sameCore e1 e3.
Proof. unfold sameCore. intros (?&?&?&?&?&?) (?&?&?&?&?&?). repeat split; congruence. Qed.

Lemma addName_core n e : sameCore e (addName n e).2.
Proof. unfold addName. destruct (Expression.namesMap e !! n); by repeat split. Qed.

Lemma addValue_core v e : sameCore e (addValue v e).2.
Proof.
  unfold addValue, newValue. destruct (negb (isNil v) && negb (noDedup v)).
  - destruct (Expression.valuesMap e !! fmtV v); by repeat split.
  - by repeat split.
Qed.

Lemma addValueExp_core v e : sameCore e (addValueExp v e).2.
Proof.
  unfold addValueExp. pose proof (addValue_core v e). by destruct (addValue v e).
Qed.

Lemma addValues_core vs : ∀ e, sameCore e (addValues vs e).2.
Proof.
  induction vs as [|v vs IH]; intros e; simpl; [apply sameCore_refl|].
  pose proof (addValue_core v e) as H1. destruct (addValue v e) as [i e1].
  pose proof (IH e1) as H2. destruct (addValues vs e1) as [r e2]. simpl in *.
  by eapply sameCore_trans.
Qed.

Lemma makeTargetParts_core parts : ∀ fields e,
  sameCore e (makeTargetParts fields parts e).2.
Proof.
  induction parts as [|p parts IH]; intros fields e; simpl; [apply sameCore_refl|].
  destruct (match cutAt "[" p with Some (pre, post) => (pre, post) | None => (p, "") end)
    as [part subscript].
  destruct (match alookup part fields with
            | Some f => (att0 f, match Block f with Some b => Fields b | None => [] end)
            | None => (part, [])
            end) as [att fields'].
  pose proof (addName_core att e) as H1. destruct (addName att e) as [i e1].
  pose proof (IH fields' e1) as H2. destruct (makeTargetParts fields' parts e1) as [ts e2].
  simpl in *. by eapply sameCore_trans.
Qed.

Lemma makeTarget_core fields name e : sameCore e (makeTarget fields name e).2.
Proof.
  unfold makeTarget. pose proof (makeTargetParts_core (splitOn "." name) fields e).
  by destruct (makeTargetParts fields (splitOn "." name) e).
Qed.

Lemma prepareKey_core key e : sameCore e (prepareKey key e).2.
Proof.
  unfold prepareKey.
  eapply sameCore_trans; [|apply makeTarget_core]. by repeat split.
Qed.

Lemma expandVars_core toks : ∀ e, sameCore e (expandVars toks e).2.
Proof.
  induction toks as [|[c|inner] toks IH]; intros e; simpl; [apply sameCore_refl|..].
  - pose proof (IH e). by destruct (expandVars toks e).
  - pose proof (makeTarget_core (Fields (Model.block (Expression.model e))) inner e) as H1.
    destruct (makeTarget _ inner e) as [t e1].
    pose proof (IH e1) as H2. destruct (expandVars toks e1) as [r e2]. simpl in *.
    by eapply sameCore_trans.
Qed.

Lemma expandLits_core toks : ∀ e, sameCore e (expandLits toks e).2.
Proof.
  induction toks as [|[a|inner] toks IH]; intros e; simpl; [apply sameCore_refl|..].
  - pose proof (IH e). by destruct (expandLits toks e).
  - pose proof (addValueExp_core (literalValue (render inner)) e) as H1.
    destruct (addValueExp _ e) as [t e1].
    pose proof (IH e1) as H2. destruct (expandLits toks e1) as [r e2]. simpl in *.
    by eapply sameCore_trans.
Qed.

(** The panic of [expand] for a substitution the request does not supply. *)
Definition missingSubstitution (msg : string) : Prop :=
  ∃ name, msg = "missing substitution for " +:+ strconvQuote name.

(** An outcome that is a result satisfying [R] or a panic satisfying [P]. *)
Definition okOrPanic {A} (R : A → Prop) (P : string → Prop) (x : outcome A) : Prop :=
  match x with
  | Ok a => R a
  | Panic msg => P msg
  | _ => False
  end.

Lemma okOrPanic_weaken {A} (R R' : A → Prop) (P P' : string → Prop) x :
  (∀ a, R a → R' a) → (∀ msg, P msg → P' msg) → okOrPanic R P x → okOrPanic R' P' x.
Proof. intros HR HP. destruct x; simpl; eauto. Qed.

Lemma okOrPanic_bind {A B} (R : A → Prop) (R' : B → Prop) (P : string → Prop)
    (x : outcome A) (f : A → outcome B) :
  okOrPanic R P x → (∀ a, R a → okOrPanic R' P (f a)) → okOrPanic R' P (x ≫= f).
Proof. destruct x; simpl; eauto. Qed.

Lemma expandSub_core inner e :
  okOrPanic (λ r, sameCore e r.2) missingSubstitution (expandSub inner e).
Proof.
  unfold expandSub. destruct (Params.Substitutions (Expression.params e)) as [subs|];
    [|by eexists].
  destruct (isNil _); [by eexists|].
  destruct (isPrefix "..." (render inner)); [|apply addValueExp_core].
  destruct (aget _ subs) as [| | | | | | | |arr|]; try apply addValueExp_core.
  pose proof (addValues_core arr e). by destruct (addValues arr e).
Qed.

Lemma expandSubs_core toks : ∀ e,
  okOrPanic (λ r, sameCore e r.2) missingSubstitution (expandSubs toks e).
Proof.
  induction toks as [|[a|inner] toks IH]; intros e; simpl; [apply sameCore_refl|..].
  - eapply okOrPanic_bind; [apply IH|]. by intros [r e'] Hc.
  - eapply okOrPanic_bind; [apply expandSub_core|]. intros [t e1] H1.
    eapply okOrPanic_bind; [apply IH|]. intros [r e2] H2. simpl in *.
    by eapply sameCore_trans.
Qed.

Lemma expand_core w e :
  okOrPanic (λ r, sameCore e r.2) missingSubstitution (expand w e).
Proof.
  unfold expand. pose proof (expandVars_core (scanVars 0 w) e) as H1.
  destruct (expandVars _ e) as [r1 e1].
  eapply okOrPanic_bind; [apply expandSubs_core|]. intros [r2 e2] H2. simpl in *.
  pose proof (expandLits_core (scanLits 0 r2) e2) as H3.
  eapply sameCore_trans; [|exact H3]. by eapply sameCore_trans.
Qed.

Lemma prepareKeyValue_core key v e :
  okOrPanic (λ r, sameCore e r.2) missingSubstitution (prepareKeyValue key v e).
Proof.
  unfold prepareKeyValue. pose proof (prepareKey_core key e) as H1.
  destruct (prepareKey key e) as [target e1]. simpl in H1.
  assert (Hplain : ∀ w, okOrPanic (λ r : rope * rope * Expression.t, sameCore e r.2)
                          missingSubstitution
                          (let '(variable, e2) := addValueExp w e1 in
                           Ok (target, variable, e2))).
  { intros w. pose proof (addValueExp_core w e1) as H2.
    destruct (addValueExp w e1) as [variable e2]. simpl in *.
    by eapply sameCore_trans. }
  destruct v; try apply Hplain.
  destruct (containsAny _ _); [|apply Hplain].
  eapply okOrPanic_bind; [apply expand_core|]. intros [variable e2] H2. simpl in *.
  by eapply sameCore_trans.
Qed.

Lemma foldM_okOrPanic {A S} (I : S → Prop) (P : string → Prop)
    (f : A → S → outcome S) (l : list A) :
  (∀ a s, I s → okOrPanic I P (f a s)) →
  ∀ s, I s → okOrPanic I P (foldM f l s).
Proof.
  intros Hstep. induction l as [|a l IH]; intros s Hs; [done|].
  cbn [foldM]. eapply okOrPanic_bind; [by apply Hstep|]. apply IH.
Qed.

Lemma foldM_must_panic {A S} (I : S → Prop) (P : string → Prop)
    (f : A → S → outcome S) (l : list A) (a0 : A) :
  (∀ a s, I s → okOrPanic I P (f a s)) →
  a0 ∈ l →
  (∀ s, I s → okOrPanic (λ _, False) P (f a0 s)) →
  ∀ s, I s → okOrPanic (λ _, False) P (foldM f l s).
Proof.
  intros Hstep Hin Hbad. induction l as [|a l IH]; intros s Hs.
  - by apply elem_of_nil in Hin.
  - cbn [foldM]. apply elem_of_cons in Hin as [<-|Hin].
    + eapply okOrPanic_bind; [by apply Hbad|]. by intros ? [].
    + eapply okOrPanic_bind; [by apply Hstep|]. by apply IH.
Qed.

(** ** Updates of a key attribute are rejected *)

(** The panics of [addUpdateConditions]: a write to the hash or sort
    attribute, or a substitution that an earlier entry misses. *)
Definition updateRejection (msg : string) : Prop :=
  (∃ what, what ∈ ["add"; "delete"; "remove"; "set"; "push"]
           ∧ msg = cannotUpdateKey what)
  ∨ missingSubstitution msg.

Lemma assertNotPartition_ok key what e :
  key ≠ Expression.hash e → key ≠ Expression.sort e →
  assertNotPartition key what e = Ok ().
Proof.
  intros Hh Hs. unfold assertNotPartition.
  apply streq_false in Hh, Hs. by rewrite Hh, Hs.
Qed.

Lemma assertNotPartition_panics key what e :
  key = Expression.hash e ∨ key = Expression.sort e →
  assertNotPartition key what e = Panic (cannotUpdateKey what).
Proof.
  intros Hk. unfold assertNotPartition.
  destruct Hk as [<-|<-]; rewrite streq_refl; [done|by rewrite orb_true_r].
Qed.

Lemma assertNotPartition_cases key what e :
  assertNotPartition key what e = Ok ()
  ∨ assertNotPartition key what e = Panic (cannotUpdateKey what).
Proof. unfold assertNotPartition. destruct (_ || _); eauto. Qed.

Section UpdateSteps.
Variable e0 : Expression.t.

Let I (e : Expression.t) : Prop := sameCore e0 e.

Lemma updAdd_core entry e : I e → okOrPanic I updateRejection (updAdd entry e).
Proof.
  intros He. destruct entry as [key v]. unfold updAdd.
  destruct (assertNotPartition_cases key "add" e) as [-> | ->];
    [cbn [mbind outcome_bind obind]
    |left; eexists; split; [|reflexivity]; set_solver].
  eapply okOrPanic_bind.
  { eapply okOrPanic_weaken; [intros ? Hc; exact Hc|intros ? Hm; by right|].
    apply prepareKeyValue_core. }
  intros [[target variable] e'] Hc. cbn [okOrPanic]. unfold I in *.
  eapply sameCore_trans; [eassumption|]. eapply sameCore_trans; [exact Hc|].
  by repeat split.
Qed.

Lemma updDelete_core entry e : I e → okOrPanic I updateRejection (updDelete entry e).
Proof.
  intros He. destruct entry as [key v]. unfold updDelete.
  destruct (assertNotPartition_cases key "delete" e) as [-> | ->];
    [cbn [mbind outcome_bind obind]
    |left; eexists; split; [|reflexivity]; set_solver].
  eapply okOrPanic_bind.
  { eapply okOrPanic_weaken; [intros ? Hc; exact Hc|intros ? Hm; by right|].
    apply prepareKeyValue_core. }
  intros [[target variable] e'] Hc. cbn [okOrPanic]. unfold I in *.
  eapply sameCore_trans; [eassumption|]. eapply sameCore_trans; [exact Hc|].
  by repeat split.
Qed.

Lemma updRemove_core key e : I e → okOrPanic I updateRejection (updRemove key e).
Proof.
  intros He. unfold updRemove.
  destruct (assertNotPartition_cases key "remove" e) as [-> | ->];
    [cbn [mbind outcome_bind obind]
    |left; eexists; split; [|reflexivity]; set_solver].
  pose proof (prepareKey_core key e) as Hc. destruct (prepareKey key e) as [target e'].
  cbn [okOrPanic]. unfold I in *. simpl in Hc.
  eapply sameCore_trans; [eassumption|]. eapply sameCore_trans; [exact Hc|].
  by repeat split.
Qed.

Lemma updSet_core entry e : I e → okOrPanic I updateRejection (updSet entry e).
Proof.
  intros He. destruct entry as [key v]. unfold updSet.
  destruct (assertNotPartition_cases key "set" e) as [-> | ->];
    [cbn [mbind outcome_bind obind]
    |left; eexists; split; [|reflexivity]; set_solver].
  eapply okOrPanic_bind.
  { eapply okOrPanic_weaken; [intros ? Hc; exact Hc|intros ? Hm; by right|].
    apply prepareKeyValue_core. }
  intros [[target variable] e'] Hc. cbn [okOrPanic]. unfold I in *.
  eapply sameCore_trans; [eassumption|]. eapply sameCore_trans; [exact Hc|].
  by repeat split.
Qed.

Lemma updPush_core entry e : I e → okOrPanic I updateRejection (updPush entry e).
Proof.
  intros He. destruct entry as [key v]. unfold updPush.
  destruct (assertNotPartition_cases key "push" e) as [-> | ->];
    [cbn [mbind outcome_bind obind]
    |left; eexists; split; [|reflexivity]; set_solver].
  pose proof (addValue_core (VList []) e) as H1.
  destruct (addValue (VList []) e) as [i1 e1].
  pose proof (addValue_core (VList (asSlice v)) e1) as H2.
  destruct (addValue (VList (asSlice v)) e1) as [i2 e2].
  pose proof (prepareKey_core key e2) as H3. destruct (prepareKey key e2) as [target e3].
  cbn [okOrPanic]. unfold I in *. simpl in *.
  eapply sameCore_trans; [eassumption|]. eapply sameCore_trans; [exact H1|].
  eapply sameCore_trans; [exact H2|]. eapply sameCore_trans; [exact H3|].
  by repeat split.
Qed.

Lemma hash_sort_of_core e key :
  I e → key = Expression.hash e0 ∨ key = Expression.sort e0 →
  key = Expression.hash e ∨ key = Expression.sort e.
Proof. intros (Hh & Hs & _) [->| ->]; eauto. Qed.

Lemma offending_panics (what key : string) e :
  I e → key = Expression.hash e0 ∨ key = Expression.sort e0 →
  assertNotPartition key what e = Panic (cannotUpdateKey what).
Proof.
  intros He Hk. apply assertNotPartition_panics. by apply hash_sort_of_core.
Qed.

(** A key of one of the five options that names the hash or sort attribute
    makes [addUpdateConditions] panic. *)
Lemma addUpdateConditions_rejects key e :
  I e → Expression.params e = Expression.params e0 →
  key ∈ updateKeys (Expression.params e0) →
  key = Expression.hash e0 ∨ key = Expression.sort e0 →
  okOrPanic (λ _ : Expression.t, False) updateRejection (addUpdateConditions e).
Proof.
  intros He Hp Hin Hk. unfold addUpdateConditions. rewrite Hp.
  unfold updateKeys, akeys in Hin.
  rewrite !elem_of_app in Hin.
  destruct (decide (key ∈ (default [] (Params.Add (Expression.params e0))).*1)) as [Ha|Ha].
  { apply list_elem_of_fmap in Ha as ([k v] & -> & Ha).
    eapply (okOrPanic_bind (λ _, False)); [|by intros ? []].
    eapply (foldM_must_panic I); [apply updAdd_core|exact Ha| |exact He].
    intros s Hs. unfold updAdd. cbn beta iota.
    rewrite (offending_panics "add" _ s) by done.
    left. eexists. split; [|reflexivity]. set_solver. }
  eapply okOrPanic_bind; [apply (foldM_okOrPanic I); [apply updAdd_core|done]|]. intros e1 He1.
  destruct (decide (key ∈ (default [] (Params.Delete (Expression.params e0))).*1)) as [Hd|Hd].
  { apply list_elem_of_fmap in Hd as ([k v] & -> & Hd).
    eapply (okOrPanic_bind (λ _, False)); [|by intros ? []].
    eapply (foldM_must_panic I); [apply updDelete_core|exact Hd| |exact He1].
    intros s Hs. unfold updDelete. cbn beta iota.
    rewrite (offending_panics "delete" _ s) by done.
    left. eexists. split; [|reflexivity]. set_solver. }
  eapply okOrPanic_bind; [apply (foldM_okOrPanic I); [apply updDelete_core|done]|]. intros e2 He2.
  destruct (decide (key ∈ default [] (Params.Remove (Expression.params e0)))) as [Hr|Hr].
  { eapply (okOrPanic_bind (λ _, False)); [|by intros ? []].
    eapply (foldM_must_panic I); [apply updRemove_core|exact Hr| |exact He2].
    intros s Hs. unfold updRemove. cbn beta iota.
    rewrite (offending_panics "remove" _ s) by done.
    left. eexists. split; [|reflexivity]. set_solver. }
  eapply okOrPanic_bind; [apply (foldM_okOrPanic I); [apply updRemove_core|done]|]. intros e3 He3.
  destruct (decide (key ∈ (default [] (Params.Set_ (Expression.params e0))).*1)) as [Hs|Hs].
  { apply list_elem_of_fmap in Hs as ([k v] & -> & Hs).
    eapply (okOrPanic_bind (λ _, False)); [|by intros ? []].
    eapply (foldM_must_panic I); [apply updSet_core|exact Hs| |exact He3].
    intros s Hs'. unfold updSet. cbn beta iota.
    rewrite (offending_panics "set" _ s) by done.
    left. eexists. split; [|reflexivity]. set_solver. }
  eapply okOrPanic_bind; [apply (foldM_okOrPanic I); [apply updSet_core|done]|]. intros e4 He4.
  assert (Hpush : key ∈ (default [] (Params.Push (Expression.params e0))).*1) by tauto.
  apply list_elem_of_fmap in Hpush as ([k v] & -> & Hpush).
  eapply (foldM_must_panic I); [apply updPush_core|exact Hpush| |exact He4].
  intros s Hs'. unfold updPush. cbn beta iota.
  rewrite (offending_panics "push" _ s) by done.
  left. eexists. split; [|reflexivity]. set_solver.
Qed.

End UpdateSteps.

Lemma attrCondition_core fn att e : sameCore e (attrCondition fn att e).
Proof.
  unfold attrCondition. pose proof (addName_core att e) as Hc.
  destruct (addName att e) as [n e']. simpl in Hc.
  eapply sameCore_trans; [exact Hc|]. by repeat split.
Qed.

Lemma addConditions_update_rejects key e :
  key ∈ updateKeys (Expression.params e) →
  key = Expression.hash e ∨ key = Expression.sort e →
  okOrPanic (λ _ : Expression.t, False) updateRejection (addConditions "update" e).
Proof.
  intros Hin Hk. unfold addConditions.
  set (e1 := match Params.Exists (Expression.params e) with
             | Some true => _ | Some false => _ | None => e end).
  assert (Hc : sameCore e e1).
  { subst e1. destruct (Params.Exists (Expression.params e)) as [[]|];
      [| |apply sameCore_refl];
      (destruct (streq _ ""); [apply attrCondition_core|]);
      (eapply sameCore_trans; apply attrCondition_core). }
  rewrite streq_refl.
  eapply (okOrPanic_bind (λ _, False)); [|by intros ? []].
  apply (addUpdateConditions_rejects e key e1); [done|apply Hc|done..].
Qed.

(** The builder produces no expression for an update whose [Add], [Delete],
    [Remove], [Set] or [Push] option names the hash or sort attribute of the
    active index: it fails with the argument error on the missing client, or
    panics with the argument error "Cannot ... hash or sort" (or with the
    missing substitution of an entry that comes before). *)
Lemma newExpression_update_rejects (m : Model.t) (props : Item) (p : Params.t)
    (idx : IndexDef.t) (key : string) :
  selectIndex m (Some p) = Some idx →
  key ∈ updateKeys p →
  key = IndexDef.Hash idx ∨ key = IndexDef.Sort idx →
  (Model.table_client m = false
   ∧ newExpression m "update" props p
     = Err (NewArgError "Table has not yet defined a client instance"))
  ∨ (Model.table_client m = true
     ∧ ∃ msg, newExpression m "update" props p = Panic msg ∧ updateRejection msg).
Proof.
  intros Hsel Hin Hk. unfold newExpression, init. rewrite Hsel.
  destruct (Model.table_client m); [right|by left].
  split; [done|]. cbn [mbind outcome_bind obind]. unfold prepare.
  cbn [Expression.op]. change (streq "update" "find") with false. cbv iota.
  change (streq "update" "delete" || streq "update" "put" || streq "update" "update"
          || streq "update" "check") with true. cbv iota.
  match goal with |- context [addConditions "update" ?e] =>
    pose proof (addConditions_update_rejects key e Hin Hk) as Hrej;
    destruct (addConditions "update" e) as [e1|err|msg|]; try done
  end.
  by exists msg.
Qed.
End Proofs.


(** ** Value templates *)

Lemma contains_prefix pat s : isPrefix pat s = true → contains s pat = true.
Proof. unfold contains. destruct s; simpl; by intros ->. Qed.

Lemma contains_cons pat c s : contains s pat = true → contains (String c s) pat = true.
Proof.
  unfold contains. simpl. destruct (cutAt pat s) as [[??]|]; [|done].
  by destruct (isPrefix pat (String c s)).
Qed.

Lemma contains_app_r pat a s : contains s pat = true → contains (a +:+ s) pat = true.
Proof. induction a; simpl; [done|]. intros. by apply contains_cons, IHa. Qed.

Lemma contains_cutAt pat s :
  contains s pat = true → ∃ pre post, cutAt pat s = Some (pre, post).
Proof. unfold contains. destruct (cutAt pat s) as [[pre post]|]; [eauto|done]. Qed.

Section TemplateFacts.
Context `{GoLib}.
Variables (m : Model.t) (field : preparedField) (props : Item).

(** A token is unresolved when the property it names is nil. *)
Definition unresolved (inner : string) : Prop :=
  getPropValue props (nth 0 (splitN3 inner) "") = VNil.

Lemma templateToken_unresolved inner :
  unresolved inner → templateToken m field props inner = Ok ("${" +:+ inner +:+ "}").
Proof. unfold unresolved, templateToken. by intros ->. Qed.

Lemma padLeft_returns s pad n : pad ≠ "" → ∃ r, padLeft s pad n = Ok r.
Proof.
  intros Hpad. unfold padLeft. case_bool_decide; [|eauto].
  unfold streq. rewrite bool_decide_eq_false_2 by done. eauto.
Qed.

Lemma padLeft_never_fails s pad n :
  (∃ r, padLeft s pad n = Ok r) ∨ padLeft s pad n = Hang.
Proof. unfold padLeft. repeat case_match; eauto. Qed.

Lemma templateToken_returns inner :
  padSafe inner = true → ∃ s, templateToken m field props inner = Ok s.
Proof.
  unfold padSafe, templateToken. intros Hsafe.
  destruct (isNil _); [eauto|].
  destruct (splitN3 inner) as [|a [|b [|c [|??]]]]; eauto.
  - by apply padLeft_returns.
  - apply padLeft_returns. intros ->. done.
Qed.

Lemma templateToken_never_fails inner :
  (∃ s, templateToken m field props inner = Ok s)
  ∨ templateToken m field props inner = Hang.
Proof.
  unfold templateToken. destruct (isNil _); [eauto|].
  destruct (splitN3 inner) as [|a [|b [|c [|??]]]]; eauto using padLeft_never_fails.
Qed.

Lemma substitute_returns toks :
  (∀ inner, T1Var inner ∈ toks → padSafe inner = true) →
  ∃ result, substitute m field props toks = Ok result.
Proof.
  induction toks as [|[c|inner] toks IH]; intros Hsafe; simpl; [eauto|..].
  - destruct IH as [r ->]; [|eauto]. intros ??. apply Hsafe. by right.
  - destruct (templateToken_returns inner) as [s ->]; [apply Hsafe; by left|].
    destruct IH as [r ->]; [|eauto]. intros ??. apply Hsafe. by right.
Qed.

Lemma substitute_never_fails toks :
  (∃ result, substitute m field props toks = Ok result)
  ∨ substitute m field props toks = Hang.
Proof.
  induction toks as [|[c|inner] toks IH]; simpl; [eauto|..].
  - destruct IH as [[r ->]| ->]; eauto.
  - destruct (templateToken_never_fails inner) as [[s ->]| ->]; [|eauto].
    destruct IH as [[r ->]| ->]; eauto.
Qed.

Lemma substitute_keeps_unresolved toks inner result :
  T1Var inner ∈ toks → unresolved inner →
  substitute m field props toks = Ok result →
  contains result "${" = true.
Proof.
  intros Hin Hun. revert result.
  induction toks as [|tok toks IH]; intros result Hsub; [by apply elem_of_nil in Hin|].
  apply elem_of_cons in Hin as [<-|Hin].
  - simpl in Hsub. rewrite templateToken_unresolved in Hsub by done.
    destruct (substitute m field props toks) as [r| | |]; simplify_eq/=. done.
  - destruct tok as [c|inner']; simpl in Hsub.
    + destruct (substitute m field props toks) as [r| | |]; simplify_eq/=.
      apply contains_cons. by apply IH.
    + destruct (templateToken m field props inner') as [s| | |]; simplify_eq/=.
      destruct (substitute m field props toks) as [r| | |]; simplify_eq/=.
      apply contains_app_r. by apply IH.
Qed.

End TemplateFacts.

Section Templates.
Context `{GoLib}.

Lemma runTemplate_never_fails m op index field props tmpl :
  (∃ v, runTemplate m op index field props tmpl = Ok v)
  ∨ runTemplate m op index field props tmpl = Hang.
Proof.
  unfold runTemplate.
  destruct (substitute_never_fails m field props (scanVars 0 tmpl)) as [[r ->]| ->];
    eauto.
Qed.

Lemma templateStep_never_fails m op index field props :
  (∃ props', templateStep m op index field props = Ok props')
  ∨ templateStep m op index field props = Hang.
Proof.
  unfold templateStep. repeat (case_match; [eauto|]).
  destruct (runTemplate_never_fails m op index field props (ValueTemplate field))
    as [[v ->]| ->]; eauto.
Qed.

Lemma runTemplates_never_fails m op index deps props :
  (∃ props', runTemplates m op index deps props = Ok props')
  ∨ runTemplates m op index deps props = Hang.
Proof.
  unfold runTemplates. revert props.
  induction deps as [|field deps IH]; intros props; simpl; [eauto|].
  destruct (templateStep_never_fails m op index field props) as [[p ->]| ->]; [|eauto].
  apply IH.
Qed.


End Templates.

(** ** Validation *)

Section AssocMore.
Context {V : Type}.
Implicit Types m : list (string * V).

Lemma alookup_elem_NoDup k (v : V) m :
  NoDup (akeys m) → (k, v) ∈ m → alookup k m = Some v.
Proof.
  unfold akeys. induction m as [|[k' v'] m IH]; simpl; intros Hnd Hin.
  - by apply elem_of_nil in Hin.
  - apply NoDup_cons in Hnd as [Hnotin Hnd].
    apply elem_of_cons in Hin as [Heq|Hin].
    + simplify_eq. by rewrite decide_True.
    + rewrite decide_False; [by apply IH|].
      intros ->. apply Hnotin. apply list_elem_of_fmap. by exists (k, v).
Qed.

Lemma alookup_is_Some_keys k m : is_Some (alookup k m) ↔ k ∈ akeys m.
Proof.
  destruct (alookup k m) as [v|] eqn:Hl.
  - split; [intros _|eauto]. apply alookup_Some_elem in Hl.
    unfold akeys. apply list_elem_of_fmap. by exists (k, v).
  - apply alookup_None_keys in Hl. split; [by intros [??]|done].
Qed.

Lemma alookup_ainsert_is_Some k k' (v : V) m :
  is_Some (alookup k' (ainsert k v m)) ↔ k' = k ∨ is_Some (alookup k' m).
Proof.
  destruct (decide (k = k')) as [->|Hne].
  - rewrite alookup_ainsert_eq. split; eauto.
  - rewrite alookup_ainsert_ne by done. split; [eauto|]. by intros [->|?].
Qed.
End AssocMore.

Section Validation.
Context `{GoLib}.

(** The value bound to a field fails its pattern or its enumeration. *)
Definition valueOffends (field : preparedField) (v : value) : bool :=
  (negb (streq (FieldDef.Validate (fdef field)) "")
   && patternRejects (FieldDef.Validate (fdef field)) v)
  || match FieldDef.Enum (fdef field) with
     | Some enum => negb (containsStr enum (fmtV v))
     | None => false
     end.

(** A required field is missing on a put, or explicitly nil on an update. *)
Definition requiredOffends (op : string) (field : preparedField) (props : Item) : bool :=
  Required field && negb (hasBlock field)
  && ((streq op "put" && isNil (aget (Name field) props))
      || (streq op "update" && ahas (Name field) props
          && isNil (aget (Name field) props))).

(** A field of the block that is no nested schema offends. *)
Definition offends (op : string) (field : preparedField) (props : Item) : bool :=
  requiredOffends op field props
  || (negb (hasBlock field)
      && match alookup (Name field) props with
         | Some v => valueOffends field v
         | None => false
         end).

(** The keys of a block are the names of its fields, each once. *)
Definition blockOk (fields : list (string * preparedField)) : Prop :=
  NoDup (akeys fields) ∧ ∀ name field, (name, field) ∈ fields → Name field = name.

Lemma validateProperty_flags field v details k :
  is_Some (alookup k (validateProperty field v details))
  ↔ is_Some (alookup k details) ∨ (k = Name field ∧ valueOffends field v = true).
Proof.
  unfold validateProperty, valueOffends.
  destruct (negb _ && patternRejects _ v) eqn:Hpat;
    destruct (FieldDef.Enum (fdef field)) as [enum|]; simpl;
    try destruct (containsStr enum (fmtV v)); simpl;
    rewrite ?alookup_ainsert_is_Some; naive_solver.
Qed.

Lemma valueStep_flags fields validation name v k :
  is_Some (alookup k (valueStep fields validation (name, v)))
  ↔ is_Some (alookup k validation)
    ∨ ∃ field, alookup name fields = Some field ∧ hasBlock field = false
               ∧ Name field = k ∧ valueOffends field v = true.
Proof.
  unfold valueStep. destruct (alookup name fields) as [field|].
  2:{ split; [eauto|]. by intros [?|(?&?&_)]. }
  destruct (hasBlock field) eqn:Hb.
  { split; [eauto|]. intros [?|(?&?&?&_)]; [done|]. simplify_eq. congruence. }
  destruct (negb _ || bool_decide _) eqn:Hany.
  - rewrite validateProperty_flags. split.
    + intros [?|[-> ?]]; [eauto|]. right. by exists field.
    + intros [?|(f & ? & ? & ? & ?)]; [eauto|]. simplify_eq. eauto.
  - apply orb_false_iff in Hany as [Hv He].
    assert (valueOffends field v = false) as Hno.
    { unfold valueOffends. rewrite Hv. simpl.
      apply bool_decide_eq_false in He.
      destruct (FieldDef.Enum (fdef field)); [|done]. exfalso. by apply He. }
    split; [eauto|]. intros [?|(f & ? & ? & ? & ?)]; [done|]. simplify_eq. congruence.
Qed.

Lemma valueLoop_flags fields props validation k :
  is_Some (alookup k (foldl (valueStep fields) validation props))
  ↔ is_Some (alookup k validation)
    ∨ ∃ name v field, (name, v) ∈ props ∧ alookup name fields = Some field
                      ∧ hasBlock field = false ∧ Name field = k
                      ∧ valueOffends field v = true.
Proof.
  revert validation.
  induction props as [|[name v] props IH]; intros validation; cbn [foldl].
  - split; [eauto|]. intros [?|(?&?&?&Hin&_)]; [done|]. by apply elem_of_nil in Hin.
  - rewrite IH, valueStep_flags. split.
    + intros [[?|(f & ? & ? & ? & ?)]|(n & w & f & Hin & ?)]; [eauto|right..].
      * exists name, v, f. split; [left|done].
      * exists n, w, f. split; [by right|done].
    + intros [?|(n & w & f & Hin & ?)]; [eauto|].
      apply elem_of_cons in Hin as [?|Hin]; simplify_eq.
      * left. right. by exists f.
      * right. by exists n, w, f.
Qed.

Lemma absent_is_nil name (props : Item) :
  negb (ahas name props) || isNil (aget name props) = isNil (aget name props).
Proof. unfold ahas, aget. by destruct (alookup name props). Qed.

Lemma requiredStep_flags op props validation nf k :
  is_Some (alookup k (requiredStep op props validation nf))
  ↔ is_Some (alookup k validation)
    ∨ (Name nf.2 = k ∧ requiredOffends op nf.2 props = true).
Proof.
  unfold requiredStep, requiredOffends. rewrite absent_is_nil.
  destruct (Required nf.2 && negb (hasBlock nf.2)); simpl.
  2:{ split; [eauto|]. by intros [?|[??]]. }
  destruct (streq op "put"), (streq op "update"), (isNil (aget (Name nf.2) props)),
    (ahas (Name nf.2) props); simpl;
    rewrite ?alookup_ainsert_is_Some;
    (split; [intros Hs; try destruct Hs as [->|?]; eauto
            |intros [?|[??]]; eauto; done]).
Qed.

Lemma requiredLoop_flags op props fields validation k :
  is_Some (alookup k (foldl (requiredStep op props) validation fields))
  ↔ is_Some (alookup k validation)
    ∨ ∃ nf, nf ∈ fields ∧ Name nf.2 = k ∧ requiredOffends op nf.2 props = true.
Proof.
  revert validation.
  induction fields as [|nf fields IH]; intros validation; cbn [foldl].
  - split; [eauto|]. intros [?|(?&Hin&_)]; [done|]. by apply elem_of_nil in Hin.
  - rewrite IH, requiredStep_flags. split.
    + intros [[?|[??]]|(nf' & Hin & ?)]; [eauto|right..].
      * exists nf. split; [left|done].
      * exists nf'. split; [by right|done].
    + intros [?|(nf' & Hin & ?)]; [eauto|].
      apply elem_of_cons in Hin as [->|Hin]; [eauto|].
      right. by exists nf'.
Qed.

Lemma validationOf_flags op fields props k :
  blockOk fields → NoDup (akeys props) →
  is_Some (alookup k (validationOf op fields props))
  ↔ ∃ field, alookup k fields = Some field ∧ offends op field props = true.
Proof.
  intros [Hnd Hnames] Hprops.
  unfold validationOf. rewrite requiredLoop_flags, valueLoop_flags.
  unfold offends. split.
  - intros [[[? Hnil]|(name & v & field & Hin & Hf & Hb & Hk & Hv)]
           |([name field] & Hin & Hk & Hreq)]; [done|..]; simpl in *.
    + pose proof (Hnames _ _ (alookup_Some_elem _ _ _ Hf)) as Hname.
      exists field. subst k. rewrite Hname in *. split; [done|].
      rewrite (alookup_elem_NoDup _ _ _ Hprops Hin), Hb, Hv. by rewrite orb_true_r.
    + pose proof (Hnames _ _ Hin) as Hname. exists field.
      rewrite <-Hk, Hname. split; [by apply alookup_elem_NoDup|]. by rewrite Hreq.
  - intros (field & Hf & Hoff).
    pose proof (alookup_Some_elem _ _ _ Hf) as Hin.
    pose proof (Hnames _ _ Hin) as Hname.
    apply orb_true_iff in Hoff as [Hreq|Hval].
    + right. by exists (k, field).
    + left. right. apply andb_true_iff in Hval as [Hb Hv].
      apply negb_true_iff in Hb. rewrite Hname in Hv.
      destruct (alookup k props) as [v|] eqn:Hl; [|done].
      exists k, v, field. split; [by apply alookup_Some_elem|done].
Qed.

(** C6 (amended): on a put or an update, the validation of one schema
    block flags exactly the fields of the block that offend: a required
    field with no value on a put or bound to nil on an update, and a bound
    field whose value fails its pattern or is not in its enumeration.
    When no field offends the validation succeeds; otherwise it fails once,
    with the code Validation, the whole validation map, and a message that
    lists every offending field of the block. *)
Theorem validation_collects_offending_fields
    (m : Model.t) (op : string) (fields : list (string * preparedField)) (props : Item) :
  op = "put" ∨ op = "update" →
  blockOk fields → NoDup (akeys props) →
  let validation := validationOf op fields props in
  (∀ k, k ∈ akeys validation
        ↔ ∃ field, alookup k fields = Some field ∧ offends op field props = true)
  ∧ ((∀ k field, alookup k fields = Some field → offends op field props = false) →
     validateProperties m op fields props = Ok ())
  ∧ ((∃ k field, alookup k fields = Some field ∧ offends op field props = true) →
     validateProperties m op fields props
     = Err (OneTableError
              ("Validation Error in " +:+ dq +:+ Model.Name m +:+ dq +:+ " for " +:+ dq
                 +:+ joinWith ", " (akeys validation) +:+ dq)
              (Some ErrValidation) (Some validation))).
Proof.
  intros Hop Hfields Hprops validation.
  assert (Hkeys : ∀ k, k ∈ akeys validation
            ↔ ∃ field, alookup k fields = Some field ∧ offends op field props = true).
  { intros k. rewrite <-alookup_is_Some_keys. by apply validationOf_flags. }
  assert (Hrun : negb (streq op "put") && negb (streq op "update") = false).
  { by destruct Hop as [-> | ->]. }
  split; [done|]. unfold validateProperties. rewrite Hrun. fold validation. split.
  - intros Hnone. destruct validation as [|[k msg] rest]; [done|].
    destruct (proj1 (Hkeys k)) as (field & Hf & Hoff); [left|].
    by rewrite (Hnone _ _ Hf) in Hoff.
  - intros (k & field & Hf & Hoff). destruct validation as [|kv rest] eqn:Hv; [|done].
    assert (k ∈ akeys (@nil (string * string))) as Hin by (apply Hkeys; eauto).
    by apply elem_of_nil in Hin.
Qed.

End Validation.

(** ** Property preparation *)

Section Preparation.
Context `{GoLib}.

Lemma selectIndex_resetFallback m params :
  selectIndex m (Some (resetFallback params)) = selectIndex m (Some params).
Proof. reflexivity. Qed.

Lemma needsFallback_resetFallback m op params :
  needsFallback m op (resetFallback params) = needsFallback m op params.
Proof. reflexivity. Qed.

(** The fallback of [needsFallback]: an operation other than find and scan
    through an index other than the primary one. *)
Lemma needsFallback_spec m op params :
  needsFallback m op params = true
  ↔ selectIndexName m (Some params) ≠ "primary" ∧ op ≠ "find" ∧ op ≠ "scan".
Proof.
  unfold needsFallback. rewrite !andb_true_iff, !negb_true_iff, !streq_false. tauto.
Qed.

(** C3 (amended): for an operation other than scan, the preparation either
    takes the fallback path and returns the properties it was given, with
    no check of the hash; or, when the record it collected has no value for
    the hash attribute of the active index, fails with the code Missing;
    or returns a record that has this value, which is the value of the
    primary hash when the active index is the primary one. *)
Theorem missing_hash_is_rejected
    (m : Model.t) (op : string) (props : Item) (params : Params.t) (index : IndexDef.t) :
  op ≠ "scan" →
  selectIndex m (Some params) = Some index →
  (needsFallback m op params = true →
   prepareProperties m op props params
   = Ok (SameProperties, props, Params.set_fallback true (resetFallback params)))
  ∧ (∀ rec props' params',
       needsFallback m op params = false →
       collectTop m op index props (resetFallback params) = Ok (rec, props', params') →
       prepareProperties m op props params
       = if Params.fallback params' then Ok (SameProperties, props', params')
         else if isNil (getHashValue m rec (Fields (Model.block m)) index)
         then Err (missingKey m op)
         else Ok (PreparedRecord rec, props', params'))
  ∧ (∀ rec props' params',
       prepareProperties m op props params = Ok (PreparedRecord rec, props', params') →
       isNil (getHashValue m rec (Fields (Model.block m)) index) = false
       ∧ (selectIndexName m (Some params) = "primary" →
          isNil (getHashValue m rec (Fields (Model.block m)) (primaryIndex m)) = false)).
Proof.
  intros Hop Hindex.
  assert (Hscan : negb (streq op "scan") = true)
    by (by apply negb_true_iff, streq_false).
  unfold prepareProperties.
  rewrite selectIndex_resetFallback, Hindex, needsFallback_resetFallback.
  split; [by intros ->|]. split.
  - intros rec props' params' -> ->. cbn [mbind outcome_bind obind]. by rewrite Hscan.
  - intros rec props' params' Hprep.
    destruct (needsFallback m op params); [done|].
    destruct (collectTop m op index props (resetFallback params))
      as [[[rec0 props0] params0]| | |]; cbn [mbind outcome_bind obind] in Hprep;
      [|done..].
    destruct (Params.fallback params0); [done|]. rewrite Hscan in Hprep.
    destruct (isNil (getHashValue m rec0 _ index)) eqn:Hnil; simpl in Hprep; [done|].
    injection Hprep as <- <- <-. split; [done|].
    intros Hprimary. revert Hindex Hprimary Hnil.
    unfold selectIndex, selectIndexName, primaryIndex, ahas.
    destruct (negb (streq (Params.Index params) "")
              && negb (streq (Params.Index params) "primary")) eqn:Hnamed; simpl.
    + destruct (alookup (Params.Index params) (Model.indexes m)).
      * intros _ Hname. rewrite Hname in Hnamed. by rewrite andb_false_r in Hnamed.
      * by intros -> _.
    + by intros -> _.
Qed.

End Preparation.

(** ** Reasoning about computations in the world *)

(** [x] keeps the invariant [I] of the world, whatever its outcome, and a
    value it returns satisfies [Q]. *)
Definition safe {A} (I : World → Prop) (x : W A) (Q : A → Prop) : Prop :=
  ∀ w, I w → I (x w).2 ∧ ∀ a, (x w).1 = Ok a → Q a.

Section Safe.
Context (I : World → Prop).

Lemma safe_ret {A} (a : A) (Q : A → Prop) : Q a → safe I (ret a) Q.
Proof. intros HQ w Hw. split; [done|]. by intros ? [= <-]. Qed.

Lemma safe_lift {A} (o : outcome A) (Q : A → Prop) :
  (∀ a, o = Ok a → Q a) → safe I (lift o) Q.
Proof. intros HQ w Hw. split; [done|]. apply HQ. Qed.

Lemma safe_fail {A} (e : error) (Q : A → Prop) : safe I (fail e) Q.
Proof. by apply safe_lift. Qed.

Lemma safe_bind {A B} (x : W A) (f : A → W B) (Q : A → Prop) (R : B → Prop) :
  safe I x Q → (∀ a, Q a → safe I (f a) R) → safe I (x ≫= f) R.
Proof.
  intros Hx Hf w Hw. destruct (Hx w Hw) as [Hw' HQ].
  unfold mbind, W_bind, wbind. destruct (x w) as [[a| | |] w']; simpl in *; [|done..].
  by apply (Hf a); [apply HQ|].
Qed.

Lemma safe_weaken {A} (x : W A) (Q R : A → Prop) :
  safe I x Q → (∀ a, Q a → R a) → safe I x R.
Proof. intros Hx HQR w Hw. destruct (Hx w Hw) as [? HQ]. split; [done|]. eauto. Qed.

Lemma safe_try {A} (x : W A) (Q : A → Prop) :
  safe I x Q → safe I (try x) (λ r, match r with inl _ => True | inr a => Q a end).
Proof.
  intros Hx w Hw. destruct (Hx w Hw) as [Hw' HQ]. unfold try.
  destruct (x w) as [[a| | |] w']; simpl in *; (split; [done|]); intros r [= <-]; eauto.
Qed.

Lemma safe_foldW {A B} (f : A → B → W B) (l : list A) (s : B) (R : B → Prop) :
  R s → (∀ a s, R s → safe I (f a s) R) → safe I (foldW f l s) R.
Proof.
  intros Hs Hf. revert s Hs. induction l as [|a l IH]; intros s Hs; simpl.
  - by apply safe_ret.
  - eapply safe_bind; [by apply Hf|]. intros s' Hs'. by apply IH.
Qed.
End Safe.

(** ** The map of the caller *)

Section Frame.
Context `{GoLib} `{Table}.
Variables (l : nat) (v : option Item).

(** The map at [l] exists and has the bindings [v]. *)
Definition keeps (w : World) : Prop := heap w !! l = v ∧ l < nextLoc w.

(** A computation that leaves the map at [l] as it is; one that moreover
    returns a map other than the one at [l]. *)
Abbreviation framed x := (safe keeps x (λ _, True)).
Abbreviation framedRef x := (safe keeps x (λ r, r.1 ≠ l)).

Lemma readMap_framed r : framed (readMap r).
Proof. intros w Hw. done. Qed.

Lemma writeMap_framed r item : r ≠ l → framed (writeMap r item).
Proof.
  intros Hr w [Hl Hn]. split; [|done]. split; [|done].
  simpl. by rewrite lookup_insert_ne.
Qed.

Lemma newMap_framed item : safe keeps (newMap item) (λ r, r ≠ l).
Proof.
  intros w [Hl Hn]. split.
  - split; simpl; [|lia]. rewrite lookup_insert_ne; [done|lia].
  - intros r [= <-]. lia.
Qed.

Lemma readTx_framed t : framed (readTx t).
Proof. intros w Hw. done. Qed.

Lemma writeTx_framed t tx : framed (writeTx t tx).
Proof. intros w [Hl Hn]. done. Qed.

Lemma newTx_framed : framed newTx.
Proof. intros w [Hl Hn]. done. Qed.

Lemma logCall_framed c : framed (logCall c).
Proof. intros w [Hl Hn]. done. Qed.

Lemma logBatched_framed t op cmd : framed (logBatched t op cmd).
Proof. intros w [Hl Hn]. done. Qed.

Lemma getCalls_framed : framed getCalls.
Proof. intros w Hw. done. Qed.

Lemma lift_framed {A} (o : outcome A) : framed (lift o).
Proof. by apply safe_lift. Qed.

Lemma framedRef_framed {A} (x : W (nat * A)) : framedRef x → framed x.
Proof. intros Hx. by eapply safe_weaken. Qed.

Lemma try_framed {A} (x : W A) : framed x → framed (try x).
Proof. intros Hx. eapply safe_weaken; [by apply safe_try|done]. Qed.

End Frame.

Create HintDb frame.

#[local] Hint Resolve readMap_framed writeMap_framed newMap_framed readTx_framed
  writeTx_framed newTx_framed logCall_framed logBatched_framed getCalls_framed
  lift_framed try_framed : frame.

(** One step through a computation: a bind whose first part a known fact
    covers, a return, or a case distinction of the code. *)
Ltac frame_names :=
  repeat match goal with
         | x : (_ * _)%type |- _ => destruct x
         | x : unit |- _ => destruct x
         end;
  cbn [fst snd] in *.

Ltac frame_inner := idtac.

Ltac frame_cont :=
  let a := fresh "a" in let Ha := fresh "Ha" in
  intros a Ha; frame_names; cbv beta iota zeta.

Ltac frame_step :=
  first
    [ apply safe_ret; cbn [fst snd]; solve [trivial]
    | apply safe_fail
    | solve [eauto with frame]
    | eapply safe_bind; [ solve [eauto with frame] | frame_cont ]
    | match goal with
      | |- safe (keeps ?l _) (_ ≫= _) _ =>
          first
            [ eapply (safe_bind _ _ _ (λ r, r.1 ≠ l)); [ solve [frame_inner] | frame_cont ]
            | eapply (safe_bind _ _ _ (λ _, True)); [ solve [frame_inner] | frame_cont ] ]
      end
    | apply (safe_foldW _ _ _ _ (λ _, True));
      [ done | intros ? ? _; frame_names; cbv beta iota zeta ]
    | match goal with
      | |- safe _ (if ?b then _ else _) _ => destruct b eqn:?
      | |- safe _ (match ?x with _ => _ end) _ => destruct x eqn:?
      end ].

Ltac frame := repeat frame_step.

Ltac frame_inner ::= frame.

Section FrameOps.
Context `{GoLib} `{Table}.
Variables (l : nat) (v : option Item).

Abbreviation framed x := (safe (keeps l v) x (λ _, True)).
Abbreviation framedRef x := (safe (keeps l v) x (λ r, r.1 ≠ l)).

Lemma execute_framed clientSet modelName op req params :
  framed (execute clientSet modelName op req params).
Proof. unfold execute. frame. Qed.

Lemma transactWrite_framed clientSet t params :
  framed (transactWrite clientSet t params).
Proof. unfold transactWrite. pose proof execute_framed. frame. Qed.

(** The parameters of a caller are not marked as checked. *)
Definition unchecked (params : option Params.t) : Prop :=
  match params with
  | Some p => Params.checked p = false
  | None => True
  end.

Lemma checkArgs_framed properties params overrides :
  (properties = l → unchecked params) →
  framedRef (checkArgs properties params overrides).
Proof.
  intros Hl. unfold checkArgs. destruct params as [p|]; simpl in Hl.
  - destruct (Params.checked p) eqn:Hc.
    + apply safe_ret. simpl. intros ->. by specialize (Hl eq_refl).
    + frame.
  - frame.
Qed.

Lemma prepareAt_framed m op properties params :
  properties ≠ l → framedRef (prepareAt m op properties params).
Proof. intros Hl. unfold prepareAt. frame. Qed.

Lemma expressionAt_framed m op properties params :
  properties ≠ l → framed (expressionAt m op properties params).
Proof. intros Hl. unfold expressionAt. frame. Qed.

#[local] Hint Resolve execute_framed transactWrite_framed checkArgs_framed
  prepareAt_framed expressionAt_framed : frame.

Lemma accumulateBatch_framed m op cmd e : framed (accumulateBatch m op cmd e).
Proof. unfold accumulateBatch. frame. Qed.

Lemma accumulateTransaction_framed m op cmd e t :
  framed (accumulateTransaction m op cmd e t).
Proof. unfold accumulateTransaction. frame. Qed.

#[local] Hint Resolve accumulateBatch_framed accumulateTransaction_framed : frame.

Lemma run_framed m op e : framed (run m op e).
Proof. unfold run. frame. Qed.

Lemma pageStep_framed m op cmd maxPages st : framed (pageStep m op cmd maxPages st).
Proof. unfold pageStep. frame. Qed.

#[local] Hint Resolve run_framed pageStep_framed : frame.

Lemma pageLoop_framed turns m op cmd maxPages st :
  framed (pageLoop turns m op cmd maxPages st).
Proof.
  revert st. induction turns as [|turns IH]; intros st; simpl; frame.
Qed.

#[local] Hint Resolve pageLoop_framed : frame.

Lemma putItem_framed m properties params :
  (properties = l → unchecked params) → framed (putItem m properties params).
Proof. intros Hl. unfold putItem. frame.
Qed.

Lemma getItem_framed m properties params :
  (properties = l → unchecked params) → framed (getItem m properties params).
Proof. intros Hl. unfold getItem. frame. Qed.

Lemma deleteItem_framed m properties params :
  (properties = l → unchecked params) → framed (deleteItem m properties params).
Proof. intros Hl. unfold deleteItem. frame. Qed.

Lemma stampUpdate_framed m properties params :
  properties ≠ l → framed (stampUpdate m properties params).
Proof. intros Hl. unfold stampUpdate. frame. Qed.

#[local] Hint Resolve stampUpdate_framed : frame.

Lemma updateItem_framed m properties params :
  (properties = l → unchecked params) → framed (updateItem m properties params).
Proof. intros Hl. unfold updateItem. frame. Qed.

Lemma initItem_framed m properties params :
  properties ≠ l → framed (initItem m properties params).
Proof. intros Hl. unfold initItem. frame. Qed.

Lemma openTransaction_framed params : framed (openTransaction params).
Proof. unfold openTransaction. frame. Qed.

#[local] Hint Resolve openTransaction_framed initItem_framed : frame.

(** Inside an operation every map is one the operation made. *)
Lemma inner_map properties (params : option Params.t) :
  properties ≠ l → properties = l → unchecked params.
Proof. by intros ? ?. Qed.

#[local] Hint Resolve inner_map : frame.
#[local] Hint Resolve putItem_framed getItem_framed deleteItem_framed
  updateItem_framed : frame.

(** The map a call between operations works on. *)
Definition callMap (c : call) : nat :=
  match c with
  | CallCreate _ r _ | CallGet _ r _ | CallFind _ r _ | CallRemove _ r _ => r
  end.

Section Calls.
Variable self : call → W (payload * Params.t).
Hypothesis self_framed : ∀ c, callMap c ≠ l → framed (self c).

Lemma self_call_framed c : callMap c ≠ l → framed (self c).
Proof. apply self_framed. Qed.

#[local] Hint Resolve self_call_framed : frame.

Lemma try_self_framed c :
  callMap c ≠ l → framed (try (self c)).
Proof. intros Hc. apply try_framed, self_framed, Hc. Qed.

#[local] Hint Resolve try_self_framed : frame.

Lemma followItems_framed m op items params :
  framed (followItems self m op items params).
Proof. unfold followItems. frame. Qed.

#[local] Hint Resolve followItems_framed : frame.

Lemma runMulti_framed m op e : framed (runMulti self m op e).
Proof. unfold runMulti. frame. Qed.

#[local] Hint Resolve runMulti_framed : frame.

Lemma queryItems_framed m properties params :
  (properties = l → unchecked params) → framed (queryItems self m properties params).
Proof. intros Hl. unfold queryItems. frame. Qed.

Lemma scanItems_framed m properties params :
  (properties = l → unchecked params) → framed (scanItems self m properties params).
Proof. intros Hl. unfold scanItems. frame. Qed.

#[local] Hint Resolve queryItems_framed scanItems_framed : frame.

Lemma createUnique_framed m properties params :
  properties ≠ l → framed (createUnique self m properties params).
Proof. intros Hl. unfold createUnique. frame. Qed.

Lemma priorItem_framed m props missing :
  framed missing → framed (priorItem self m props missing).
Proof. intros Hm. unfold priorItem. frame. Qed.

#[local] Hint Resolve createUnique_framed priorItem_framed : frame.

Lemma removeUnique_framed m properties params :
  properties ≠ l → framed (removeUnique self m properties params).
Proof. intros Hl. unfold removeUnique. frame. Qed.

Lemma moveSentinel_framed m props prior params t field :
  framed (moveSentinel self m props prior params t field).
Proof. unfold moveSentinel. frame. Qed.

#[local] Hint Resolve removeUnique_framed moveSentinel_framed : frame.

Lemma updateUnique_framed m properties params :
  properties ≠ l → framed (updateUnique self m properties params).
Proof. intros Hl. unfold updateUnique. frame. Qed.

#[local] Hint Resolve updateUnique_framed : frame.

Lemma removeByFind_framed m properties params :
  properties ≠ l → framed (removeByFind self m properties params).
Proof. intros Hl. unfold removeByFind. frame. Qed.

#[local] Hint Resolve removeByFind_framed : frame.

Lemma Create_framed m properties params :
  (properties = l → unchecked params) → framed (Create_ self m properties params).
Proof. intros Hl. unfold Create_. frame. Qed.

Lemma Find_framed m properties params :
  (properties = l → unchecked params) → framed (Find_ self m properties params).
Proof. intros Hl. unfold Find_. frame. Qed.

Lemma Scan_framed m properties params :
  (properties = l → unchecked params) → framed (Scan_ self m properties params).
Proof. intros Hl. unfold Scan_. frame. Qed.

Lemma Get_framed m properties params :
  (properties = l → unchecked params) → framed (Get_ self m properties params).
Proof. intros Hl. unfold Get_. frame. Qed.

Lemma updateWith_framed m properties params overrides :
  (properties = l → unchecked params) →
  framed (updateWith self m properties params overrides).
Proof. intros Hl. unfold updateWith. frame. Qed.

Lemma Remove_framed m properties params :
  (properties = l → unchecked params) → framed (Remove_ self m properties params).
Proof. intros Hl. unfold Remove_. frame. Qed.

End Calls.

Lemma Init_framed m properties params :
  (properties = l → unchecked params) → framed (Init m properties params).
Proof. intros Hl. unfold Init. frame. Qed.

Lemma dispatch_framed depth c : callMap c ≠ l → framed (dispatch depth c).
Proof.
  revert c. induction depth as [|depth IH]; intros c Hc; simpl; [frame|].
  destruct c as [m r p|m r p|m r p|m r p]; simpl in Hc.
  - eapply safe_bind; [apply Create_framed; [done|by intros ?]|intros; frame].
  - eapply safe_bind; [apply Get_framed; [done|by intros ?]|intros; frame].
  - eapply safe_bind; [apply Find_framed; [done|by intros ?]|intros; frame].
  - eapply safe_bind; [apply Remove_framed; [done|by intros ?]|intros; frame].
Qed.

End FrameOps.

(** ** The public operations and the map of the caller *)

Section CallerMap.
Context `{GoLib} `{Table}.


End CallerMap.

(** * Further properties of the code *)

(** ** The client calls of [execute] and of the pagination loop *)

Section Pagination.
Context `{GoLib} `{Table}.

(** An outcome that is a value or a returned error. *)
Definition returns {A} (o : outcome A) : Prop :=
  match o with Ok _ | Err _ => True | _ => False end.

Lemma execute_calls clientSet modelName op req params w :
  returns (execute clientSet modelName op req params w).1
  ∧ (calls (execute clientSet modelName op req params w).2 = calls w
     ∨ calls (execute clientSet modelName op req params w).2
       = calls w ++ [mkCall modelName op req]).
Proof.
  unfold execute. destruct (negb _); [by split; [|left]|].
  destruct (negb _); [by split; [|left]|].
  unfold mbind, W_bind, wbind, getCalls, logCall. simpl.
  destruct (client _ _); simpl; (split; [done|by right]).
Qed.

Lemma pageStep_calls m op cmd maxPages st w :
  returns (pageStep m op cmd maxPages st w).1
  ∧ ∃ new, calls (pageStep m op cmd maxPages st w).2 = calls w ++ new
           ∧ length new ≤ 1
           ∧ ∀ st' more, (pageStep m op cmd maxPages st w).1 = Ok (st', more) →
               more = true → (pgPages st' = pgPages st + 1 ∧ pgPages st' < maxPages)%Z.
Proof.
  unfold pageStep, mbind, W_bind, wbind.
  pose proof (execute_calls (Model.table_client m) (Model.Name m) op
                (ReqCommand cmd (pgStoredKey st)) (pgParams st) w) as [Hret Hcalls].
  assert (∃ new, calls (execute (Model.table_client m) (Model.Name m) op
                          (ReqCommand cmd (pgStoredKey st)) (pgParams st) w).2
                 = calls w ++ new ∧ length new ≤ 1) as (new & Hnew & Hlen).
  { destruct Hcalls as [->| ->].
    - exists []. rewrite app_nil_r. split; [done|simpl; lia].
    - eexists. split; [done|]. simpl. lia. }
  destruct (execute _ _ _ _ _ w) as [[result| | |] w'] eqn:Hx; simpl in *; try done.
  - destruct (_ && _); simpl.
    + split; [done|]. exists new. split; [done|]. split; [done|].
      by intros ?? [= <- <-].
    + split; [done|]. exists new. split; [done|]. split; [done|].
      intros st' more [= <- <-] Hmore. simpl. split; [done|].
      apply negb_true_iff, orb_false_iff in Hmore as [_ Hcap].
      apply Z.leb_gt in Hcap. lia.
  - split; [done|]. exists new. by split; [|split].
Qed.

Lemma pageLoop_calls turns m op cmd maxPages : ∀ st w,
  1 ≤ turns → (maxPages ≤ pgPages st + Z.of_nat turns)%Z →
  returns (pageLoop turns m op cmd maxPages st w).1
  ∧ ∃ new, calls (pageLoop turns m op cmd maxPages st w).2 = calls w ++ new
           ∧ length new ≤ turns.
Proof.
  induction turns as [|turns IH]; intros st w Hturns Hcap; [lia|].
  cbn [pageLoop]. unfold mbind, W_bind, wbind.
  destruct (pageStep_calls m op cmd maxPages st w) as (Hret & new & Hnew & Hlen & Hmore).
  destruct (pageStep m op cmd maxPages st w) as [[[st' more]| | |] w'] eqn:Hstep;
    simpl in *; try done.
  - destruct more.
    + destruct (Hmore st' true eq_refl eq_refl) as [Hpages Hbelow].
      destruct (IH st' w') as (Hret' & new' & Hnew' & Hlen'); [lia..|].
      split; [done|]. exists (new ++ new'). rewrite Hnew', Hnew, app_assoc.
      split; [done|]. rewrite length_app. lia.
    + split; [done|]. exists new. split; [done|lia].
  - split; [done|]. exists new. split; [done|lia].
Qed.

(** The number of turns the loop of [runMulti] is given. *)
Definition pageTurns (params : Params.t) : nat := Z.to_nat (Z.max 1 (pageCap params)).

(** X2: the pagination loop of [runMulti], started as [runMulti] starts it,
    always ends, with a result or with the error of a client call, after at
    most as many client calls as the page cap allows: [MaxPages] pages, or
    1000 when [MaxPages] is zero, and one call when it is negative. *)
Theorem pagination_ends_within_cap
    (m : Model.t) (op : string) (cmd : Command.t) (params : Params.t) (w : World) :
  let run := pageLoop (pageTurns params) m op cmd (pageCap params)
               (mkPaging None [] None 0 0 params) w in
  returns run.1
  ∧ ∃ new, calls run.2 = calls w ++ new
           ∧ length new ≤ pageTurns params
           ∧ (Params.MaxPages params = 0%Z → length new ≤ 1000)
           ∧ (0 < Params.MaxPages params → Z.of_nat (length new) ≤ Params.MaxPages params)%Z
           ∧ ((Params.MaxPages params < 0)%Z → length new ≤ 1).
Proof.
  intros run. subst run.
  destruct (pageLoop_calls (pageTurns params) m op cmd (pageCap params)
              (mkPaging None [] None 0 0 params) w) as (Hret & new & Hnew & Hlen).
  { unfold pageTurns. lia. }
  { unfold pageTurns. simpl. lia. }
  split; [done|]. exists new. split; [done|]. split; [done|].
  revert Hlen. unfold pageTurns, pageCap, sanityPages.
  destruct (Z.eqb_spec (Params.MaxPages params) 0); lia.
Qed.

End Pagination.

(** ** What property preparation does to the parameters *)

Lemma bind_Ok {A B} (x : outcome A) (f : A → outcome B) (b : B) :
  x ≫= f = Ok b → ∃ a, x = Ok a ∧ f a = Ok b.
Proof. destruct x as [a| | |]; [|done..]. intros Hf. by exists a. Qed.

Lemma foldM_Ok_inv {A S} (I : S → Prop) (f : A → S → outcome S) (l : list A) :
  (∀ a s s', I s → f a s = Ok s' → I s') →
  ∀ s s', I s → foldM f l s = Ok s' → I s'.
Proof.
  intros Hstep. induction l as [|a l IH]; intros s s' Hs Hfold; simpl in Hfold.
  - by injection Hfold as <-.
  - apply bind_Ok in Hfold as (s1 & Hf & Hrest). eauto.
Qed.

(** The parameters without the three fields the preparation writes. *)
Definition requestOf (p : Params.t) : Params.t :=
  Params.set_fallback false (Params.set_Batch None (Params.set_Remove None p)).

(** [p'] is [p] but for the fallback mark and for attributes appended to
    the [Remove] list. *)
Definition extendsRemove (p p' : Params.t) : Prop :=
  requestOf p' = requestOf p
  ∧ Params.Batch p' = Params.Batch p
  ∧ ∃ more, default [] (Params.Remove p') = default [] (Params.Remove p) ++ more.

Lemma extendsRemove_refl p : extendsRemove p p.
Proof. repeat split. exists []. by rewrite app_nil_r. Qed.

Lemma extendsRemove_trans p1 p2 p3 :
  extendsRemove p1 p2 → extendsRemove p2 p3 → extendsRemove p1 p3.
Proof.
  intros (Hr1 & Hb1 & more1 & Hm1) (Hr2 & Hb2 & more2 & Hm2).
  split; [congruence|]. split; [congruence|].
  exists (more1 ++ more2). by rewrite Hm2, Hm1, app_assoc.
Qed.

Lemma extendsRemove_fallback b p : extendsRemove p (Params.set_fallback b p).
Proof. repeat split. exists []. by rewrite app_nil_r. Qed.

Lemma extendsRemove_append path p :
  extendsRemove p
    (Params.set_Remove (Some (default [] (Params.Remove p) ++ [path])) p).
Proof. repeat split. by exists [path]. Qed.

Section PreparationParams.
Context `{GoLib}.

Lemma convertNulls_extends pathname fields props params :
  extendsRemove params (convertNulls pathname fields props params).2.
Proof.
  unfold convertNulls.
  generalize props at 2. intros entries.
  assert (extendsRemove params (props, params).2) as Hinit
    by apply extendsRemove_refl.
  revert Hinit. generalize (props, params). intros st Hst. revert st Hst.
  induction entries as [|[name v] entries IH]; intros [ps p] Hst; [done|].
  cbn [foldl]. apply IH.
  destruct (alookup name fields) as [field|]; [|done].
  destruct (hasBlock field); [done|].
  destruct (isNil v && negb (Nulls field)); [|done].
  destruct (Required field); [done|]. simpl in *.
  eapply extendsRemove_trans; [exact Hst|apply extendsRemove_append].
Qed.

Lemma selectProperties_extends m op block top index props params rec :
  extendsRemove params (selectProperties m op block top index props params rec).2.
Proof.
  unfold selectProperties. destruct (selectFields _ _ _ _ _ _ _ _ _) as [rec' stopped].
  destruct stopped; [apply extendsRemove_fallback|].
  destruct top; apply extendsRemove_refl.
Qed.

Lemma collectProperties_extends fuel : ∀ m op pathname block top index properties
    params context rec props params',
  collectProperties fuel m op pathname block top index properties params context
    = Ok (rec, props, params') →
  extendsRemove params params'.
Proof.
  induction fuel as [|fuel IH]; intros m op pathname block top index properties
    params context rec props params' Hrun; [done|].
  cbn [collectProperties] in Hrun. cbv zeta in Hrun.
  apply bind_Ok in Hrun as ([[rec1 props1] params1] & Hnested & Hrun).
  assert (extendsRemove params params1) as H1.
  { destruct (Model.nested m && negb (keysOnlyOp op));
      [|simplify_eq; apply extendsRemove_refl].
    match type of Hnested with
    | foldM ?F _ _ = _ =>
        assert (∀ a s s', extendsRemove params s.2 → F a s = Ok s' →
                          extendsRemove params s'.2) as Hstep
    end.
    { clear -IH. intros [name field] [[rec p] q] [[rec' p'] q'] Hq Hstep. simpl in *.
      destruct (Block field) as [sub|]; [|by simplify_eq].
      match type of Hstep with (if ?b then _ else _) = _ => destruct b end;
        [by simplify_eq|].
      destruct (IsArray field).
      - match type of Hstep with (match ?x with _ => _ end) = _ =>
          destruct x as [| | | | | | | |arr|]; try by simplify_eq end.
        apply bind_Ok in Hstep as ([[[result arr'] q1] i] & Hfold & Hstep).
        injection Hstep as <- <- <-.
        match type of Hfold with
        | foldM ?G _ _ = _ =>
            assert (∀ a s s', extendsRemove params s.1.2 → G a s = Ok s' →
                              extendsRemove params s'.1.2) as Helems
        end.
        { intros elem [[[r1 a1] q2] i1] [[[r2 a2] q3] i2] Hq2 Helem. simpl in *.
          apply bind_Ok in Helem as ([[obj em'] q4] & Hsub & Helem).
          injection Helem as <- <- <- <-.
          eapply extendsRemove_trans; [exact Hq2|]. by eapply IH. }
        exact (foldM_Ok_inv (λ acc, extendsRemove params acc.1.2) _ _ Helems
                 ([], [], q, 0) _ Hq Hfold).
      - apply bind_Ok in Hstep as ([[obj vm'] q1] & Hsub & Hstep).
        injection Hstep as <- <- <-.
        eapply extendsRemove_trans; [exact Hq|]. by eapply IH. }
    exact (foldM_Ok_inv (λ st, extendsRemove params st.2) _ _ Hstep
             ([], default [] properties, params) _ (extendsRemove_refl params)
             Hnested). }
  cbn beta iota in Hrun.
  apply bind_Ok in Hrun as (props2 & _ & Hrun).
  apply bind_Ok in Hrun as (props3 & _ & Hrun).
  apply bind_Ok in Hrun as (props4 & _ & Hrun).
  apply bind_Ok in Hrun as (props4' & _ & Hrun).
  pose proof (convertNulls_extends pathname (Fields block) props4' params1) as H2.
  destruct (convertNulls pathname (Fields block) props4' params1) as [props5 params2].
  apply bind_Ok in Hrun as ([] & _ & Hrun).
  pose proof (selectProperties_extends m op block top index props5 params2 rec1) as H3.
  destruct (selectProperties m op block top index props5 params2 rec1) as [rec2 params3].
  apply bind_Ok in Hrun as (rec3 & _ & Hrun). injection Hrun as <- <- <-.
  simpl in *. eauto using extendsRemove_trans.
Qed.

(** What [prepareProperties] does to the parameters. *)
Lemma prepareProperties_request
    (m : Model.t) (op : string) (props : Item) (params : Params.t)
    (result : prepared) (props' : Item) (params' : Params.t) :
  prepareProperties m op props params = Ok (result, props', params') →
  requestOf params' = requestOf params
  ∧ Params.Batch params' = option_map (adelete "fallback") (Params.Batch params)
  ∧ (∃ more, default [] (Params.Remove params')
             = default [] (Params.Remove params) ++ more)
  ∧ Params.Index params' = Params.Index params
  ∧ Params.Transaction params' = Params.Transaction params
  ∧ Params.Exists params' = Params.Exists params
  ∧ updateKeys params ⊆ updateKeys params'.
Proof.
  intros Hprep.
  assert (extendsRemove (resetFallback params) params') as (Hreq & Hbatch & more & Hmore).
  { unfold prepareProperties in Hprep.
    destruct (selectIndex m (Some (resetFallback params))) as [index|]; [|done].
    destruct (needsFallback m op (resetFallback params)).
    { injection Hprep as <- <- <-. apply extendsRemove_fallback. }
    apply bind_Ok in Hprep as ([[rec props1] params1] & Hcollect & Hprep).
    apply collectProperties_extends in Hcollect.
    destruct (Params.fallback params1); [by simplify_eq|].
    destruct (_ && _); by simplify_eq. }
  assert (Hreq' : requestOf params' = requestOf params) by (by rewrite Hreq).
  split; [done|]. split; [done|]. split; [by exists more|].
  split; [exact (f_equal Params.Index Hreq')|].
  split; [exact (f_equal Params.Transaction Hreq')|].
  split; [exact (f_equal Params.Exists Hreq')|].
  unfold updateKeys.
  rewrite <-(f_equal Params.Add Hreq' : Params.Add params' = Params.Add params).
  rewrite <-(f_equal Params.Delete Hreq' : Params.Delete params' = Params.Delete params).
  rewrite <-(f_equal Params.Set_ Hreq' : Params.Set_ params' = Params.Set_ params).
  rewrite <-(f_equal Params.Push Hreq' : Params.Push params' = Params.Push params).
  simpl in Hmore. rewrite Hmore. set_solver.
Qed.

(** X3: of the parameters it is given, [prepareProperties] changes nothing
    but the fallback mark, the "fallback" entry of the batch, and the
    [Remove] list, to which it only appends (the attributes whose nil
    value it dropped): the index, the transaction, the conditions and the
    update options of the request come back as they went in. *)
Theorem preparation_keeps_the_request
    (m : Model.t) (op : string) (props : Item) (params : Params.t)
    (result : prepared) (props' : Item) (params' : Params.t) :
  prepareProperties m op props params = Ok (result, props', params') →
  requestOf params' = requestOf params
  ∧ Params.Batch params' = option_map (adelete "fallback") (Params.Batch params)
  ∧ (∃ more, default [] (Params.Remove params')
             = default [] (Params.Remove params) ++ more)
  ∧ Params.Index params' = Params.Index params
  ∧ Params.Transaction params' = Params.Transaction params
  ∧ Params.Exists params' = Params.Exists params
  ∧ updateKeys params ⊆ updateKeys params'.
Proof. apply prepareProperties_request. Qed.

End PreparationParams.

(** ** Value templates never replace a property *)

Section TemplatesKeep.
Context `{GoLib}.

Lemma templateStep_keeps m op index field props props' k v :
  templateStep m op index field props = Ok props' →
  alookup k props = Some v → alookup k props' = Some v.
Proof.
  unfold templateStep. intros Hstep Hk.
  destruct (hasBlock field); [by simplify_eq|].
  destruct (_ && _); [by simplify_eq|].
  destruct (streq (ValueTemplate field) ""); [by simplify_eq|].
  destruct (ahas (Name field) props) eqn:Hhas; [by simplify_eq|].
  apply bind_Ok in Hstep as (val & _ & Hstep). injection Hstep as <-.
  destruct (isNil val); [done|].
  rewrite alookup_ainsert_ne; [done|]. intros Heq.
  unfold ahas in Hhas. by rewrite Heq, Hk in Hhas.
Qed.

Lemma templateStep_adds m op index field props props' k :
  templateStep m op index field props = Ok props' →
  alookup k props = None → is_Some (alookup k props') →
  k = Name field ∧ ValueTemplate field ≠ "".
Proof.
  unfold templateStep. intros Hstep Hk Hnew.
  destruct (hasBlock field); [simplify_eq; by destruct Hnew; congruence|].
  destruct (_ && _); [simplify_eq; by destruct Hnew; congruence|].
  destruct (streq (ValueTemplate field) "") eqn:Htmpl;
    [simplify_eq; by destruct Hnew; congruence|].
  destruct (ahas (Name field) props); [simplify_eq; by destruct Hnew; congruence|].
  apply bind_Ok in Hstep as (val & _ & Hstep). injection Hstep as <-.
  destruct (isNil val); [by destruct Hnew; congruence|].
  apply streq_false in Htmpl. split; [|done].
  destruct (decide (Name field = k)) as [<-|Hne]; [done|].
  rewrite alookup_ainsert_ne in Hnew by done. destruct Hnew; congruence.
Qed.

(** X4: the value templates never replace a property: every binding of
    the properties, a nil one included, is still there with the same
    value after [runTemplates], and a binding that is new belongs to a
    field of the dependency list that has a value template. *)
Theorem templates_never_overwrite
    (m : Model.t) (op : string) (index : IndexDef.t) (deps : list preparedField)
    (props props' : Item) :
  runTemplates m op index deps props = Ok props' →
  (∀ k v, alookup k props = Some v → alookup k props' = Some v)
  ∧ (∀ k, alookup k props = None → is_Some (alookup k props') →
       ∃ field, field ∈ deps ∧ Name field = k ∧ ValueTemplate field ≠ "").
Proof.
  unfold runTemplates. revert props.
  induction deps as [|field deps IH]; intros props Hrun; simpl in Hrun.
  - injection Hrun as <-. split; [done|]. intros k -> [? ?]. done.
  - apply bind_Ok in Hrun as (props1 & Hstep & Hrest).
    destruct (IH _ Hrest) as [Hkeep Hadd]. split.
    + intros k v Hk. apply Hkeep. by eapply templateStep_keeps.
    + intros k Hk Hnew. destruct (alookup k props1) as [v1|] eqn:Hk1.
      * destruct (templateStep_adds m op index field props props1 k Hstep Hk)
          as [Hname Htmpl]; [by rewrite Hk1|].
        exists field. split; [left|done].
      * destruct (Hadd k Hk1 Hnew) as (f & Hin & Hname & Htmpl).
        exists f. split; [by right|done].
Qed.

End TemplatesKeep.

(** ** The padding of a template token *)

Fixpoint copies (k : nat) (pad : string) : string :=
  match k with
  | 0 => ""
  | S k' => copies k' pad +:+ pad
  end.

Lemma app_string_cons ch a b : String ch a +:+ b = String ch (a +:+ b).
Proof. reflexivity. Qed.

Lemma length_app_string a b : String.length (a +:+ b) = String.length a + String.length b.
Proof.
  induction a as [|ch a IH]; [done|]. rewrite app_string_cons. simpl. by rewrite IH.
Qed.

Lemma app_string_assoc a b c : (a +:+ b) +:+ c = a +:+ (b +:+ c).
Proof.
  induction a as [|ch a IH]; [done|]. rewrite !app_string_cons. by rewrite IH.
Qed.

Lemma padLoop_copies fuel : ∀ s pad n,
  pad ≠ "" →
  (n - Z.of_nat (String.length s) ≤ Z.of_nat fuel)%Z →
  ∃ k, padLoop fuel s pad n = copies k pad +:+ s
       ∧ (n ≤ Z.of_nat (String.length (copies k pad +:+ s)))%Z
       ∧ (∀ j, j < k → (Z.of_nat (String.length (copies j pad +:+ s)) < n)%Z).
Proof.
  induction fuel as [|fuel IH]; intros s pad n Hpad Hfuel; simpl.
  - exists 0. split; [done|]. split; [rewrite length_app_string; simpl; lia|].
    intros; lia.
  - case_bool_decide as Hshort.
    + assert (1 ≤ String.length pad) as Hlen by (destruct pad; [done|simpl; lia]).
      destruct (IH (pad +:+ s) pad n Hpad) as (k & Hk & Hn & Hmin).
      { rewrite length_app_string. lia. }
      exists (S k). simpl. rewrite app_string_assoc. split; [done|]. split; [done|].
      intros [|j] Hj; simpl; [done|].
      rewrite app_string_assoc. apply Hmin. lia.
    + exists 0. split; [done|]. split; [rewrite length_app_string; simpl; lia|].
      intros; lia.
Qed.

(** X5: the padding of a template token [${name:len:pad}] with a pad that
    is not empty returns the text with whole copies of the pad in front
    of it, as few as make it at least [len] bytes long (none when it
    already is); with an empty pad and a text that is too short the
    padding loop never ends. *)
Theorem padLeft_pads_to_length (s pad : string) (n : Z) :
  (pad ≠ "" →
   ∃ k, padLeft s pad n = Ok (copies k pad +:+ s)
        ∧ (n ≤ Z.of_nat (String.length (copies k pad +:+ s)))%Z
        ∧ (∀ j, j < k → (Z.of_nat (String.length (copies j pad +:+ s)) < n)%Z))
  ∧ (pad = "" → (Z.of_nat (String.length s) < n)%Z → padLeft s pad n = Hang)
  ∧ ((n ≤ Z.of_nat (String.length s))%Z → padLeft s pad n = Ok s).
Proof.
  unfold padLeft. split; [|split].
  - intros Hpad. case_bool_decide as Hshort.
    + unfold streq. rewrite bool_decide_eq_false_2 by done.
      destruct (padLoop_copies (Z.to_nat (n - Z.of_nat (String.length s))) s pad n Hpad)
        as (k & -> & Hk); [lia|]. by exists k.
    + exists 0. split; [done|]. split; [rewrite length_app_string; simpl; lia|].
      intros; lia.
  - intros -> Hshort. by rewrite bool_decide_eq_true_2.
  - intros Hlong. by rewrite bool_decide_eq_false_2 by lia.
Qed.

(** ** The errors of the client and their classification *)

Section ClientErrors.
Context `{GoLib} `{Table}.

(** X6: whatever the operation, [execute] turns an error of the client
    into an error with the code Runtime without losing its text as the
    cause, and [isConditionalFailed] recognises it when that text names a
    failed condition check or a cancelled transaction; no call reaches the
    client when neither the table nor the parameters have one, or when
    the operation is unknown. *)
Theorem client_errors_are_classified
    (clientSet : bool) (modelName op msg : string) (req : request) (params : Params.t)
    (w : World) :
  (clientSet || Params.Client params = false ∨ containsStr executeOps op = false →
   calls (execute clientSet modelName op req params w).2 = calls w
   ∧ ∃ text, (execute clientSet modelName op req params w).1
             = Err (OneTableArgError text ErrArgument))
  ∧ (clientSet || Params.Client params = true → containsStr executeOps op = true →
     client (calls w) (mkCall modelName op req) = ClientError msg →
     calls (execute clientSet modelName op req params w).2
       = calls w ++ [mkCall modelName op req]
     ∧ ∃ text, (execute clientSet modelName op req params w).1
               = Err (OneTableCaused text ErrRuntime msg)
       ∧ (contains msg "ConditionalCheckFailed" = true
          ∨ contains msg "TransactionCanceledException" = true →
          isConditionalFailed (OneTableCaused text ErrRuntime msg) = true)).
Proof.
  unfold execute. split.
  - intros [Hclient|Hop].
    + rewrite Hclient. simpl. split; [done|]. by eexists.
    + destruct (negb _); [split; [done|]; by eexists|].
      rewrite Hop. simpl. split; [done|]. by eexists.
  - intros -> -> Hreply. simpl.
    unfold mbind, W_bind, wbind, getCalls, logCall. simpl. rewrite Hreply. simpl.
    split; [done|].
    assert (∃ text, executeError modelName op msg = OneTableCaused text ErrRuntime msg)
      as [text ->].
    { unfold executeError. repeat case_match; by eexists. }
    exists text. split; [done|].
    intros Hmsg. unfold isConditionalFailed.
    destruct Hmsg as [-> | ->]; by rewrite ?orb_true_r.
Qed.

End ClientErrors.

(** ** An update of a key attribute never reaches the client *)

(** The items of the transaction collector [t]. *)
Definition itemsOf (w : World) (t : nat) : list (string * Command.t) :=
  txItems (default (mkTx None []) (txs w !! t)).

(** Nothing went to the client, to a batch or to a transaction since [w0]. *)
Definition quiet (w0 w : World) : Prop :=
  calls w = calls w0 ∧ batched w = batched w0 ∧ ∀ t, itemsOf w t = itemsOf w0 t.

Section Quiet.
Context `{GoLib} `{Table}.
Variable w0 : World.

Lemma readMap_quiet r Q : (∀ item, Q item) → safe (quiet w0) (readMap r) Q.
Proof. intros HQ w Hw. split; [done|]. intros; apply HQ. Qed.

Lemma writeMap_quiet r item : safe (quiet w0) (writeMap r item) (λ _, True).
Proof. intros w Hw. done. Qed.

Lemma newMap_quiet item : safe (quiet w0) (newMap item) (λ _, True).
Proof. intros w Hw. done. Qed.

Lemma readTx_quiet t : safe (quiet w0) (readTx t) (λ _, True).
Proof. intros w Hw. done. Qed.

Lemma stampTx_quiet t stamp :
  safe (quiet w0)
    (tx ← readTx t; writeTx t (mkTx stamp (txItems tx))) (λ _, True).
Proof.
  intros w (Hc & Hb & Hi). split; [|done]. split; [done|]. split; [done|].
  intros t'. rewrite <-Hi. unfold itemsOf. simpl.
  destruct (decide (t = t')) as [->|Hne].
  - by rewrite lookup_insert_eq.
  - by rewrite lookup_insert_ne.
Qed.

Lemma checkArgs_quiet properties params overrides Q :
  (∀ r, Q (r, match params with
              | Some p => if Params.checked p then p else mergeParams params overrides
              | None => mergeParams params overrides
              end)) →
  safe (quiet w0) (checkArgs properties params overrides) Q.
Proof.
  intros HQ w Hw. unfold checkArgs. destruct params as [p|].
  - destruct (Params.checked p).
    + split; [done|]. intros ? [= <-]. apply HQ.
    + split; [done|]. intros ? [= <-]. apply HQ.
  - split; [done|]. intros ? [= <-]. apply HQ.
Qed.

Lemma prepareAt_quiet m op properties params :
  safe (quiet w0) (prepareAt m op properties params)
    (λ r, Params.Index r.2 = Params.Index params
          ∧ updateKeys params ⊆ updateKeys r.2).
Proof.
  intros w Hw. unfold prepareAt, mbind, W_bind, wbind, readMap, lift. simpl.
  destruct (prepareProperties m op _ params) as [[[result props'] params']| | |] eqn:Hprep;
    simpl; [|done..].
  destruct (prepareProperties_request m op _ params result props' params' Hprep)
    as (_ & _ & _ & Hindex & _ & _ & Hkeys).
  destruct result; simpl; (split; [done|]); by intros ? [= <-].
Qed.

Lemma akeys_ainsert {V} k (x : V) (m : list (string * V)) k' :
  k' ∈ akeys m → k' ∈ akeys (ainsert k x m).
Proof.
  rewrite <-!alookup_is_Some_keys, alookup_ainsert_is_Some. by right.
Qed.

Lemma selectIndex_by_name m p p' :
  Params.Index p' = Params.Index p → selectIndex m (Some p') = selectIndex m (Some p).
Proof. unfold selectIndex. by intros ->. Qed.

Lemma mergeParams_keeps_request p :
  Params.Index (mergeParams (Some p) None) = Params.Index p
  ∧ updateKeys p ⊆ updateKeys (mergeParams (Some p) None).
Proof.
  split.
  - simpl. unfold pickText. by destruct (streq (Params.Index p) "") eqn:Heq;
      [apply streq_true in Heq|].
  - unfold updateKeys. simpl. unfold pick.
    destruct (Params.Add p), (Params.Delete p), (Params.Remove p), (Params.Set_ p),
      (Params.Push p); simpl; set_solver.
Qed.

Lemma stampUpdate_quiet m properties params :
  safe (quiet w0) (stampUpdate m properties params)
    (λ p', Params.Index p' = Params.Index params
           ∧ updateKeys params ⊆ updateKeys p').
Proof.
  assert (Hset : ∀ x, updateKeys params
                      ⊆ updateKeys (Params.set_Set_
                                      (Some (ainsert (Model.createdField m) x
                                               (default [] (Params.Set_ params))))
                                      params)).
  { intros x. unfold updateKeys. simpl. intros k Hk.
    repeat (apply elem_of_app in Hk as [Hk|Hk]); try set_solver.
    do 3 (apply elem_of_app; right). apply elem_of_app. left. by apply akeys_ainsert. }
  unfold stampUpdate. destruct (tsUpdate _); [|by apply safe_ret].
  eapply (safe_bind _ _ _ (λ _, True)).
  { destruct (Params.Transaction params) as [t|]; [|by apply safe_ret].
    intros w (Hc & Hb & Hi). unfold mbind, W_bind, wbind, readTx, writeTx, ret. simpl.
    destruct (txTimestamp _) eqn:Hstamp; simpl; (split; [|done]); [done|].
    split; [done|]. split; [done|]. intros t'. rewrite <-Hi. unfold itemsOf. simpl.
    destruct (decide (t = t')) as [->|Hne].
    - by rewrite lookup_insert_eq.
    - by rewrite lookup_insert_ne. }
  intros now _. eapply (safe_bind _ _ _ (λ _, True)); [by apply readMap_quiet|].
  intros props _.
  eapply safe_bind; [apply writeMap_quiet|]. intros [] _.
  destruct (_ && _); by apply safe_ret.
Qed.

Lemma expressionAt_rejects m properties params idx key :
  selectIndex m (Some params) = Some idx →
  key ∈ updateKeys params →
  key = IndexDef.Hash idx ∨ key = IndexDef.Sort idx →
  safe (quiet w0) (expressionAt m "update" properties params) (λ _, False).
Proof.
  intros Hidx Hkey Hk w Hw.
  unfold expressionAt, mbind, W_bind, wbind, readMap, lift. simpl.
  destruct (newExpression_update_rejects m (default [] (heap w !! properties)) params
              idx key Hidx Hkey Hk) as [[_ ->]|[_ (msg & -> & _)]]; by simpl.
Qed.

End Quiet.

Section UpdateKeys.
Context `{GoLib} `{Table}.

(** X7: an update whose [Add], [Delete], [Remove], [Set] or [Push] option
    names the hash or the sort attribute of the active index never reaches
    the client: [updateItem] does not return a result (it panics in the
    builder with the argument error, or fails before), and it leaves the
    log of client calls, the batch and the items of every transaction as
    they were. *)
Theorem update_of_key_never_reaches_client
    (m : Model.t) (properties : nat) (params : Params.t) (idx : IndexDef.t)
    (key : string) (w : World) :
  selectIndex m (Some params) = Some idx →
  key ∈ updateKeys params →
  key = IndexDef.Hash idx ∨ key = IndexDef.Sort idx →
  isOk (updateItem m properties (Some params) w).1 = false
  ∧ calls (updateItem m properties (Some params) w).2 = calls w
  ∧ batched (updateItem m properties (Some params) w).2 = batched w
  ∧ ∀ t, itemsOf (updateItem m properties (Some params) w).2 t = itemsOf w t.
Proof.
  intros Hidx Hkey Hk.
  assert (Hsafe : safe (quiet w) (updateItem m properties (Some params)) (λ _, False)).
  { unfold updateItem.
    eapply (safe_bind _ _ _ (λ r, Params.Index r.2 = Params.Index params
                                  ∧ updateKeys params ⊆ updateKeys r.2)).
    { apply checkArgs_quiet. intros r. cbn [fst snd].
      destruct (Params.checked params); [done|]. apply mergeParams_keeps_request. }
    intros [r p1] [Hi1 Hk1]. cbn [fst snd] in *.
    eapply safe_bind; [apply stampUpdate_quiet|]. intros p2 [Hi2 Hk2].
    eapply safe_bind; [apply prepareAt_quiet|]. intros [r' p3] [Hi3 Hk3].
    cbn [fst snd] in *.
    eapply (safe_bind _ _ _ (λ _, False)); [|by intros ? []].
    apply (expressionAt_rejects w m r' p3 idx key); [| |exact Hk].
    - rewrite <-Hidx. apply selectIndex_by_name. congruence.
    - apply Hk3, Hk2, Hk1, Hkey. }
  destruct (Hsafe w) as [(Hc & Hb & Hi) Hnever]; [done|].
  split; [|done].
  destruct (updateItem m properties (Some params) w).1 as [a| | |] eqn:Hr; [|done..].
  by destruct (Hnever a).
Qed.

End UpdateKeys.

(** ** The placeholders of the expression builder *)

#[local] Arguments addName : simpl never.
#[local] Arguments addValue : simpl never.
#[local] Arguments newValue : simpl never.
#[local] Arguments addValueExp : simpl never.
#[local] Arguments makeTarget : simpl never.
#[local] Arguments prepareKey : simpl never.
#[local] Arguments prepareKeyValue : simpl never.
#[local] Arguments expand : simpl never.
#[local] Arguments expandSub : simpl never.

(** A placeholder has its entry in the table of the expression. *)
Definition coveredAtom (e : Expression.t) (a : atom) : Prop :=
  match a with
  | Ch _ => True
  | NameRef n => is_Some (Expression.names e !! nameKey n)
  | ValueRef i => is_Some (Expression.values e !! valueKey i)
  end.

Definition coveredRope (e : Expression.t) (r : rope) : Prop := Forall (coveredAtom e) r.

(** The expression strings the builder collects. *)
Definition ropesOf (e : Expression.t) : list rope :=
  Expression.conditions e ++ Expression.filters e ++ Expression.keys e
  ++ Expression.project e ++ u_add (Expression.updates e)
  ++ u_del (Expression.updates e) ++ u_remove (Expression.updates e)
  ++ u_set (Expression.updates e).

(** The state of the tables: every placeholder of a collected string has
    its entry, the de-duplication maps point to entries, and the entries
    are below the counters. *)
Record tablesGood (e : Expression.t) : Prop := {
  good_ropes : Forall (coveredRope e) (ropesOf e);
  good_namesMap : ∀ n i, Expression.namesMap e !! n = Some i →
                         Expression.names e !! nameKey i = Some n;
  good_valuesMap : ∀ k i, Expression.valuesMap e !! k = Some i →
                          is_Some (Expression.values e !! valueKey i);
  good_nindex : ∀ i, is_Some (Expression.names e !! nameKey i) → i < Expression.nindex e;
  good_vindex : ∀ i, is_Some (Expression.values e !! valueKey i) → i < Expression.vindex e;
}.

(** [e'] is [e] after some steps of the builder: the same core, tables
    that kept every entry, and conditions that kept every string. *)
Record grows (e e' : Expression.t) : Prop := {
  grows_core : sameCore e e';
  grows_names : Expression.names e ⊆ Expression.names e';
  grows_values : Expression.values e ⊆ Expression.values e';
  grows_conditions : Expression.conditions e ⊆ Expression.conditions e';
}.

Lemma grows_refl e : grows e e.
Proof. split; [apply sameCore_refl|done..]. Qed.

Lemma grows_trans e1 e2 e3 : grows e1 e2 → grows e2 e3 → grows e1 e3.
Proof.
  intros [] []. split; [by eapply sameCore_trans|by etrans..].
Qed.

Lemma coveredAtom_grows e e' a : grows e e' → coveredAtom e a → coveredAtom e' a.
Proof.
  intros [_ Hn Hv _]. destruct a as [c|n|i]; simpl; [done|..]; intros [x Hx].
  - exists x. by eapply lookup_weaken.
  - exists x. by eapply lookup_weaken.
Qed.

Lemma coveredRope_grows e e' r : grows e e' → coveredRope e r → coveredRope e' r.
Proof.
  intros Hg Hr. eapply Forall_impl; [exact Hr|]. intros a. by apply coveredAtom_grows.
Qed.

Lemma coveredRope_lit e s : coveredRope e (lit s).
Proof. induction s; simpl; by constructor. Qed.

Lemma coveredRope_app e r1 r2 : coveredRope e r1 → coveredRope e r2 → coveredRope e (r1 ++ r2).
Proof. intros. by apply Forall_app. Qed.

Lemma coveredRope_join e sep rs :
  Forall (coveredRope e) rs → coveredRope e (joinRopes sep rs).
Proof.
  induction 1 as [|r rs Hr Hrs IH]; simpl; [constructor|].
  destruct rs; [done|]. apply coveredRope_app; [done|].
  apply coveredRope_app; [apply coveredRope_lit|done].
Qed.


Section BuilderTables.
Context `{GoLib}.

Lemma addName_good n e :
  tablesGood e →
  tablesGood (addName n e).2 ∧ grows e (addName n e).2
  ∧ Expression.names (addName n e).2 !! nameKey (addName n e).1 = Some n.
Proof.
  intros [Hr Hnm Hvm Hni Hvi]. unfold addName.
  destruct (Expression.namesMap e !! n) as [i|] eqn:Hn; simpl.
  { split; [done|]. split; [apply grows_refl|]. by apply Hnm. }
  assert (Hfresh : Expression.names e !! nameKey (Expression.nindex e) = None).
  { destruct (Expression.names e !! nameKey _) eqn:Hl; [|done].
    assert (Expression.nindex e < Expression.nindex e); [|lia]. apply Hni. by eexists. }
  assert (Hg : grows e
            (Expression.set_namesMap (<[n := Expression.nindex e]> (Expression.namesMap e))
               (Expression.set_names
                  (<[nameKey (Expression.nindex e) := n]> (Expression.names e))
                  (Expression.set_nindex (S (Expression.nindex e)) e)))).
  { split; simpl; [by repeat split| |done..]. by apply insert_subseteq. }
  split; [|split; [done|by rewrite lookup_insert_eq]].
  split; simpl.
  - eapply Forall_impl; [exact Hr|]. intros r. by apply coveredRope_grows.
  - intros n' i. destruct (decide (n = n')) as [->|Hne].
    + rewrite lookup_insert_eq. intros [= <-]. by rewrite lookup_insert_eq.
    + rewrite lookup_insert_ne by done. intros Hi.
      rewrite lookup_insert_ne; [by apply Hnm|].
      intros Heq%nameKey_inj. subst i.
      assert (Expression.nindex e < Expression.nindex e); [|lia].
      apply Hni. rewrite (Hnm _ _ Hi). by eexists.
  - done.
  - intros i. destruct (decide (i = Expression.nindex e)) as [->|Hne]; [lia|].
    rewrite lookup_insert_ne by (by intros ?%nameKey_inj). intros Hi%Hni. lia.
  - done.
Qed.

Lemma newValue_good v e :
  tablesGood e →
  tablesGood (newValue v e).2 ∧ grows e (newValue v e).2
  ∧ Expression.values (newValue v e).2 !! valueKey (newValue v e).1 = Some v
  ∧ Expression.valuesMap (newValue v e).2 = Expression.valuesMap e
  ∧ (newValue v e).1 = Expression.vindex e.
Proof.
  intros [Hr Hnm Hvm Hni Hvi]. unfold newValue. simpl.
  assert (Hfresh : Expression.values e !! valueKey (Expression.vindex e) = None).
  { destruct (Expression.values e !! valueKey _) eqn:Hl; [|done].
    assert (Expression.vindex e < Expression.vindex e); [|lia]. apply Hvi. by eexists. }
  assert (Hg : grows e
            (Expression.set_values
               (<[valueKey (Expression.vindex e) := v]> (Expression.values e))
               (Expression.set_vindex (S (Expression.vindex e)) e))).
  { split; simpl; [by repeat split|done| |done]. by apply insert_subseteq. }
  split; [|split; [done|split; [by rewrite lookup_insert_eq|done]]].
  split; simpl.
  - eapply Forall_impl; [exact Hr|]. intros r. by apply coveredRope_grows.
  - done.
  - intros k i Hi. destruct (decide (i = Expression.vindex e)) as [->|Hne].
    + rewrite lookup_insert_eq. by eexists.
    + rewrite lookup_insert_ne by (by intros ?%valueKey_inj). by eapply Hvm.
  - done.
  - intros i. destruct (decide (i = Expression.vindex e)) as [->|Hne]; [lia|].
    rewrite lookup_insert_ne by (by intros ?%valueKey_inj). intros Hi%Hvi. lia.
Qed.

Lemma addValue_good v e :
  tablesGood e →
  tablesGood (addValue v e).2 ∧ grows e (addValue v e).2
  ∧ is_Some (Expression.values (addValue v e).2 !! valueKey (addValue v e).1).
Proof.
  intros He. unfold addValue.
  destruct (negb (isNil v) && negb (noDedup v)).
  - destruct (Expression.valuesMap e !! fmtV v) as [i|] eqn:Hk.
    { cbn [fst snd]. split; [done|]. split; [apply grows_refl|]. by eapply good_valuesMap. }
    destruct (newValue_good v e He) as (Hgood & Hg & Hval & Hmap & Hidx).
    unfold newValue in *. cbn [fst snd] in *.
    split; [|split].
    + destruct Hgood as [Hr Hnm Hvm Hni Hvi]. split; [exact Hr|exact Hnm| |exact Hni|exact Hvi].
      intros k i. simpl.
      destruct (decide (fmtV v = k)) as [<-|Hne].
      * rewrite lookup_insert_eq. intros [= <-]. rewrite lookup_insert_eq. by eexists.
      * rewrite lookup_insert_ne by done. apply Hvm.
    + destruct Hg as [Hc Hn Hv Hcond]. split; [exact Hc|exact Hn|exact Hv|exact Hcond].
    + simpl. rewrite lookup_insert_eq. by eexists.
  - destruct (newValue_good v e He) as (Hgood & Hg & Hval & _).
    split; [done|]. split; [done|]. by eexists.
Qed.


(** [e'] is a later state of the builder that started in the good state
    [e]. *)
Definition built (e e' : Expression.t) : Prop := tablesGood e' ∧ grows e e'.

Lemma built_refl e : tablesGood e → built e e.
Proof. intros He. split; [done|apply grows_refl]. Qed.

Lemma built_trans e1 e2 e3 : built e1 e2 → built e2 e3 → built e1 e3.
Proof. intros [_ H1] [H2 H3]. split; [done|by eapply grows_trans]. Qed.

Lemma built_rope e e' r : built e e' → coveredRope e r → coveredRope e' r.
Proof. intros [_ Hg]. by apply coveredRope_grows. Qed.

Lemma built_ropes e e' rs :
  built e e' → Forall (coveredRope e) rs → Forall (coveredRope e') rs.
Proof. intros Hb Hrs. eapply Forall_impl; [exact Hrs|]. intros r. by apply built_rope. Qed.

(** A step that leaves the tables alone and collects covered strings. *)
Lemma built_same e e' :
  tablesGood e → sameCore e e' →
  Expression.names e' = Expression.names e →
  Expression.namesMap e' = Expression.namesMap e →
  Expression.values e' = Expression.values e →
  Expression.valuesMap e' = Expression.valuesMap e →
  Expression.nindex e' = Expression.nindex e →
  Expression.vindex e' = Expression.vindex e →
  Expression.conditions e ⊆ Expression.conditions e' →
  Forall (coveredRope e) (ropesOf e') →
  built e e'.
Proof.
  intros [Hr Hnm Hvm Hni Hvi] Hc En Enm Ev Evm Eni Evi Hcond Hropes.
  assert (Hg : grows e e').
  { split; [done|by rewrite En|by rewrite Ev|done]. }
  split; [|done]. split.
  - eapply Forall_impl; [exact Hropes|]. intros r. by apply coveredRope_grows.
  - intros n i. rewrite Enm, En. apply Hnm.
  - intros k i. rewrite Evm, Ev. apply Hvm.
  - intros i. rewrite En, Eni. apply Hni.
  - intros i. rewrite Ev, Evi. apply Hvi.
Qed.

(** The result of a step: a later state, and an output that the tables of
    that state cover. *)
Definition yields {A} (cov : Expression.t → A → Prop) (e : Expression.t)
    (r : A * Expression.t) : Prop :=
  built e r.2 ∧ cov r.2 r.1.

Definition coveredName (e : Expression.t) (n : nat) : Prop := coveredAtom e (NameRef n).
Definition coveredValue (e : Expression.t) (i : nat) : Prop := coveredAtom e (ValueRef i).
Definition coveredRopes (e : Expression.t) (rs : list rope) : Prop :=
  Forall (coveredRope e) rs.

Lemma addName_built n e : tablesGood e → yields coveredName e (addName n e).
Proof.
  intros He. destruct (addName_good n e He) as (Hg & Hgr & Hl).
  split; [by split|]. unfold coveredName. simpl. by eexists.
Qed.

Lemma addValue_built v e : tablesGood e → yields coveredValue e (addValue v e).
Proof.
  intros He. destruct (addValue_good v e He) as (Hg & Hgr & Hl). by split.
Qed.

Lemma addValueExp_built v e : tablesGood e → yields coveredRope e (addValueExp v e).
Proof.
  intros He. unfold addValueExp. destruct (addValue_built v e He) as [Hb Hc].
  destruct (addValue v e) as [idx e1]. split; [done|]. by constructor.
Qed.

Lemma addValues_built vs : ∀ e, tablesGood e → yields coveredRopes e (addValues vs e).
Proof.
  induction vs as [|v vs IH]; intros e He; cbn [addValues].
  { split; [by apply built_refl|constructor]. }
  destruct (addValue_built v e He) as [Hb Hc].
  destruct (addValue v e) as [idx e1]. cbn [fst snd] in *.
  destruct (IH e1 (proj1 Hb)) as [Hb2 Hc2].
  destruct (addValues vs e1) as [r e2]. cbn [fst snd] in *.
  split; [by eapply built_trans|]. constructor; [|done].
  eapply built_rope; [exact Hb2|]. by constructor.
Qed.

Lemma makeTargetParts_built parts : ∀ fields e,
  tablesGood e → yields coveredRopes e (makeTargetParts fields parts e).
Proof.
  induction parts as [|part parts IH]; intros fields e He; cbn [makeTargetParts].
  { split; [by apply built_refl|constructor]. }
  destruct (match cutAt "[" part with Some (pre, post) => (pre, post) | None => (part, "") end)
    as [p subscript].
  destruct (match alookup p fields with
            | Some f => (att0 f, match Block f with Some b => Fields b | None => [] end)
            | None => (p, [])
            end) as [att fields'].
  destruct (addName_built att e He) as [Hb Hc].
  destruct (addName att e) as [idx e1]. cbn [fst snd] in *.
  destruct (IH fields' e1 (proj1 Hb)) as [Hb2 Hc2].
  destruct (makeTargetParts fields' parts e1) as [targets e2]. cbn [fst snd] in *.
  split; [by eapply built_trans|]. constructor; [|done].
  eapply built_rope; [exact Hb2|]. constructor; [done|apply coveredRope_lit].
Qed.

Lemma makeTarget_built fields name e :
  tablesGood e → yields coveredRope e (makeTarget fields name e).
Proof.
  intros He. unfold makeTarget.
  destruct (makeTargetParts_built (splitOn "." name) fields e He) as [Hb Hc].
  destruct (makeTargetParts fields _ e) as [targets e1]. cbn [fst snd] in *.
  split; [done|]. by apply coveredRope_join.
Qed.

Lemma ropesOf_set_already x e : ropesOf (Expression.set_already x e) = ropesOf e.
Proof. done. Qed.

Lemma prepareKey_built key e : tablesGood e → yields coveredRope e (prepareKey key e).
Proof.
  intros He. unfold prepareKey.
  assert (Hb0 : built e (Expression.set_already (key :: Expression.already e) e)).
  { apply built_same; try done. apply He. }
  destruct (makeTarget_built (Fields (Model.block (Expression.model e))) key _ (proj1 Hb0))
    as [Hb Hc].
  split; [|done]. by eapply built_trans.
Qed.

Lemma expandVars_built toks : ∀ e, tablesGood e → yields coveredRope e (expandVars toks e).
Proof.
  induction toks as [|[c|inner] toks IH]; intros e He; cbn [expandVars].
  - split; [by apply built_refl|constructor].
  - destruct (IH e He) as [Hb Hc]. destruct (expandVars toks e) as [r e1].
    cbn [fst snd] in *. split; [done|]. by constructor.
  - destruct (makeTarget_built (Fields (Model.block (Expression.model e))) inner e He)
      as [Hb Hc].
    destruct (makeTarget _ inner e) as [t e1]. cbn [fst snd] in *.
    destruct (IH e1 (proj1 Hb)) as [Hb2 Hc2].
    destruct (expandVars toks e1) as [r e2]. cbn [fst snd] in *.
    split; [by eapply built_trans|]. apply coveredRope_app; [|done].
    by eapply built_rope.
Qed.

(** What is left of a string after a scan: the atoms outside the tokens. *)
Definition coveredTok (e : Expression.t) (t : tok2) : Prop :=
  match t with T2Atom a => coveredAtom e a | T2Match _ => True end.

Lemma scanSubs_covered e r : ∀ skip,
  coveredRope e r → Forall (coveredTok e) (scanSubs skip r).
Proof.
  induction r as [|a r IH]; intros skip Hr; [constructor|].
  apply Forall_cons in Hr as [Ha Hr]. cbn [scanSubs].
  destruct skip as [|k]; [|by apply IH].
  destruct r as [|b r'']; [by repeat constructor|].
  destruct (isCh "@" a && isCh "{" b).
  - destruct (closeBrace r'') as [[|i inner]|].
    + constructor; [done|by apply IH].
    + constructor; [done|by apply IH].
    + constructor; [done|by apply IH].
  - constructor; [done|by apply IH].
Qed.

Lemma scanLits_covered e r : ∀ skip,
  coveredRope e r → Forall (coveredTok e) (scanLits skip r).
Proof.
  induction r as [|a r IH]; intros skip Hr; [constructor|].
  apply Forall_cons in Hr as [Ha Hr]. cbn [scanLits].
  destruct skip as [|k]; [|by apply IH].
  destruct (isCh "{" a).
  - destruct (closeBrace r); constructor; try done; by apply IH.
  - constructor; [done|by apply IH].
Qed.

Lemma coveredTok_built e e' toks :
  built e e' → Forall (coveredTok e) toks → Forall (coveredTok e') toks.
Proof.
  intros [_ Hg] Ht. eapply Forall_impl; [exact Ht|].
  intros [a|inner]; [|done]. by apply coveredAtom_grows.
Qed.

(** A step that can fail: what holds of its result. *)
Definition okThen {A} (R : A → Prop) (x : outcome A) : Prop := ∀ a, x = Ok a → R a.

Lemma okThen_Ok {A} (R : A → Prop) a : R a → okThen R (Ok a).
Proof. intros Ha b [= <-]. done. Qed.

Lemma okThen_bind {A B} (R : A → Prop) (R' : B → Prop) (x : outcome A) (f : A → outcome B) :
  okThen R x → (∀ a, R a → okThen R' (f a)) → okThen R' (x ≫= f).
Proof.
  intros Hx Hf b Hb. apply bind_Ok in Hb as (a & Ha & Hb). by eapply Hf; [apply Hx|].
Qed.

Lemma okThen_fold {A S} (I : S → Prop) (f : A → S → outcome S) (l : list A) :
  (∀ a s, I s → okThen I (f a s)) → ∀ s, I s → okThen I (foldM f l s).
Proof.
  intros Hstep s Hs s' Hfold. eapply (foldM_Ok_inv I f l); [|exact Hs|exact Hfold].
  intros a s1 s2 H1 Hf. by eapply Hstep.
Qed.

Lemma expandSub_built inner e :
  tablesGood e → okThen (yields coveredRope e) (expandSub inner e).
Proof.
  intros He. unfold expandSub.
  destruct (Params.Substitutions (Expression.params e)) as [subs|]; [|done].
  destruct (isNil _); [done|].
  destruct (isPrefix "..." (render inner));
    [|by apply okThen_Ok, addValueExp_built].
  destruct (aget _ subs) as [| | | | | | | |arr|];
    try (by apply okThen_Ok, addValueExp_built).
  destruct (addValues_built arr e He) as [Hb Hc].
  destruct (addValues arr e) as [idxs e1]. cbn [fst snd] in *.
  apply okThen_Ok. split; [done|]. by apply coveredRope_join.
Qed.

Lemma expandSubs_built toks : ∀ e,
  tablesGood e → Forall (coveredTok e) toks →
  okThen (yields coveredRope e) (expandSubs toks e).
Proof.
  induction toks as [|[a|inner] toks IH]; intros e He Ht; cbn [expandSubs].
  - apply okThen_Ok. split; [by apply built_refl|constructor].
  - apply Forall_cons in Ht as [Ha Ht].
    eapply okThen_bind; [by apply IH|]. intros [r e1] [Hb Hc]. cbn [fst snd] in *.
    apply okThen_Ok. split; [done|]. constructor; [|done].
    eapply coveredAtom_grows; [apply Hb|done].
  - apply Forall_cons in Ht as [_ Ht].
    eapply okThen_bind; [by apply expandSub_built|]. intros [t e1] [Hb Hc].
    cbn [fst snd] in *.
    eapply okThen_bind; [apply IH; [apply Hb|by eapply coveredTok_built]|].
    intros [r e2] [Hb2 Hc2]. cbn [fst snd] in *.
    apply okThen_Ok. split; [by eapply built_trans|].
    apply coveredRope_app; [by eapply built_rope|done].
Qed.

Lemma expandLits_built toks : ∀ e,
  tablesGood e → Forall (coveredTok e) toks → yields coveredRope e (expandLits toks e).
Proof.
  induction toks as [|[a|inner] toks IH]; intros e He Ht; cbn [expandLits].
  - split; [by apply built_refl|constructor].
  - apply Forall_cons in Ht as [Ha Ht].
    destruct (IH e He Ht) as [Hb Hc]. destruct (expandLits toks e) as [r e1].
    cbn [fst snd] in *. split; [done|]. constructor; [|done].
    eapply coveredAtom_grows; [apply Hb|done].
  - apply Forall_cons in Ht as [_ Ht].
    destruct (addValueExp_built (literalValue (render inner)) e He) as [Hb Hc].
    destruct (addValueExp _ e) as [t e1]. cbn [fst snd] in *.
    destruct (IH e1 (proj1 Hb) (coveredTok_built _ _ _ Hb Ht)) as [Hb2 Hc2].
    destruct (expandLits toks e1) as [r e2]. cbn [fst snd] in *.
    split; [by eapply built_trans|].
    apply coveredRope_app; [by eapply built_rope|done].
Qed.

Lemma expand_built w e : tablesGood e → okThen (yields coveredRope e) (expand w e).
Proof.
  intros He. unfold expand.
  destruct (expandVars_built (scanVars 0 w) e He) as [Hb Hc].
  destruct (expandVars _ e) as [r1 e1]. cbn [fst snd] in *.
  eapply okThen_bind; [apply expandSubs_built; [apply Hb|by apply scanSubs_covered]|].
  intros [r2 e2] [Hb2 Hc2]. cbn [fst snd] in *.
  apply okThen_Ok.
  destruct (expandLits_built (scanLits 0 r2) e2 (proj1 Hb2) (scanLits_covered _ _ _ Hc2))
    as [Hb3 Hc3].
  split; [|done]. eapply built_trans; [exact Hb|]. by eapply built_trans.
Qed.

Definition coveredPair (e : Expression.t) (tv : rope * rope) : Prop :=
  coveredRope e tv.1 ∧ coveredRope e tv.2.

Lemma prepareKeyValue_built key v e :
  tablesGood e → okThen (yields coveredPair e) (prepareKeyValue key v e).
Proof.
  intros He. unfold prepareKeyValue.
  destruct (prepareKey_built key e He) as [Hb Hc].
  destruct (prepareKey key e) as [target e1]. cbn [fst snd] in *.
  assert (Hplain : ∀ w, okThen (yields coveredPair e)
                          (let '(variable, e2) := addValueExp w e1 in
                           Ok (target, variable, e2))).
  { intros w. destruct (addValueExp_built w e1 (proj1 Hb)) as [Hb2 Hc2].
    destruct (addValueExp w e1) as [variable e2]. cbn [fst snd] in *.
    apply okThen_Ok. split; [by eapply built_trans|].
    split; [by eapply built_rope|done]. }
  destruct v; try apply Hplain.
  destruct (containsAny _ _); [|apply Hplain].
  eapply okThen_bind; [apply expand_built, Hb|]. intros [variable e2] [Hb2 Hc2].
  cbn [fst snd] in *. apply okThen_Ok. split; [by eapply built_trans|].
  split; [by eapply built_rope|done].
Qed.


Lemma ropesOf_Forall (P : rope → Prop) e :
  Forall P (ropesOf e) ↔
    Forall P (Expression.conditions e) ∧ Forall P (Expression.filters e)
    ∧ Forall P (Expression.keys e) ∧ Forall P (Expression.project e)
    ∧ Forall P (u_add (Expression.updates e)) ∧ Forall P (u_del (Expression.updates e))
    ∧ Forall P (u_remove (Expression.updates e)) ∧ Forall P (u_set (Expression.updates e)).
Proof. unfold ropesOf. by rewrite !Forall_app. Qed.

Ltac ropes He :=
  let Hr := fresh "Hr" in
  pose proof (good_ropes _ He) as Hr;
  apply ropesOf_Forall in Hr; apply ropesOf_Forall; simpl;
  rewrite ?Forall_app, ?Forall_singleton; intuition.

Ltac same He :=
  apply built_same;
  [exact He|by repeat split|done..| |ropes He];
  first [done | simpl; intros ? ?; apply elem_of_app; by left].

Lemma pushFilter_built r e :
  tablesGood e → coveredRope e r →
  built e (Expression.set_filters (Expression.filters e ++ [r]) e).
Proof. intros He Hr. same He. Qed.

Lemma pushKey_built r e : tablesGood e → coveredRope e r → built e (pushKey r e).
Proof. intros He Hr. unfold pushKey. same He. Qed.

Lemma pushSet_built r e : tablesGood e → coveredRope e r → built e (pushSet r e).
Proof. intros He Hr. unfold pushSet. same He. Qed.

Lemma pushCondition_built r e : tablesGood e → coveredRope e r → built e (pushCondition r e).
Proof. intros He Hr. unfold pushCondition. same He. Qed.

Lemma pushProject_built r e :
  tablesGood e → coveredRope e r →
  built e (Expression.set_project (Expression.project e ++ [r]) e).
Proof. intros He Hr. same He. Qed.

Lemma addFilter_built field path v e :
  tablesGood e → okThen (built e) (addFilter field path v e).
Proof.
  intros He. unfold addFilter.
  destruct (_ || _); [by apply okThen_Ok, built_refl|].
  eapply okThen_bind; [by apply prepareKeyValue_built|].
  intros [[target variable] e1] [Hb [Ht Hv]]. cbn [fst snd] in *.
  apply okThen_Ok. eapply built_trans; [exact Hb|].
  apply pushFilter_built; [apply Hb|].
  apply coveredRope_app; [done|]. apply coveredRope_app; [apply coveredRope_lit|done].
Qed.

Lemma nameValue_built att v e :
  tablesGood e →
  ∀ n e1 i e2, addName att e = (n, e1) → addValue v e1 = (i, e2) →
  built e e2 ∧ coveredRope e2 [NameRef n] ∧ coveredRope e2 [ValueRef i].
Proof.
  intros He n e1 i e2 Hn Hv.
  destruct (addName_built att e He) as [Hb Hc]. rewrite Hn in Hb, Hc. cbn [fst snd] in *.
  destruct (addValue_built v e1 (proj1 Hb)) as [Hb2 Hc2]. rewrite Hv in Hb2, Hc2.
  cbn [fst snd] in *.
  split; [by eapply built_trans|]. split; [|by constructor].
  eapply built_rope; [exact Hb2|]. by constructor.
Qed.

Lemma addGenericFilter_built att v e : tablesGood e → built e (addGenericFilter att v e).
Proof.
  intros He. unfold addGenericFilter.
  destruct (addName att e) as [n e1] eqn:Hn. destruct (addValue v e1) as [i e2] eqn:Hv.
  destruct (nameValue_built att v e He _ _ _ _ Hn Hv) as (Hb & Hcn & Hcv).
  eapply built_trans; [exact Hb|]. apply pushFilter_built; [apply Hb|].
  apply coveredRope_app; [done|]. apply coveredRope_app; [apply coveredRope_lit|done].
Qed.

Lemma addWhereFilters_built e : tablesGood e → okThen (built e) (addWhereFilters e).
Proof.
  intros He. unfold addWhereFilters.
  destruct (streq _ _); [by apply okThen_Ok, built_refl|].
  eapply okThen_bind; [by apply expand_built|]. intros [w e1] [Hb Hc]. cbn [fst snd] in *.
  apply okThen_Ok. eapply built_trans; [exact Hb|]. apply pushFilter_built; [apply Hb|done].
Qed.

Lemma addKeyAction_built att obj entry e :
  tablesGood e → okThen (built e) (addKeyAction att obj entry e).
Proof.
  intros He. destruct entry as [action vars]. unfold addKeyAction.
  destruct (negb _); [done|].
  destruct (_ || _).
  { destruct (addName att e) as [n e1] eqn:Hn. destruct (addValue vars e1) as [i e2] eqn:Hv.
    destruct (nameValue_built att vars e He _ _ _ _ Hn Hv) as (Hb & Hcn & Hcv).
    apply okThen_Ok. eapply built_trans; [exact Hb|]. apply pushKey_built; [apply Hb|].
    repeat (apply coveredRope_app; [first [done|apply coveredRope_lit]|]).
    apply coveredRope_lit. }
  destruct (streq action "between").
  { destruct vars as [| | | | | | | |[|a [|b [|c l]]]|];
      try (by apply okThen_Ok, built_refl).
    destruct (addName att e) as [n e1] eqn:Hn. destruct (addValue a e1) as [i e2] eqn:Hv.
    destruct (nameValue_built att a e He _ _ _ _ Hn Hv) as (Hb & Hcn & Hcv).
    destruct (addValue_built b e2 (proj1 Hb)) as [Hb3 Hc3].
    destruct (addValue b e2) as [j e3]. cbn [fst snd] in *.
    apply okThen_Ok. eapply built_trans; [exact Hb|]. eapply built_trans; [exact Hb3|].
    apply pushKey_built; [apply Hb3|].
    apply coveredRope_app; [by eapply built_rope|].
    apply coveredRope_app; [apply coveredRope_lit|].
    apply coveredRope_app; [by eapply built_rope|].
    apply coveredRope_app; [apply coveredRope_lit|]. by constructor. }
  destruct (addName att e) as [n e1] eqn:Hn.
  destruct (addValue (aget action obj) e1) as [i e2] eqn:Hv.
  destruct (nameValue_built att _ e He _ _ _ _ Hn Hv) as (Hb & Hcn & Hcv).
  apply okThen_Ok. eapply built_trans; [exact Hb|]. apply pushKey_built; [apply Hb|].
  repeat (apply coveredRope_app; [first [done|apply coveredRope_lit]|]). done.
Qed.

Lemma addKey_built op field v e : tablesGood e → okThen (built e) (addKey op field v e).
Proof.
  intros He. unfold addKey.
  assert (Heq : okThen (built e)
                  (let '(n, e1) := addName (att0 field) e in
                   let '(i, e2) := addValue v e1 in
                   Ok (pushKey ([NameRef n] ++ lit " = " ++ [ValueRef i]) e2))).
  { destruct (addName (att0 field) e) as [n e1] eqn:Hn.
    destruct (addValue v e1) as [i e2] eqn:Hv.
    destruct (nameValue_built _ v e He _ _ _ _ Hn Hv) as (Hb & Hcn & Hcv).
    apply okThen_Ok. eapply built_trans; [exact Hb|]. apply pushKey_built; [apply Hb|].
    apply coveredRope_app; [done|]. apply coveredRope_app; [apply coveredRope_lit|done]. }
  destruct (streq op "find").
  - destruct (streq _ (Expression.sort e)); [|exact Heq].
    destruct v as [| | | | | | | | |[|entry obj]]; try exact Heq.
    apply (okThen_fold (built e)); [|by apply built_refl].
    intros a s Hs. intros s' Hs'. eapply built_trans; [exact Hs|].
    by eapply (addKeyAction_built _ _ _ _ (proj1 Hs)).
  - apply okThen_Ok. same He.
Qed.

Lemma addUpdate_built field path v e : tablesGood e → built e (addUpdate field path v e).
Proof.
  intros He. unfold addUpdate.
  destruct (_ || _); [by apply built_refl|].
  destruct (_ && _); [by apply built_refl|].
  destruct (containsStr _ _); [by apply built_refl|].
  destruct (prepareKey_built path e He) as [Hb Hc].
  destruct (prepareKey path e) as [target e1]. cbn [fst snd] in *.
  destruct (addValueExp_built v e1 (proj1 Hb)) as [Hb2 Hc2].
  destruct (addValueExp v e1) as [variable e2]. cbn [fst snd] in *.
  eapply built_trans; [exact Hb|]. eapply built_trans; [exact Hb2|].
  apply pushSet_built; [apply Hb2|].
  apply coveredRope_app; [by eapply built_rope|].
  apply coveredRope_app; [apply coveredRope_lit|done].
Qed.


Lemma okThen_assert key what e {A} (R : A → Prop) (x : outcome A) :
  okThen R x → okThen R (_ ← assertNotPartition key what e; x).
Proof. intros Hx. apply (okThen_bind (λ _, True)); [by intros ? _|]. by intros _ _. Qed.

Lemma updAdd_built entry e : tablesGood e → okThen (built e) (updAdd entry e).
Proof.
  intros He. destruct entry as [key v]. unfold updAdd. apply okThen_assert.
  eapply okThen_bind; [by apply prepareKeyValue_built|].
  intros [[target variable] e1] [Hb [Ht Hv]]. cbn [fst snd] in *.
  apply okThen_Ok. eapply built_trans; [exact Hb|].
  assert (Hc : coveredRope e1 (target ++ lit " " ++ variable)).
  { apply coveredRope_app; [done|]. apply coveredRope_app; [apply coveredRope_lit|done]. }
  pose proof (proj1 Hb) as He1. same He1.
Qed.

Lemma updDelete_built entry e : tablesGood e → okThen (built e) (updDelete entry e).
Proof.
  intros He. destruct entry as [key v]. unfold updDelete. apply okThen_assert.
  eapply okThen_bind; [by apply prepareKeyValue_built|].
  intros [[target variable] e1] [Hb [Ht Hv]]. cbn [fst snd] in *.
  apply okThen_Ok. eapply built_trans; [exact Hb|].
  assert (Hc : coveredRope e1 (target ++ lit " " ++ variable)).
  { apply coveredRope_app; [done|]. apply coveredRope_app; [apply coveredRope_lit|done]. }
  pose proof (proj1 Hb) as He1. same He1.
Qed.

Lemma updRemove_built key e : tablesGood e → okThen (built e) (updRemove key e).
Proof.
  intros He. unfold updRemove. apply okThen_assert.
  destruct (prepareKey_built key e He) as [Hb Hc].
  destruct (prepareKey key e) as [target e1]. cbn [fst snd] in *.
  apply okThen_Ok. eapply built_trans; [exact Hb|].
  pose proof (proj1 Hb) as He1. same He1.
Qed.

Lemma updSet_built entry e : tablesGood e → okThen (built e) (updSet entry e).
Proof.
  intros He. destruct entry as [key v]. unfold updSet. apply okThen_assert.
  eapply okThen_bind; [by apply prepareKeyValue_built|].
  intros [[target variable] e1] [Hb [Ht Hv]]. cbn [fst snd] in *.
  apply okThen_Ok. eapply built_trans; [exact Hb|]. apply pushSet_built; [apply Hb|].
  apply coveredRope_app; [done|]. apply coveredRope_app; [apply coveredRope_lit|done].
Qed.

Lemma updPush_built entry e : tablesGood e → okThen (built e) (updPush entry e).
Proof.
  intros He. destruct entry as [key v]. unfold updPush. apply okThen_assert.
  destruct (addValue_built (VList []) e He) as [Hb1 Hc1].
  destruct (addValue (VList []) e) as [emptyIdx e1]. cbn [fst snd] in *.
  destruct (addValue_built (VList (asSlice v)) e1 (proj1 Hb1)) as [Hb2 Hc2].
  destruct (addValue _ e1) as [itemsIdx e2]. cbn [fst snd] in *.
  destruct (prepareKey_built key e2 (proj1 Hb2)) as [Hb3 Hc3].
  destruct (prepareKey key e2) as [target e3]. cbn [fst snd] in *.
  apply okThen_Ok. eapply built_trans; [exact Hb1|]. eapply built_trans; [exact Hb2|].
  eapply built_trans; [exact Hb3|]. apply pushSet_built; [apply Hb3|].
  assert (He' : coveredRope e3 [ValueRef emptyIdx]).
  { eapply built_rope; [exact Hb3|]. eapply built_rope; [exact Hb2|]. by constructor. }
  assert (Hi' : coveredRope e3 [ValueRef itemsIdx]).
  { eapply built_rope; [exact Hb3|]. by constructor. }
  repeat (apply coveredRope_app; [first [done|apply coveredRope_lit]|]).
  apply coveredRope_lit.
Qed.

Lemma okThen_foldBuilt {A} (f : A → Expression.t → outcome Expression.t) (l : list A) e :
  (∀ a s, tablesGood s → okThen (built s) (f a s)) →
  tablesGood e → okThen (built e) (foldM f l e).
Proof.
  intros Hstep He. apply (okThen_fold (built e)); [|by apply built_refl].
  intros a s Hs s' Hs'. eapply built_trans; [exact Hs|]. by eapply (Hstep a s (proj1 Hs)).
Qed.

Lemma okThen_then (e : Expression.t) (x : outcome Expression.t)
    (f : Expression.t → outcome Expression.t) :
  okThen (built e) x → (∀ s, tablesGood s → okThen (built s) (f s)) →
  okThen (built e) (x ≫= f).
Proof.
  intros Hx Hf. eapply okThen_bind; [exact Hx|]. intros s Hs s' Hs'.
  eapply built_trans; [exact Hs|]. by eapply (Hf s (proj1 Hs)).
Qed.

Lemma addUpdateConditions_built e :
  tablesGood e → okThen (built e) (addUpdateConditions e).
Proof.
  intros He. unfold addUpdateConditions.
  apply okThen_then; [apply okThen_foldBuilt; [apply updAdd_built|done]|]. intros e1 He1.
  apply okThen_then; [apply okThen_foldBuilt; [apply updDelete_built|done]|]. intros e2 He2.
  apply okThen_then; [apply okThen_foldBuilt; [apply updRemove_built|done]|]. intros e3 He3.
  apply okThen_then; [apply okThen_foldBuilt; [apply updSet_built|done]|]. intros e4 He4.
  apply okThen_foldBuilt; [apply updPush_built|done].
Qed.

Lemma attrCondition_built fn att e : tablesGood e → built e (attrCondition fn att e).
Proof.
  intros He. unfold attrCondition.
  destruct (addName_built att e He) as [Hb Hc].
  destruct (addName att e) as [n e1]. cbn [fst snd] in *.
  eapply built_trans; [exact Hb|]. apply pushCondition_built; [apply Hb|].
  apply coveredRope_app; [apply coveredRope_lit|].
  apply coveredRope_app; [apply coveredRope_lit|].
  apply coveredRope_app; [by constructor|apply coveredRope_lit].
Qed.

Lemma attrConditions_built fn hash sort e :
  tablesGood e →
  built e (let e' := attrCondition fn hash e in
           if streq sort "" then e' else attrCondition fn sort e').
Proof.
  intros He. cbv zeta. pose proof (attrCondition_built fn hash e He) as Hb.
  destruct (streq sort ""); [done|].
  eapply built_trans; [exact Hb|]. apply attrCondition_built, Hb.
Qed.

Lemma addConditions_built op e : tablesGood e → okThen (built e) (addConditions op e).
Proof.
  intros He. unfold addConditions.
  match goal with |- okThen _ (_ ← (if _ then addUpdateConditions ?x else _); _) =>
    assert (Hb1 : built e x); [|generalize dependent x; intros e1 Hb1] end.
  { destruct (Params.Exists _) as [[|]|];
      [apply attrConditions_built|apply attrConditions_built|apply built_refl]; done. }
  eapply okThen_bind.
  { instantiate (1 := built e). destruct (streq op "update").
    - intros s Hs. eapply built_trans; [exact Hb1|].
      by eapply (addUpdateConditions_built e1 (proj1 Hb1)).
    - by apply okThen_Ok. }
  intros e2 Hb2. destruct (streq _ ""); [by apply okThen_Ok|].
  eapply okThen_bind; [apply expand_built, Hb2|]. intros [w e3] [Hb3 Hc3].
  cbn [fst snd] in *. apply okThen_Ok. eapply built_trans; [exact Hb2|].
  eapply built_trans; [exact Hb3|]. apply pushCondition_built; [apply Hb3|done].
Qed.

(** The state of a step that also returns the properties. *)
Definition builtState {A} (e : Expression.t) (r : A * Expression.t) : Prop := built e r.2.

Lemma add_built op properties field path v emit e :
  tablesGood e → okThen (builtState e) (add op properties field path v emit e).
Proof.
  intros He. unfold add.
  assert (Hsame : ∀ props : Item, okThen (builtState e) (Ok (props, e))).
  { intros props. apply okThen_Ok. by apply built_refl. }
  assert (Hkey : okThen (builtState e) (e' ← addKey op field v e; Ok (properties, e'))).
  { eapply okThen_bind; [by apply addKey_built|]. intros e' Hb. by apply okThen_Ok. }
  assert (Hfilter : ∀ batchToo : bool,
            okThen (builtState e)
              (if isNil (aget (Name field) properties) then Ok (properties, e)
               else
                 disabled ← filterDisabled field;
                 if (disabled : bool) then Ok (properties, e)
                 else if batchToo && bool_decide (Params.Batch (Expression.params e) ≠ None)
                 then Ok (properties, e)
                 else e' ← addFilter field path v e; Ok (properties, e'))).
  { intros batchToo. destruct (isNil _); [apply Hsame|].
    apply (okThen_bind (λ _, True)); [by intros ? _|]. intros disabled _.
    destruct disabled; [apply Hsame|]. destruct (_ && _); [apply Hsame|].
    eapply okThen_bind; [by apply addFilter_built|]. intros e' Hb. by apply okThen_Ok. }
  destruct (containsStr _ _); [apply Hsame|].
  destruct (Attribute field) as [|top [|sub rest]].
  3: { apply okThen_Ok. unfold builtState. cbn [snd]. same He. }
  all: cbv zeta; destruct (_ || _);
    [ destruct (streq op "find"); [exact Hkey|];
      destruct (streq op "scan"); [apply Hfilter|];
      destruct (_ || _); [destruct (IsIndexed field); [exact Hkey|apply Hsame]|apply Hsame]
    | destruct emit; [|apply Hsame];
      destruct (_ || _); [apply Hfilter|];
      destruct (streq op "update"); [|apply Hsame];
      apply okThen_Ok; by apply addUpdate_built ].
Qed.


Lemma okThen_bind_Ok {A B} (R : B → Prop) (a : A) (f : A → outcome B) :
  okThen R (f a) → okThen R (Ok a ≫= f).
Proof. done. Qed.

Ltac add_step Hs :=
  eapply okThen_bind; [apply add_built; apply Hs|];
  let p := fresh "props'" in
  let e' := fresh "e'" in
  let Hb := fresh "Hb" in
  intros [p e'] Hb; apply okThen_Ok; cbn [fst snd];
  (eapply built_trans; [exact Hs|exact Hb]).

Lemma addProperties_built fuel : ∀ op block properties e,
  tablesGood e →
  okThen (λ r : Item * Item * Expression.t, built e r.2)
    (addProperties fuel op block properties e).
Proof.
  induction fuel as [|fuel IH]; intros op block properties e He; [done|].
  cbn [addProperties].
  apply (okThen_fold (λ st : Item * Item * Expression.t, built e st.2));
    [|by apply built_refl].
  intros [name v] [[rec props] s] Hs. cbn [snd] in Hs. cbv beta iota.
  destruct (alookup name (Fields block)) as [field|].
  2: { destruct (Model.generic _); [add_step Hs|].
       by apply okThen_bind_Ok, okThen_Ok. }
  destruct (Block field) as [sub|]; [|add_step Hs].
  destruct (IsArray field).
  - destruct v as [| | | | | | | |arr|]; try (by apply okThen_Ok).
    eapply okThen_bind.
    { apply (okThen_fold (λ acc : list value * list value * Expression.t, built e acc.2));
        [|exact Hs].
      intros elem [[cp arr'] s1] Hs1. cbn [snd] in Hs1.
      destruct elem as [| | | | | | | | |m]; try (by apply okThen_Ok).
      eapply okThen_bind; [apply IH; apply Hs1|]. intros [[r s'] e'] Hb.
      cbn [snd] in Hb. apply okThen_Ok. cbn [snd]. by eapply built_trans. }
    intros [[cp arr'] e1] Hb1. cbn [snd] in Hb1.
    destruct (getPartial _ _ _); [by apply okThen_bind_Ok, okThen_Ok|add_step Hb1].
  - eapply okThen_bind.
    { instantiate (1 := λ r : value * Item * Expression.t, built e r.2).
      destruct v as [| | | | | | | | |m]; try (by apply okThen_Ok).
      eapply okThen_bind; [apply IH; apply Hs|]. intros [[r s'] e'] Hb.
      cbn [snd] in Hb. apply okThen_Ok. cbn [snd]. by eapply built_trans. }
    intros [[v' props1] e1] Hb1. cbn [snd] in Hb1.
    destruct (getPartial _ _ _); [by apply okThen_bind_Ok, okThen_Ok|add_step Hb1].
Qed.

Lemma emitMapped_built op e : tablesGood e → okThen (built e) (emitMapped op e).
Proof.
  intros He. unfold emitMapped. apply okThen_foldBuilt; [|done].
  intros [k v] s Hs.
  eapply okThen_bind; [by apply add_built|]. intros [props e'] Hb.
  unfold builtState in Hb. cbn [snd] in Hb.
  apply okThen_Ok. eapply built_trans; [exact Hb|].
  pose proof (proj1 Hb) as He'. same He'.
Qed.

Lemma foldl_built {A} (f : Expression.t → A → Expression.t) (l : list A) :
  (∀ s a, tablesGood s → built s (f s a)) →
  ∀ e, tablesGood e → built e (foldl f e l).
Proof.
  intros Hstep. induction l as [|a l IH]; intros e He; [by apply built_refl|].
  cbn [foldl]. eapply built_trans; [by apply Hstep|]. apply IH. by apply Hstep.
Qed.

Lemma addProjection_built e : tablesGood e → built e (addProjection e).
Proof.
  intros He. unfold addProjection.
  destruct (Params.Fields _) as [fields|]; [|by apply built_refl].
  apply foldl_built; [|done]. intros s name Hs.
  assert (Hname : ∀ n, built s (let '(i, e') := addName n s in
                               Expression.set_project (Expression.project e' ++ [[NameRef i]]) e')).
  { intros n. destruct (addName_built n s Hs) as [Hb Hc].
    destruct (addName n s) as [i e']. cbn [fst snd] in *.
    eapply built_trans; [exact Hb|]. apply pushProject_built; [apply Hb|]. by constructor. }
  destruct (_ || _); [apply Hname|].
  destruct (alookup name _); [apply Hname|by apply built_refl].
Qed.

Lemma addScanFilters_built e : tablesGood e → built e (addScanFilters e).
Proof.
  intros He. unfold addScanFilters. apply foldl_built; [|done].
  intros s [name v] Hs. destruct (_ && _); [by apply addGenericFilter_built|by apply built_refl].
Qed.

Lemma checkMapped_built e (x : outcome Expression.t) :
  okThen (built e) x → okThen (built e) (_ ← checkMapped e; x).
Proof. intros Hx. apply (okThen_bind (λ _, True)); [by intros ? _|]. by intros _ _. Qed.

Lemma prepare_built e : tablesGood e → okThen (built e) (prepare e).
Proof.
  intros He. unfold prepare.
  eapply okThen_bind.
  { instantiate (1 := built e).
    destruct (streq _ "find"); [by apply addWhereFilters_built|].
    destruct (_ || _); [by apply addConditions_built|].
    destruct (streq _ "scan"); [|by apply okThen_Ok, built_refl].
    eapply okThen_bind; [by apply addWhereFilters_built|]. intros e' Hb.
    apply okThen_Ok. eapply built_trans; [exact Hb|]. apply addScanFilters_built, Hb. }
  intros e1 Hb1.
  eapply okThen_bind; [apply addProperties_built, Hb1|].
  intros [[rec props] e2] Hb2. cbn [snd] in Hb2.
  assert (Hb3 : built e (Expression.set_puts rec (Expression.set_properties props e2))).
  { eapply built_trans; [exact Hb1|]. eapply built_trans; [exact Hb2|].
    pose proof (proj1 Hb2) as He2. same He2. }
  cbv zeta. apply (okThen_bind (λ _, True)); [by intros ? _|]. intros _ _.
  eapply okThen_bind; [apply emitMapped_built, Hb3|]. intros e4 Hb4.
  apply okThen_Ok. eapply built_trans; [exact Hb3|]. eapply built_trans; [exact Hb4|].
  apply addProjection_built, Hb4.
Qed.

Lemma init_good m op props p e : init m op props p = Ok e → tablesGood e.
Proof.
  unfold init. destruct (selectIndex _ _); [|done].
  destruct (Model.table_client m); [|done]. intros [= <-]. split; simpl.
  - constructor.
  - intros n i Hl. by rewrite lookup_empty in Hl.
  - intros k i Hl. by rewrite lookup_empty in Hl.
  - intros i [x Hl]. by rewrite lookup_empty in Hl.
  - intros i [x Hl]. by rewrite lookup_empty in Hl.
Qed.

Lemma newExpression_good m op props p e : newExpression m op props p = Ok e → tablesGood e.
Proof.
  unfold newExpression. intros (e0 & Hinit & Hprep)%bind_Ok.
  by eapply (prepare_built e0 (init_good _ _ _ _ _ Hinit)).
Qed.


(** The expression strings of a command. *)
Definition emittedStrings (c : Command.t) : list rope :=
  omap id [Command.ConditionExpression c; Command.FilterExpression c;
           Command.KeyConditionExpression c; Command.ProjectionExpression c;
           Command.UpdateExpression c].

Lemma and_covered e terms : coveredRopes e terms → coveredRope e (and_ terms).
Proof.
  intros Ht. unfold and_.
  assert (Hj : coveredRope e (joinRopes " and " (map (λ t, lit "(" ++ t ++ lit ")") terms))).
  { apply coveredRope_join, Forall_fmap. eapply Forall_impl; [exact Ht|].
    intros t Hc. cbv beta. apply coveredRope_app; [apply coveredRope_lit|].
    apply coveredRope_app; [done|apply coveredRope_lit]. }
  destruct terms as [|t [|t' l]]; [done| |done]. by apply Forall_cons in Ht as [Ht _].
Qed.

Lemma updateExpression_covered e us :
  coveredRopes e (u_add us) → coveredRopes e (u_del us) →
  coveredRopes e (u_remove us) → coveredRopes e (u_set us) →
  coveredRope e (updateExpression us).
Proof.
  intros Ha Hd Hr Hs. unfold updateExpression.
  assert (Hone : ∀ (kw : string) (l : list rope), coveredRopes e l →
            coveredRopes e [lit kw ++ joinRopes ", " l]).
  { intros kw l Hl. constructor; [|constructor].
    apply coveredRope_app; [apply coveredRope_lit|by apply coveredRope_join]. }
  apply coveredRope_join. unfold coveredRopes in *. rewrite !Forall_app.
  split; [destruct (u_add us); [constructor|by apply (Hone "add ")]|].
  split; [destruct (u_del us); [constructor|by apply (Hone "delete ")]|].
  split; [destruct (u_remove us); [constructor|by apply (Hone "remove ")]|].
  destruct (u_set us); [constructor|by apply (Hone "set ")].
Qed.

Lemma nonEmptyRope_covered e l r :
  coveredRope e r → ∀ r', nonEmptyRope l r = Some r' → coveredRope e r'.
Proof. intros Hr r'. destruct l; [done|]. by intros [= <-]. Qed.

Lemma command_strings_covered e c :
  tablesGood e → Params.PostFormat (Expression.params e) = None →
  command e = Ok c → coveredRopes e (emittedStrings c).
Proof.
  intros Hg Hpf Hcmd. pose proof (good_ropes _ Hg) as Hr.
  apply ropesOf_Forall in Hr as (Hc & Hf & Hk & Hp & Hua & Hud & Hur & Hus).
  unfold command in Hcmd.
  apply bind_Ok in Hcmd as (key & _ & Hcmd). apply bind_Ok in Hcmd as (puts & _ & Hcmd).
  apply bind_Ok in Hcmd as (values & _ & Hcmd).
  destruct (Params.Batch _).
  { apply bind_Ok in Hcmd as (args & Hargs & Hcmd).
    destruct (Expression.filters e); [|done]. injection Hcmd as <-.
    destruct (_ || _); [injection Hargs as <-; constructor|].
    destruct (streq _ "put"); [injection Hargs as <-; constructor|done]. }
  apply bind_Ok in Hcmd as (start & _ & Hcmd). rewrite Hpf in Hcmd. injection Hcmd as <-.
  unfold emittedStrings. cbn [Command.ConditionExpression Command.FilterExpression
    Command.KeyConditionExpression Command.ProjectionExpression Command.UpdateExpression].
  apply Forall_forall. intros r (o & Ho & Hin)%list_elem_of_omap.
  cbn [id] in Hin. subst o.
  repeat (apply elem_of_cons in Ho as [Ho|Ho]).
  - symmetry in Ho. eapply nonEmptyRope_covered; [|exact Ho]. by apply and_covered.
  - symmetry in Ho. eapply nonEmptyRope_covered; [|exact Ho]. by apply and_covered.
  - symmetry in Ho. eapply nonEmptyRope_covered; [|exact Ho]. by apply coveredRope_join.
  - symmetry in Ho. eapply nonEmptyRope_covered; [|exact Ho]. by apply coveredRope_join.
  - destruct (streq _ "update"); [|done]. injection Ho as ->.
    by apply updateExpression_covered.
  - by apply elem_of_nil in Ho.
Qed.

Lemma command_tables e c :
  Params.PostFormat (Expression.params e) = None →
  command e = Ok c → emittedStrings c ≠ [] →
  Command.ExpressionAttributeNames c
    = (if bool_decide (0 < size (Expression.names e)) then Some (Expression.names e) else None)
  ∧ ∃ values, marshallTable (Expression.values e) = Some values
      ∧ Command.ExpressionAttributeValues c
          = (if bool_decide (0 < size (Expression.names e))
                && bool_decide (0 < size (Expression.values e))
             then Some values else None).
Proof.
  intros Hpf Hcmd Hne. unfold command in Hcmd.
  apply bind_Ok in Hcmd as (key & _ & Hcmd). apply bind_Ok in Hcmd as (puts & _ & Hcmd).
  apply bind_Ok in Hcmd as (values & Hvalues & Hcmd).
  destruct (Params.Batch _).
  { apply bind_Ok in Hcmd as (args & Hargs & Hcmd).
    destruct (Expression.filters e); [|done]. injection Hcmd as <-.
    destruct (_ || _); [by injection Hargs as <-|].
    destruct (streq _ "put"); [by injection Hargs as <-|done]. }
  apply bind_Ok in Hcmd as (start & _ & Hcmd). rewrite Hpf in Hcmd. injection Hcmd as <-.
  split; [done|]. exists values. split; [|done].
  destruct (marshallTable _); [by injection Hvalues as ->|done].
Qed.

Lemma marshallTable_lookup (t : gmap string value) values k :
  marshallTable t = Some values → is_Some (t !! k) → is_Some (values !! k).
Proof.
  unfold marshallTable. destruct (decide _) as [Hall|]; [|done]. intros [= <-] [v Hv].
  rewrite lookup_omap, Hv. simpl. by apply (Hall k v).
Qed.

Lemma size_pos {A} (t : gmap string A) : t ≠ ∅ → 0 < size t.
Proof. intros Hne%map_size_non_empty_iff. lia. Qed.

Lemma lookup_nonempty {A} (t : gmap string A) k : is_Some (t !! k) → t ≠ ∅.
Proof. intros [x Hx] Hempty. by rewrite Hempty, lookup_empty in Hx. Qed.

(** X8: in a command built without a post-format hook, every name
    placeholder of an emitted expression string has an entry in the emitted
    name table.  Every value placeholder has an entry in the value table
    of the builder; the command carries that entry when the name table is
    not empty, and carries no value table at all when it is empty. *)
Theorem emitted_placeholders_have_entries
    (m : Model.t) (op : string) (props : Item) (p : Params.t)
    (e : Expression.t) (c : Command.t) :
  newExpression m op props p = Ok e →
  Params.PostFormat (Expression.params e) = None →
  command e = Ok c →
  (∀ r n, r ∈ emittedStrings c → NameRef n ∈ r →
     ∃ names, Command.ExpressionAttributeNames c = Some names
              ∧ is_Some (names !! nameKey n))
  ∧ (∀ r i, r ∈ emittedStrings c → ValueRef i ∈ r →
       is_Some (Expression.values e !! valueKey i)
       ∧ (Expression.names e ≠ ∅ →
          ∃ values, Command.ExpressionAttributeValues c = Some values
                    ∧ is_Some (values !! valueKey i))
       ∧ (Expression.names e = ∅ → Command.ExpressionAttributeValues c = None)).
Proof.
  intros Hnew Hpf Hcmd.
  pose proof (newExpression_good _ _ _ _ _ Hnew) as Hg.
  pose proof (command_strings_covered e c Hg Hpf Hcmd) as Hcov.
  assert (Hatom : ∀ r a, r ∈ emittedStrings c → a ∈ r → coveredAtom e a).
  { intros r a Hr Ha. unfold coveredRopes in Hcov.
    rewrite Forall_forall in Hcov. specialize (Hcov r Hr).
    unfold coveredRope in Hcov. rewrite Forall_forall in Hcov. by apply Hcov. }
  assert (Htab : ∀ r, r ∈ emittedStrings c → emittedStrings c ≠ []).
  { intros r Hr Heq. rewrite Heq in Hr. by apply elem_of_nil in Hr. }
  split.
  - intros r n Hr Ha. pose proof (Hatom r _ Hr Ha) as Hn. simpl in Hn.
    destruct (command_tables e c Hpf Hcmd (Htab r Hr)) as [Hnames _].
    exists (Expression.names e). split; [|done]. rewrite Hnames.
    rewrite bool_decide_true; [done|]. by eapply size_pos, lookup_nonempty.
  - intros r i Hr Ha. pose proof (Hatom r _ Hr Ha) as Hv. simpl in Hv.
    destruct (command_tables e c Hpf Hcmd (Htab r Hr)) as [_ (values & Hm & Hvalues)].
    split; [done|]. split.
    + intros Hne. exists values. split; [|by eapply marshallTable_lookup].
      rewrite Hvalues. rewrite !bool_decide_true; [done| |].
      * by eapply size_pos, lookup_nonempty.
      * by apply size_pos.
    + intros Hempty. rewrite Hvalues, Hempty. by rewrite map_size_empty.
Qed.

End BuilderTables.

(** ** Operations in a transaction *)

(** The parameters of the expression [newExpression] returns are the ones
    it was given. *)
Lemma newExpression_params `{GoLib} m op props p e :
  newExpression m op props p = Ok e → Expression.params e = p.
Proof.
  unfold newExpression. intros (e0 & Hinit & Hprep)%bind_Ok.
  destruct (prepare_built e0 (init_good _ _ _ _ _ Hinit) e Hprep) as [_ [Hcore _ _ _]].
  destruct Hcore as (_ & _ & -> & _). unfold init in Hinit.
  destruct (selectIndex _ _); [|done]. destruct (Model.table_client m); [|done].
  by injection Hinit as <-.
Qed.

(** Every item of the transaction is a put. *)
Definition putsOnly (items : list (string * Command.t)) : Prop :=
  Forall (λ it, it.1 = "Put") items.

(** Since the log of the client was [cs] and the transaction [t] held
    [base], no call went to the client and only puts joined [t]. *)
Definition collecting (cs : list BackendCall) (t : nat) (base : list (string * Command.t))
    (w : World) : Prop :=
  calls w = cs ∧ ∃ new, itemsOf w t = base ++ new ∧ putsOnly new.

(** [x] started in a world of [I] ends in [Φ], whatever its outcome. *)
Definition reaches {A} (I : World → Prop) (Φ : outcome A → World → Prop) (x : W A) : Prop :=
  ∀ w, I w → Φ (x w).1 (x w).2.

Lemma reaches_bind {A B} (I : World → Prop) (Φ : outcome B → World → Prop)
    (x : W A) (f : A → W B) (Q : A → Prop) :
  safe I x Q →
  (∀ o w, I w → isOk o = false → Φ o w) →
  (∀ a, Q a → reaches I Φ (f a)) →
  reaches I Φ (x ≫= f).
Proof.
  intros Hx Hfail Hf w Hw. destruct (Hx w Hw) as [Hw' HQ].
  unfold mbind, W_bind, wbind. destruct (x w) as [[a| | |] w']; simpl in *;
    [|by apply Hfail..].
  apply (Hf a); [by apply HQ|done].
Qed.

Lemma reaches_safe {A} (I : World → Prop) (x : W A) (Q : A → Prop) :
  reaches I (λ o w, I w ∧ ∀ a, o = Ok a → Q a) x → safe I x Q.
Proof. intros Hx w Hw. apply (Hx w Hw). Qed.

Lemma bind_Ok_eq {A B} (x : W A) (f : A → W B) w a w' :
  x w = (Ok a, w') → (x ≫= f) w = f a w'.
Proof. intros Hx. unfold mbind, W_bind, wbind. by rewrite Hx. Qed.

Section Collecting.
Context `{GoLib} `{Table}.
Variables (cs : list BackendCall) (t : nat) (base : list (string * Command.t)).

Let I : World → Prop := collecting cs t base.

Lemma collecting_same w w' :
  calls w' = calls w → txs w' = txs w → I w → I w'.
Proof.
  intros Hc Ht [Hcs Hnew]. split; [congruence|]. unfold itemsOf. by rewrite Ht.
Qed.

Lemma readMap_I r : safe I (readMap r) (λ _, True).
Proof. intros w Hw. done. Qed.

Lemma writeMap_I r item : safe I (writeMap r item) (λ _, True).
Proof. intros w Hw. split; [|done]. by eapply collecting_same; [..|exact Hw]. Qed.

Lemma newMap_I item : safe I (newMap item) (λ _, True).
Proof. intros w Hw. split; [|done]. by eapply collecting_same; [..|exact Hw]. Qed.

Lemma stampTx_I t' stamp :
  safe I (tx ← readTx t'; writeTx t' (mkTx stamp (txItems tx))) (λ _, True).
Proof.
  intros w [Hc (new & Hn & Hp)]. split; [|done]. split; [done|].
  exists new. split; [|done]. rewrite <-Hn. unfold itemsOf. simpl.
  destruct (decide (t' = t)) as [->|Hne].
  - by rewrite lookup_insert_eq.
  - by rewrite lookup_insert_ne.
Qed.

Lemma checkArgs_I properties params overrides Q :
  (∀ r, Q (r, match params with
              | Some p => if Params.checked p then p else mergeParams params overrides
              | None => mergeParams params overrides
              end)) →
  safe I (checkArgs properties params overrides) Q.
Proof.
  intros HQ w Hw. unfold checkArgs. destruct params as [p|].
  - destruct (Params.checked p).
    + split; [done|]. intros ? [= <-]. apply HQ.
    + split; [by eapply collecting_same; [..|exact Hw]|]. intros ? [= <-]. apply HQ.
  - split; [by eapply collecting_same; [..|exact Hw]|]. intros ? [= <-]. apply HQ.
Qed.

Lemma prepareAt_I m op properties params :
  safe I (prepareAt m op properties params)
    (λ r, Params.Transaction r.2 = Params.Transaction params).
Proof.
  intros w Hw. unfold prepareAt, mbind, W_bind, wbind, readMap, lift. simpl.
  destruct (prepareProperties m op _ params) as [[[result props'] params']| | |] eqn:Hprep;
    simpl; [|done..].
  destruct (prepareProperties_request m op _ params result props' params' Hprep)
    as (_ & _ & _ & _ & Htx & _).
  destruct result; simpl; (split; [by eapply collecting_same; [..|exact Hw]|]);
    by intros ? [= <-].
Qed.

Lemma expressionAt_I m op properties params :
  safe I (expressionAt m op properties params) (λ e, Expression.params e = params).
Proof.
  intros w Hw. unfold expressionAt, mbind, W_bind, wbind, readMap, lift. simpl.
  destruct (newExpression m op _ params) as [e| | |] eqn:Hnew; simpl; [|done..].
  split; [by eapply collecting_same; [..|exact Hw]|]. intros ? [= <-].
  by eapply newExpression_params.
Qed.

Lemma run_put_I m e :
  Params.Transaction (Expression.params e) = Some t →
  safe I (run m "put" e) (λ r, Params.Transaction r.2 = Some t).
Proof.
  intros Ht w Hw. unfold run, mbind, W_bind, wbind, lift. simpl.
  destruct (command e) as [cmd| | |]; simpl; [|done..].
  destruct (negb (Expression.execute e)); simpl.
  { split; [done|]. by intros ? [= <-]. }
  destruct (bool_decide _); simpl.
  { split; [by eapply collecting_same; [..|exact Hw]|]. by intros ? [= <-]. }
  rewrite Ht. simpl. split; [|by intros ? [= <-]].
  destruct Hw as [Hc (new & Hn & Hp)]. split; [done|].
  exists (new ++ [("Put", cmd)]). split.
  - unfold itemsOf in *. simpl. rewrite lookup_insert_eq. simpl.
    by rewrite Hn, app_assoc.
  - apply Forall_app. split; [done|]. by constructor.
Qed.

Lemma putItem_I m properties p :
  Params.Transaction p = Some t →
  safe I (putItem m properties (Some p)) (λ r, Params.Transaction r.2 = Some t).
Proof.
  intros Ht. unfold putItem.
  eapply (safe_bind _ _ _ (λ r, Params.Transaction r.2 = Some t)).
  { apply checkArgs_I. intros r. cbn [snd].
    destruct (Params.checked p); [done|]. simpl. by rewrite Ht. }
  intros [r p1] Hp1. cbn [fst snd] in Hp1.
  eapply (safe_bind _ _ _ (λ r, Params.Transaction r.2 = Some t)).
  { destruct (Params.prepared p1); [by apply safe_ret|].
    eapply (safe_bind _ _ _ (λ _, True)).
    { rewrite Hp1. intros w Hw. done. }
    intros now _. eapply safe_bind; [apply readMap_I|]. intros props _.
    eapply safe_bind; [apply writeMap_I|]. intros [] _.
    eapply safe_weaken; [apply prepareAt_I|]. intros [r' p'] Hp'. cbn [snd] in *.
    congruence. }
  intros [r2 p2] Hp2. cbn [fst snd] in Hp2.
  eapply safe_bind; [apply expressionAt_I|]. intros e He.
  apply run_put_I. by rewrite He.
Qed.

End Collecting.

Section CreateUnique.
Context `{GoLib} `{Table}.

(** The timestamp of a transaction is written without touching its items. *)
Lemma reaches_stamp {B} cs t base (Φ : outcome B → World → Prop) t' stamp
    (k : unit → W B) :
  reaches (collecting cs t base) Φ (k ()) →
  reaches (collecting cs t base) Φ
    (tx ← readTx t'; writeTx t' (mkTx stamp (txItems tx)) ≫= k).
Proof.
  intros Hk w Hw.
  destruct (stampTx_I cs t base t' stamp w Hw) as [Hw' _].
  exact (Hk _ Hw').
Qed.

(** The commit of a transaction: one call of the client. *)
Definition commitCall (tx : Tx) : BackendCall :=
  mkCall genericModelName "transactWrite" (ReqTransaction tx).

(** What [createUnique] returns after the commit, by the reply of the
    client: a failed condition check becomes the Unique error, any other
    error is returned as it is. *)
Definition commitOutcome {A} (m : Model.t) (reply : clientReply) (o : outcome A) : Prop :=
  match reply with
  | ClientOk _ => isOk o = true ∨ o = Panic nilDeref
  | ClientError msg =>
      let e := executeError genericModelName "transactWrite" msg in
      o = Err (if isConditionalFailed e then uniqueError m else e)
  | RequestError e => o = Err (if isConditionalFailed e then uniqueError m else e)
  end.

(** The transaction went to the client in one call, after [cs]; it held
    [base] and puts. *)
Definition committedOnce {A} (m : Model.t) (cs : list BackendCall)
    (base : list (string * Command.t)) (o : outcome A) (w : World) : Prop :=
  ∃ tx new, calls w = cs ++ [commitCall tx]
            ∧ txItems tx = base ++ new ∧ putsOnly new
            ∧ commitOutcome m (client cs (commitCall tx)) o.

(** The creations an operation calls keep to the transaction they are
    given. *)
Definition createsCollect (self : call → W (payload * Params.t)) : Prop :=
  ∀ cs t base m props p,
    Params.Transaction p = Some t →
    safe (collecting cs t base) (self (CallCreate m props (Some p))) (λ _, True).

Lemma createUnique_reaches self m properties p0 w cs base :
  createsCollect self →
  let t := default (nextTx w) (Params.Transaction p0) in
  collecting cs t base (openTransaction p0 w).2 →
  let r := createUnique self m properties p0 w in
  collecting cs t base r.2
  ∨ (Params.Transaction p0 = None ∧ committedOnce m cs base r.1 r.2).
Proof.
  intros Hself t Hopen r. subst r.
  set (Φ := λ (o : outcome (opResult * Params.t)) (w' : World),
              collecting cs t base w'
              ∨ (Params.Transaction p0 = None ∧ committedOnce m cs base o w')).
  assert (Hfail : ∀ o w', collecting cs t base w' → isOk o = false → Φ o w').
  { intros o w' Hw' _. by left. }
  assert (∃ p1, openTransaction p0 w = (Ok (t, p1), (openTransaction p0 w).2)
                ∧ Params.Transaction p1 = Some t) as (p1 & Heq & Hp1).
  { unfold openTransaction, t. destruct (Params.Transaction p0) as [t0|] eqn:Ht0.
    - by exists p0.
    - by eexists. }
  unfold createUnique. cbv zeta. rewrite (bind_Ok_eq _ _ _ _ _ Heq).
  revert Hopen. generalize (openTransaction p0 w).2. clear Heq. intros w1 Hw1.
  lazymatch goal with
  | |- _ ∨ (_ ∧ committedOnce _ _ _ (?x w1).1 _) =>
      cut (reaches (collecting cs t base) Φ x); [intros Hr; exact (Hr w1 Hw1)|]
  end.
  clear w1 Hw1. cbv beta iota.
  apply reaches_stamp.
  eapply (reaches_bind _ _ _ _ (λ _, True)); [apply readMap_I|exact Hfail|intros props _].
  eapply (reaches_bind _ _ _ _ (λ _, True)); [apply writeMap_I|exact Hfail|intros [] _].
  eapply reaches_bind; [apply prepareAt_I|exact Hfail|intros [r2 p2] Hp2].
  cbn [snd] in Hp2. rewrite Hp1 in Hp2.
  eapply (reaches_bind _ _ _ _ (λ _, True)); [apply readMap_I|exact Hfail|intros props2 _].
  eapply (reaches_bind _ _ _ _ (λ _, True)); [|exact Hfail|intros [] _].
  { apply safe_foldW; [done|]. intros field [] _.
    destruct (isNil _); [by apply safe_ret|].
    eapply (safe_bind _ _ _ (λ _, True)); [apply newMap_I|]. intros up _.
    eapply safe_bind; [by apply Hself|]. intros ? _. by apply safe_ret. }
  eapply reaches_bind; [by apply putItem_I|exact Hfail|intros [item p3] Hp3].
  cbn [snd] in Hp3. intros w3 Hw3. pose proof Hw3 as [Hc (new & Hn & Hp)].
  destruct (Params.Transaction p0) as [t0|] eqn:Ht0.
  { left. exact Hw3. }
  rewrite bool_decide_true by done. cbn [negb].
  unfold transactWrite.
  destruct (bool_decide (Params.Execute p3 = Some false)).
  { left. unfold try, mbind, W_bind, wbind, ret. simpl.
    by destruct (Params.expression p3). }
  unfold execute.
  destruct (negb (Model.table_client m || Params.Client p3)).
  { left. unfold try, mbind, W_bind, wbind, readTx, fail, lift. simpl. exact Hw3. }
  assert (Hop : containsStr executeOps "transactWrite" = true) by reflexivity.
  rewrite Hop. cbn [negb].
  right. split; [done|].
  exists (default (mkTx None []) (txs w3 !! t)), new.
  unfold try, mbind, W_bind, wbind, readTx, getCalls, logCall, fail, lift, ret. simpl.
  rewrite Hc. fold (commitCall (default (mkTx None []) (txs w3 !! t))).
  destruct (client cs (commitCall _)) as [out|msg|e] eqn:Hreply; simpl.
  - destruct (Params.expression p3); simpl;
      (split; [done|]; split; [exact Hn|]; split; [done|]); [by left|by right].
  - destruct (isConditionalFailed _); simpl;
      (split; [done|]; split; [exact Hn|]; split; [done|]); done.
  - destruct (isConditionalFailed _); simpl;
      (split; [done|]; split; [exact Hn|]; split; [done|]); done.
Qed.


Lemma createUnique_I self m properties p cs t base :
  createsCollect self → Params.Transaction p = Some t →
  safe (collecting cs t base) (createUnique self m properties p) (λ _, True).
Proof.
  intros Hself Ht w Hw. split; [|done].
  pose proof (createUnique_reaches self m properties p w cs base Hself) as Hr.
  cbv zeta in Hr. rewrite Ht in Hr. cbn [default from_option] in Hr.
  destruct Hr as [Hr|[Hnone _]]; [|done|done].
  unfold openTransaction. by rewrite Ht.
Qed.

Lemma Create_I self m properties p cs t base :
  createsCollect self → Params.Transaction p = Some t →
  safe (collecting cs t base) (Create_ self m properties (Some p)) (λ _, True).
Proof.
  intros Hself Ht. unfold Create_.
  eapply (safe_bind _ _ _ (λ r, Params.Transaction r.2 = Some t)).
  { apply checkArgs_I. intros r. cbn [snd].
    destruct (Params.checked p); [done|]. simpl. by rewrite Ht. }
  intros [r p1] Hp1. cbn [snd] in Hp1. destruct (Model.hasUniqueFields m).
  - by apply createUnique_I.
  - eapply safe_weaken; [by apply putItem_I|done].
Qed.

Lemma dispatch_createsCollect depth : createsCollect (dispatch depth).
Proof.
  induction depth as [|depth IH]; intros cs t base m props p Ht; simpl.
  - by apply safe_lift.
  - eapply safe_bind; [by apply Create_I|]. intros [r p'] _. by apply safe_ret.
Qed.

(** X9: a creation that is given a transaction never calls the client,
    whether the model has unique fields or not and whatever it returns:
    the log of the client stays as it was, and what joins the transaction
    (the sentinels of the unique fields and the item itself) are puts.
    The commit is left to the owner of the transaction. *)
Theorem create_in_transaction_defers
    (depth : nat) (m : Model.t) (properties : nat) (p : Params.t) (t : nat) (w : World) :
  Params.Transaction p = Some t →
  calls (Create depth m properties (Some p) w).2 = calls w
  ∧ ∃ new, itemsOf (Create depth m properties (Some p) w).2 t = itemsOf w t ++ new
           ∧ putsOnly new.
Proof.
  intros Ht.
  assert (Hw : collecting (calls w) t (itemsOf w t) w).
  { split; [done|]. exists []. split; [by rewrite app_nil_r|constructor]. }
  pose proof (Create_I (dispatch depth) m properties p (calls w) t (itemsOf w t)
                (dispatch_createsCollect depth) Ht w Hw) as [Hdone _].
  exact Hdone.
Qed.

(** X10: a creation on a model with unique fields that is given no
    transaction calls the client at most once, and that call is the commit
    of a transaction of its own that holds puts only (the sentinels and
    the item).  After the commit, a failed condition check is returned as
    the Unique error that names the unique fields, any other error of the
    client as it is. *)
Theorem unique_create_commits_once
    (depth : nat) (m : Model.t) (properties : nat) (p : Params.t) (w : World) :
  Model.hasUniqueFields m = true →
  Params.Transaction p = None →
  calls (Create depth m properties (Some p) w).2 = calls w
  ∨ ∃ tx, calls (Create depth m properties (Some p) w).2 = calls w ++ [commitCall tx]
          ∧ putsOnly (txItems tx)
          ∧ commitOutcome m (client (calls w) (commitCall tx))
              (Create depth m properties (Some p) w).1.
Proof.
  intros Hunique Ht. unfold Create, Create_.
  assert (∃ r p1 w1, checkArgs properties (Some p)
                       (Some (Params.set_Exists (Some false) highLevel)) w
                     = (Ok (r, p1), w1)
                     ∧ Params.Transaction p1 = None ∧ calls w1 = calls w)
    as (r & p1 & w1 & Hcheck & Hp1 & Hw1).
  { unfold checkArgs. destruct (Params.checked p).
    - by eexists _, _, _.
    - eexists _, _, _. split; [reflexivity|]. split; [|done]. simpl. by rewrite Ht. }
  rewrite (bind_Ok_eq _ _ _ _ _ Hcheck). rewrite Hunique.
  pose proof (createUnique_reaches (dispatch depth) m r p1 w1 (calls w) []
                (dispatch_createsCollect depth)) as Hr.
  cbv zeta in Hr. rewrite Hp1 in Hr. cbn [default from_option] in Hr.
  destruct Hr as [[Hc _]|[_ (tx & new & Hc & Hitems & Hputs & Hout)]].
  - unfold openTransaction. rewrite Hp1. split; [exact Hw1|].
    exists []. split; [|constructor]. unfold itemsOf. simpl. by rewrite lookup_insert_eq.
  - by left.
  - right. exists tx. split; [exact Hc|]. split; [|exact Hout].
    by rewrite Hitems.
Qed.

End CreateUnique.

(** ** The reading operations never write *)

(** The operations of the client that read. *)
Definition isRead (op : string) : bool := containsStr ["get"; "find"; "scan"] op.

(** Since [w0], the client was called for reads only, only gets joined a
    transaction, and only gets joined a batch. *)
Definition readsOnly (w0 w : World) : Prop :=
  (∃ more, calls w = calls w0 ++ more ∧ Forall (λ c, isRead (callOp c) = true) more)
  ∧ (∀ t, ∃ new, itemsOf w t = itemsOf w0 t ++ new ∧ Forall (λ it, it.1 = "Get") new)
  ∧ (∃ more, batched w = batched w0 ++ more ∧ Forall (λ b, b.1.2 = "get") more).

Lemma readsOnly_refl w : readsOnly w w.
Proof.
  split; [|split].
  - exists []. by rewrite app_nil_r.
  - intros t. exists []. by rewrite app_nil_r.
  - exists []. by rewrite app_nil_r.
Qed.

Create HintDb reads.

Section Reads.
Context `{GoLib} `{Table}.
Variable w0 : World.

Abbreviation reading x := (safe (readsOnly w0) x (λ _, True)).

Lemma readsOnly_same w w' :
  calls w' = calls w → txs w' = txs w → batched w' = batched w →
  readsOnly w0 w → readsOnly w0 w'.
Proof.
  intros Hc Ht Hb (Hcalls & Hitems & Hbatch). unfold readsOnly, itemsOf.
  by rewrite Hc, Ht, Hb.
Qed.

Lemma readMap_reading r : reading (readMap r).
Proof. intros w Hw. done. Qed.

Lemma writeMap_reading r item : reading (writeMap r item).
Proof. intros w Hw. split; [|done]. by eapply readsOnly_same; [..|exact Hw]. Qed.

Lemma newMap_reading item : reading (newMap item).
Proof. intros w Hw. split; [|done]. by eapply readsOnly_same; [..|exact Hw]. Qed.

Lemma getCalls_reading : reading getCalls.
Proof. intros w Hw. done. Qed.

Lemma lift_reading {A} (o : outcome A) : reading (lift o).
Proof. by apply safe_lift. Qed.

Lemma try_reading {A} (x : W A) : reading x → reading (try x).
Proof. intros Hx. eapply safe_weaken; [by apply safe_try|done]. Qed.

Lemma logCall_reading c : isRead (callOp c) = true → reading (logCall c).
Proof.
  intros Hc w ((more & Hm & Hr) & Hitems & Hbatch). split; [|done].
  split; [|by split]. exists (more ++ [c]). simpl. split.
  - by rewrite Hm, app_assoc.
  - apply Forall_app. split; [done|]. by constructor.
Qed.

Lemma logBatched_reading tableName cmd : reading (logBatched tableName "get" cmd).
Proof.
  intros w (Hcalls & Hitems & (more & Hm & Hr)). split; [|done].
  split; [done|]. split; [done|]. exists (more ++ [(tableName, "get", cmd)]). simpl. split.
  - by rewrite Hm, app_assoc.
  - apply Forall_app. split; [done|]. by constructor.
Qed.

Lemma accumulateTransaction_reading m cmd e t :
  reading (accumulateTransaction m "get" cmd e t).
Proof.
  intros w (Hcalls & Hitems & Hbatch). split; [|done].
  split; [done|]. split; [|done]. intros t'. unfold itemsOf in *. simpl.
  destruct (decide (t = t')) as [->|Hne].
  - rewrite lookup_insert_eq. simpl. destruct (Hitems t') as (new & Hn & Hg).
    exists (new ++ [("Get", cmd)]). split; [by rewrite Hn, app_assoc|].
    apply Forall_app. split; [done|]. by constructor.
  - rewrite lookup_insert_ne by done. apply Hitems.
Qed.

End Reads.

#[local] Hint Resolve readMap_reading writeMap_reading newMap_reading getCalls_reading
  lift_reading try_reading logCall_reading logBatched_reading
  accumulateTransaction_reading : reads.
#[local] Hint Extern 1 (isRead _ = true) => reflexivity : reads.

Ltac reads_inner := idtac.

Ltac reads_step :=
  first
    [ apply safe_ret; cbn [fst snd]; solve [trivial]
    | apply safe_fail
    | solve [eauto with reads]
    | eapply (safe_bind _ _ _ (λ _, True)); [ solve [reads_inner] | frame_cont ]
    | apply (safe_foldW _ _ _ _ (λ _, True));
      [ done | intros ? ? _; frame_names; cbv beta iota zeta ]
    | match goal with
      | |- safe _ (if ?b then _ else _) _ => destruct b eqn:?
      | |- safe _ (match ?x with _ => _ end) _ => destruct x eqn:?
      end ].

Ltac reads := repeat reads_step.

Ltac reads_inner ::= reads.

Section ReadOps.
Context `{GoLib} `{Table}.
Variable w0 : World.

Abbreviation reading x := (safe (readsOnly w0) x (λ _, True)).

Lemma execute_reading clientSet modelName op req params :
  isRead op = true → reading (execute clientSet modelName op req params).
Proof. intros Hop. unfold execute. reads. Qed.

Lemma checkArgs_reading properties params overrides :
  reading (checkArgs properties params overrides).
Proof. unfold checkArgs. reads. Qed.

Lemma prepareAt_reading m op properties params :
  reading (prepareAt m op properties params).
Proof. unfold prepareAt. reads. Qed.

Lemma expressionAt_reading m op properties params :
  reading (expressionAt m op properties params).
Proof. unfold expressionAt. reads. Qed.

Lemma accumulateBatch_reading m cmd e : reading (accumulateBatch m "get" cmd e).
Proof. unfold accumulateBatch. reads. Qed.

#[local] Hint Resolve execute_reading checkArgs_reading prepareAt_reading
  expressionAt_reading accumulateBatch_reading : reads.

Lemma run_reading m e : reading (run m "get" e).
Proof. unfold run. reads. Qed.

Lemma pageStep_reading m op cmd maxPages st :
  isRead op = true → reading (pageStep m op cmd maxPages st).
Proof. intros Hop. unfold pageStep. reads. Qed.

#[local] Hint Resolve run_reading pageStep_reading : reads.

Lemma pageLoop_reading turns m op cmd maxPages st :
  isRead op = true → reading (pageLoop turns m op cmd maxPages st).
Proof.
  intros Hop. revert st. induction turns as [|turns IH]; intros st; simpl; reads.
Qed.

#[local] Hint Resolve pageLoop_reading : reads.

(** The calls between operations that read. *)
Definition isReadCall (c : call) : Prop :=
  match c with
  | CallGet _ _ _ | CallFind _ _ _ => True
  | CallCreate _ _ _ | CallRemove _ _ _ => False
  end.

Section Calls.
Variable self : call → W (payload * Params.t).
Hypothesis self_reading : ∀ c, isReadCall c → reading (self c).

Lemma self_get_reading m r p : reading (self (CallGet m r p)).
Proof. by apply self_reading. Qed.

Lemma self_find_reading m r p : reading (self (CallFind m r p)).
Proof. by apply self_reading. Qed.

#[local] Hint Resolve self_get_reading self_find_reading : reads.

Lemma followItems_reading m op items params :
  reading (followItems self m op items params).
Proof. unfold followItems. reads. Qed.

#[local] Hint Resolve followItems_reading : reads.

Lemma runMulti_reading m op e : isRead op = true → reading (runMulti self m op e).
Proof. intros Hop. unfold runMulti. reads. Qed.

#[local] Hint Resolve runMulti_reading : reads.

Lemma queryItems_reading m properties params :
  reading (queryItems self m properties params).
Proof. unfold queryItems. reads. Qed.

Lemma scanItems_reading m properties params :
  reading (scanItems self m properties params).
Proof. unfold scanItems. reads. Qed.

#[local] Hint Resolve queryItems_reading scanItems_reading : reads.

Lemma Get_reading m properties params : reading (Get_ self m properties params).
Proof. unfold Get_. reads. Qed.

Lemma Find_reading m properties params : reading (Find_ self m properties params).
Proof. unfold Find_. reads. Qed.

Lemma Scan_reading m properties params : reading (Scan_ self m properties params).
Proof. unfold Scan_. reads. Qed.

End Calls.

Lemma dispatch_reading depth c : isReadCall c → reading (dispatch depth c).
Proof.
  revert c. induction depth as [|depth IH]; intros c Hc; simpl; [reads|].
  destruct c as [m r p|m r p|m r p|m r p]; simpl in Hc; try done.
  - eapply (safe_bind _ _ _ (λ _, True)); [by apply Get_reading|intros; reads].
  - eapply (safe_bind _ _ _ (λ _, True)); [by apply Find_reading|intros; reads].
Qed.

End ReadOps.

Section ReadsNeverWrite.
Context `{GoLib} `{Table}.

(** X11: the reading operations never write.  Whatever [Get], [Find] and
    [Scan] are given and whatever they return, every call they make to the
    client is a get, a find or a scan; what they add to a transaction are
    Get entries and what they add to a batch are get entries. *)
Theorem reads_never_write
    (depth : nat) (m : Model.t) (properties : nat) (params : option Params.t) (w : World) :
  readsOnly w (Get depth m properties params w).2
  ∧ readsOnly w (Find depth m properties params w).2
  ∧ readsOnly w (Scan depth m properties params w).2.
Proof.
  pose proof (dispatch_reading w depth) as Hself.
  pose proof (Get_reading w _ Hself m properties params w (readsOnly_refl w)) as [Hg _].
  pose proof (Find_reading w _ Hself m properties params w (readsOnly_refl w)) as [Hf _].
  pose proof (Scan_reading w _ Hself m properties params w (readsOnly_refl w)) as [Hs _].
  exact (conj Hg (conj Hf Hs)).
Qed.

End ReadsNeverWrite.

(** ** In a transaction no write goes to the client *)

(** Since [w0] the client was called for reads only. *)
Definition onlyReads (w0 w : World) : Prop :=
  ∃ more, calls w = calls w0 ++ more ∧ Forall (λ c, isRead (callOp c) = true) more.

Lemma onlyReads_refl w : onlyReads w w.
Proof. exists []. by rewrite app_nil_r. Qed.

Create HintDb calm.

Section Calm.
Context `{GoLib} `{Table}.
Variable w0 : World.

Abbreviation calm x := (safe (onlyReads w0) x (λ _, True)).

Lemma readMap_calm r : calm (readMap r).
Proof. intros w Hw. done. Qed.

Lemma writeMap_calm r item : calm (writeMap r item).
Proof. intros w Hw. done. Qed.

Lemma newMap_calm item : calm (newMap item).
Proof. intros w Hw. done. Qed.

Lemma readTx_calm t : calm (readTx t).
Proof. intros w Hw. done. Qed.

Lemma writeTx_calm t tx : calm (writeTx t tx).
Proof. intros w Hw. done. Qed.

Lemma newTx_calm : calm newTx.
Proof. intros w Hw. done. Qed.

Lemma logBatched_calm tableName op cmd : calm (logBatched tableName op cmd).
Proof. intros w Hw. done. Qed.

Lemma getCalls_calm : calm getCalls.
Proof. intros w Hw. done. Qed.

Lemma lift_calm {A} (o : outcome A) : calm (lift o).
Proof. by apply safe_lift. Qed.

Lemma try_calm {A} (x : W A) : calm x → calm (try x).
Proof. intros Hx. eapply safe_weaken; [by apply safe_try|done]. Qed.

Lemma logCall_calm c : isRead (callOp c) = true → calm (logCall c).
Proof.
  intros Hc w (more & Hm & Hr). split; [|done].
  exists (more ++ [c]). simpl. split.
  - by rewrite Hm, app_assoc.
  - apply Forall_app. split; [done|]. by constructor.
Qed.

End Calm.

#[local] Hint Resolve readMap_calm writeMap_calm newMap_calm readTx_calm writeTx_calm
  newTx_calm logBatched_calm getCalls_calm lift_calm try_calm logCall_calm : calm.
#[local] Hint Extern 1 (isRead _ = true) => reflexivity : calm.

Ltac calm_inner := idtac.

Ltac calm_step :=
  first
    [ apply safe_ret; cbn [fst snd]; solve [trivial]
    | apply safe_fail
    | solve [eauto with calm]
    | eapply (safe_bind _ _ _ (λ _, True)); [ solve [calm_inner] | frame_cont ]
    | apply (safe_foldW _ _ _ _ (λ _, True));
      [ done | intros ? ? _; frame_names; cbv beta iota zeta ]
    | match goal with
      | |- safe _ (if ?b then _ else _) _ => destruct b eqn:?
      | |- safe _ (match ?x with _ => _ end) _ => destruct x eqn:?
      end ].

Ltac calmly := repeat calm_step.

Ltac calm_inner ::= calmly.

Section CalmOps.
Context `{GoLib} `{Table}.
Variables (w0 : World) (t : nat).

Abbreviation calm x := (safe (onlyReads w0) x (λ _, True)).
Abbreviation calmTx x := (safe (onlyReads w0) x (λ r, Params.Transaction r.2 = Some t)).

Lemma execute_calm clientSet modelName op req params :
  isRead op = true → calm (execute clientSet modelName op req params).
Proof. intros Hop. unfold execute. calmly. Qed.

Lemma checkArgs_calm properties params overrides :
  calm (checkArgs properties params overrides).
Proof. unfold checkArgs. calmly. Qed.

Lemma prepareAt_calm m op properties params : calm (prepareAt m op properties params).
Proof. unfold prepareAt. calmly. Qed.

Lemma expressionAt_calm m op properties params :
  calm (expressionAt m op properties params).
Proof. unfold expressionAt. calmly. Qed.

Lemma accumulateBatch_calm m op cmd e : calm (accumulateBatch m op cmd e).
Proof. unfold accumulateBatch. calmly. Qed.

Lemma accumulateTransaction_calm m op cmd e t' :
  calm (accumulateTransaction m op cmd e t').
Proof. unfold accumulateTransaction. calmly. Qed.

Lemma openTransaction_calm params : calm (openTransaction params).
Proof. unfold openTransaction. calmly. Qed.

Lemma stampUpdate_calm m properties params : calm (stampUpdate m properties params).
Proof. unfold stampUpdate. calmly. Qed.

#[local] Hint Resolve execute_calm checkArgs_calm prepareAt_calm expressionAt_calm
  accumulateBatch_calm accumulateTransaction_calm openTransaction_calm
  stampUpdate_calm : calm.

(** What the steps of an operation return keeps the transaction. *)
Lemma checkArgs_tx properties p overrides :
  Params.Transaction p = Some t → calmTx (checkArgs properties (Some p) overrides).
Proof.
  intros Ht w Hw. unfold checkArgs. destruct (Params.checked p).
  - split; [done|]. by intros ? [= <-].
  - split; [done|]. intros ? [= <-]. simpl. by rewrite Ht.
Qed.

Lemma prepareAt_tx m op properties params :
  Params.Transaction params = Some t → calmTx (prepareAt m op properties params).
Proof.
  intros Ht w Hw. unfold prepareAt, mbind, W_bind, wbind, readMap, lift. simpl.
  destruct (prepareProperties m op _ params) as [[[result props'] params']| | |] eqn:Hprep;
    simpl; [|done..].
  destruct (prepareProperties_request m op _ params result props' params' Hprep)
    as (_ & _ & _ & _ & Htx & _).
  destruct result; simpl; (split; [done|]); intros ? [= <-]; simpl; congruence.
Qed.

Lemma expressionAt_tx m op properties params :
  safe (onlyReads w0) (expressionAt m op properties params)
    (λ e, Expression.params e = params).
Proof.
  intros w Hw. unfold expressionAt, mbind, W_bind, wbind, readMap, lift. simpl.
  destruct (newExpression m op _ params) as [e| | |] eqn:Hnew; simpl; [|done..].
  split; [done|]. intros ? [= <-]. by eapply newExpression_params.
Qed.

Lemma stampUpdate_tx m properties params :
  safe (onlyReads w0) (stampUpdate m properties params)
    (λ p', Params.Transaction p' = Params.Transaction params).
Proof.
  unfold stampUpdate. destruct (tsUpdate _); [|by apply safe_ret].
  eapply (safe_bind _ _ _ (λ _, True)); [calmly|]. intros now _.
  eapply (safe_bind _ _ _ (λ _, True)); [calmly|]. intros props _.
  eapply (safe_bind _ _ _ (λ _, True)); [calmly|]. intros [] _.
  destruct (_ && _); by apply safe_ret.
Qed.

Lemma run_tx m op e :
  Params.Transaction (Expression.params e) = Some t → calm (run m op e).
Proof.
  intros Ht. unfold run.
  eapply (safe_bind _ _ _ (λ _, True)); [calmly|]. intros cmd _.
  destruct (negb _); [calmly|]. destruct (bool_decide _); [calmly|].
  rewrite Ht. calmly.
Qed.

Lemma putItem_tx m properties p :
  Params.Transaction p = Some t → calm (putItem m properties (Some p)).
Proof.
  intros Ht. unfold putItem.
  eapply safe_bind; [by apply checkArgs_tx|]. intros [r p1] Hp1. cbn [fst snd] in Hp1.
  eapply (safe_bind _ _ _ (λ r, Params.Transaction r.2 = Some t)).
  { destruct (Params.prepared p1); [by apply safe_ret|].
    eapply (safe_bind _ _ _ (λ _, True)); [calmly|]. intros now _.
    eapply (safe_bind _ _ _ (λ _, True)); [calmly|]. intros props _.
    eapply (safe_bind _ _ _ (λ _, True)); [calmly|]. intros [] _.
    by apply prepareAt_tx. }
  intros [r2 p2] Hp2. cbn [fst snd] in Hp2.
  eapply safe_bind; [apply expressionAt_tx|]. intros e He.
  apply run_tx. by rewrite He.
Qed.

Lemma deleteItem_tx m properties p :
  Params.Transaction p = Some t → calm (deleteItem m properties (Some p)).
Proof.
  intros Ht. unfold deleteItem.
  eapply safe_bind; [by apply checkArgs_tx|]. intros [r p1] Hp1. cbn [fst snd] in Hp1.
  eapply (safe_bind _ _ _ (λ r, Params.Transaction r.2 = Some t)).
  { destruct (Params.prepared p1); [by apply safe_ret|]. by apply prepareAt_tx. }
  intros [r2 p2] Hp2. cbn [fst snd] in Hp2.
  eapply safe_bind; [apply expressionAt_tx|]. intros e He.
  apply run_tx. by rewrite He.
Qed.

Lemma updateItem_tx m properties p :
  Params.Transaction p = Some t → calm (updateItem m properties (Some p)).
Proof.
  intros Ht. unfold updateItem.
  eapply safe_bind; [by apply checkArgs_tx|]. intros [r p1] Hp1. cbn [fst snd] in Hp1.
  eapply safe_bind; [apply stampUpdate_tx|]. intros p2 Hp2. rewrite Hp1 in Hp2.
  eapply safe_bind; [by apply prepareAt_tx|]. intros [r3 p3] Hp3. cbn [fst snd] in Hp3.
  eapply safe_bind; [apply expressionAt_tx|]. intros e He.
  apply run_tx. by rewrite He.
Qed.

End CalmOps.

(** The calls between operations that can make no write of their own:
    the reads, and the creations and removals that are given a
    transaction. *)
Definition inTransaction (c : call) : Prop :=
  match c with
  | CallGet _ _ _ | CallFind _ _ _ => True
  | CallCreate _ _ (Some p) | CallRemove _ _ (Some p) => Params.Transaction p ≠ None
  | CallCreate _ _ None | CallRemove _ _ None => False
  end.

Section CalmCalls.
Context `{GoLib} `{Table}.
Variable w0 : World.
Variable self : call → W (payload * Params.t).

Abbreviation calm x := (safe (onlyReads w0) x (λ _, True)).

Hypothesis self_calm : ∀ c, inTransaction c → calm (self c).

Lemma self_get_calm m r p : calm (self (CallGet m r p)).
Proof. by apply self_calm. Qed.

Lemma self_find_calm m r p : calm (self (CallFind m r p)).
Proof. by apply self_calm. Qed.

Lemma self_create_calm m r p t :
  Params.Transaction p = Some t → calm (self (CallCreate m r (Some p))).
Proof. intros Ht. apply self_calm. simpl. by rewrite Ht. Qed.

Lemma self_remove_calm m r p t :
  Params.Transaction p = Some t → calm (self (CallRemove m r (Some p))).
Proof. intros Ht. apply self_calm. simpl. by rewrite Ht. Qed.

#[local] Hint Resolve execute_calm checkArgs_calm prepareAt_calm expressionAt_calm
  accumulateBatch_calm accumulateTransaction_calm openTransaction_calm
  stampUpdate_calm self_get_calm self_find_calm : calm.

Lemma pageStep_calm m op cmd maxPages st :
  isRead op = true → calm (pageStep m op cmd maxPages st).
Proof. intros Hop. unfold pageStep. calmly. Qed.

#[local] Hint Resolve pageStep_calm : calm.

Lemma pageLoop_calm turns m op cmd maxPages st :
  isRead op = true → calm (pageLoop turns m op cmd maxPages st).
Proof.
  intros Hop. revert st. induction turns as [|turns IH]; intros st; simpl; calmly.
Qed.

#[local] Hint Resolve pageLoop_calm : calm.

Lemma followItems_calm m op items params : calm (followItems self m op items params).
Proof. unfold followItems. calmly. Qed.

#[local] Hint Resolve followItems_calm : calm.

Lemma runMulti_calm m op e : isRead op = true → calm (runMulti self m op e).
Proof. intros Hop. unfold runMulti. calmly. Qed.

#[local] Hint Resolve runMulti_calm : calm.

Lemma queryItems_calm m properties params : calm (queryItems self m properties params).
Proof. unfold queryItems. calmly. Qed.

Lemma run_get_calm m e : calm (run m "get" e).
Proof. unfold run. calmly. Qed.

#[local] Hint Resolve queryItems_calm run_get_calm : calm.

Lemma Get_calm m properties params : calm (Get_ self m properties params).
Proof. unfold Get_. calmly. Qed.

Lemma Find_calm m properties params : calm (Find_ self m properties params).
Proof. unfold Find_. calmly. Qed.

Lemma priorItem_calm m props missing : calm missing → calm (priorItem self m props missing).
Proof. intros Hmissing. unfold priorItem. calmly. Qed.

Lemma createUnique_tx m properties p t :
  Params.Transaction p = Some t → calm (createUnique self m properties p).
Proof.
  intros Ht. unfold createUnique, openTransaction. cbv zeta. rewrite Ht.
  eapply (safe_bind _ _ _ (λ r, r = (t, p))); [by apply safe_ret|]. intros ? ->.
  eapply (safe_bind _ _ _ (λ _, True)); [calmly|]. intros tx _.
  eapply (safe_bind _ _ _ (λ _, True)); [calmly|]. intros [] _.
  eapply (safe_bind _ _ _ (λ _, True)); [calmly|]. intros props _.
  eapply (safe_bind _ _ _ (λ _, True)); [calmly|]. intros [] _.
  eapply safe_bind; [by apply prepareAt_tx|]. intros [r2 p2] Hp2. cbn [fst snd] in Hp2.
  eapply (safe_bind _ _ _ (λ _, True)); [calmly|]. intros props2 _.
  eapply (safe_bind _ _ _ (λ _, True)).
  { apply safe_foldW; [done|]. intros field [] _.
    destruct (isNil _); [by apply safe_ret|].
    eapply (safe_bind _ _ _ (λ _, True)); [calmly|]. intros up _.
    eapply (safe_bind _ _ _ (λ _, True)); [by apply (self_create_calm _ _ _ t)|].
    intros ? _. by apply safe_ret. }
  intros [] _.
  eapply (safe_bind _ _ _ (λ _, True)); [by apply (putItem_tx w0 t)|]. intros [item p3] _.
  rewrite bool_decide_false by done. by apply safe_ret.
Qed.

Lemma removeUnique_tx m properties p t :
  Params.Transaction p = Some t → calm (removeUnique self m properties p).
Proof.
  intros Ht. unfold removeUnique, openTransaction. cbv zeta. rewrite Ht.
  eapply (safe_bind _ _ _ (λ r, r = (t, p))); [by apply safe_ret|]. intros ? ->.
  eapply safe_bind; [by apply (prepareAt_tx w0 t)|]. intros [r2 p2] Hp2.
  cbn [fst snd] in Hp2.
  eapply (safe_bind _ _ _ (λ _, True)); [calmly|]. intros props _.
  eapply (safe_bind _ _ _ (λ _, True)); [apply priorItem_calm; calmly|]. intros prior _.
  eapply (safe_bind _ _ _ (λ _, True)).
  { apply safe_foldW; [done|]. intros field [] _.
    destruct prior as [prior|]; [|by apply safe_ret].
    destruct (isNil _); [by apply safe_ret|].
    eapply (safe_bind _ _ _ (λ _, True)); [calmly|]. intros key _.
    eapply (safe_bind _ _ _ (λ _, True)); [by apply (self_remove_calm _ _ _ t)|].
    intros ? _. by apply safe_ret. }
  intros [] _.
  eapply (safe_bind _ _ _ (λ _, True)); [by apply (deleteItem_tx w0 t)|].
  intros [removed p3] _.
  rewrite bool_decide_false by done. by apply safe_ret.
Qed.

Lemma self_sentinel_create m' up t :
  calm (self (CallCreate m' up (Some (sentinelParams t)))).
Proof. by apply self_calm. Qed.

Lemma self_sentinel_remove m' key t :
  calm (self (CallRemove m' key (Some (Params.set_Transaction (Some t) Params.zero)))).
Proof. by apply self_calm. Qed.

#[local] Hint Resolve self_sentinel_create self_sentinel_remove : calm.

Lemma moveSentinel_calm m props prior params t field :
  calm (moveSentinel self m props prior params t field).
Proof. unfold moveSentinel. calmly. Qed.

Lemma updateUnique_tx m properties p t :
  Params.Transaction p = Some t → calm (updateUnique self m properties p).
Proof.
  intros Ht. unfold updateUnique, openTransaction. cbv zeta. rewrite Ht.
  eapply (safe_bind _ _ _ (λ r, r = (t, p))); [by apply safe_ret|]. intros ? ->.
  eapply safe_bind; [by apply (prepareAt_tx w0 t)|]. intros [r2 p2] Hp2.
  cbn [fst snd] in Hp2.
  eapply (safe_bind _ _ _ (λ _, True)); [calmly|]. intros props _.
  eapply (safe_bind _ _ _ (λ _, True)); [apply priorItem_calm; calmly|]. intros prior _.
  eapply (safe_bind _ _ _ (λ _, True)).
  { apply safe_foldW; [done|]. intros nf [] _. apply moveSentinel_calm. }
  intros [] _.
  eapply (safe_bind _ _ _ (λ _, True)); [by apply (updateItem_tx w0 t)|].
  intros [item p3] _.
  rewrite bool_decide_false by done. by apply safe_ret.
Qed.

Lemma Create_tx m properties p t :
  Params.Transaction p = Some t → calm (Create_ self m properties (Some p)).
Proof.
  intros Ht. unfold Create_.
  eapply safe_bind; [by apply (checkArgs_tx w0 t)|]. intros [r p1] Hp1.
  cbn [fst snd] in Hp1.
  destruct (Model.hasUniqueFields m);
    [by apply (createUnique_tx _ _ _ t)|by apply (putItem_tx w0 t)].
Qed.

Lemma updateWith_tx m properties p overrides t :
  Params.Transaction p = Some t → calm (updateWith self m properties (Some p) overrides).
Proof.
  intros Ht. unfold updateWith.
  eapply safe_bind; [by apply (checkArgs_tx w0 t)|]. intros [r p1] Hp1.
  cbn [fst snd] in Hp1.
  eapply (safe_bind _ _ _ (λ _, True)); [calmly|]. intros props _.
  destruct (_ && _);
    [by apply (updateUnique_tx _ _ _ t)|by apply (updateItem_tx w0 t)].
Qed.

Lemma removeByFind_tx m properties p t :
  Params.Transaction p = Some t → calm (removeByFind self m properties p).
Proof.
  intros Ht. unfold removeByFind. cbv zeta.
  eapply (safe_bind _ _ _ (λ _, True)); [calmly|]. intros [found p1] _.
  destruct (_ && _); [apply safe_fail|].
  eapply (safe_bind _ _ _ (λ _, True)); [|intros; by apply safe_ret].
  apply safe_foldW; [done|]. intros item last _.
  eapply (safe_bind _ _ _ (λ _, True)); [calmly|]. intros r _.
  destruct (Model.hasUniqueFields m).
  - eapply (safe_bind _ _ _ (λ _, True)); [by apply (removeUnique_tx _ _ _ t)|].
    intros [removed p2] _. by apply safe_ret.
  - eapply (safe_bind _ _ _ (λ _, True)); [by apply (self_remove_calm _ _ _ t)|].
    intros [removed p2] _. by apply safe_ret.
Qed.

Lemma Remove_tx m properties p t :
  Params.Transaction p = Some t → calm (Remove_ self m properties (Some p)).
Proof.
  intros Ht. unfold Remove_.
  eapply safe_bind; [by apply (checkArgs_tx w0 t)|]. intros [r p1] Hp1.
  cbn [fst snd] in Hp1.
  eapply safe_bind; [by apply (prepareAt_tx w0 t)|]. intros [r2 p2] Hp2.
  cbn [fst snd] in Hp2.
  destruct (_ || _); [by apply (removeByFind_tx _ _ _ t)|].
  destruct (Model.hasUniqueFields m); [by apply (removeUnique_tx _ _ _ t)|].
  eapply safe_bind; [apply expressionAt_tx|]. intros e He.
  apply (run_tx w0 t). by rewrite He.
Qed.

End CalmCalls.

Section TransactionDefers.
Context `{GoLib} `{Table}.

Lemma dispatch_calm w0 depth c : inTransaction c → safe (onlyReads w0) (dispatch depth c) (λ _, True).
Proof.
  revert c. induction depth as [|depth IH]; intros c Hc; simpl; [by apply safe_lift|].
  destruct c as [m r [p|]|m r p|m r p|m r [p|]]; simpl in Hc; try done.
  - destruct (Params.Transaction p) as [t|] eqn:Ht; [|done].
    eapply (safe_bind _ _ _ (λ _, True)); [by eapply Create_tx|].
    intros [? ?] _. by apply safe_ret.
  - eapply (safe_bind _ _ _ (λ _, True)); [by apply Get_calm|].
    intros [? ?] _. by apply safe_ret.
  - eapply (safe_bind _ _ _ (λ _, True)); [by apply Find_calm|].
    intros [? ?] _. by apply safe_ret.
  - destruct (Params.Transaction p) as [t|] eqn:Ht; [|done].
    eapply (safe_bind _ _ _ (λ _, True)); [by eapply Remove_tx|].
    intros [? ?] _. by apply safe_ret.
Qed.


End TransactionDefers.

(** ** The record holds schema fields only *)

Lemma foldM_Ok_inv_in {A S} (I : S → Prop) (f : A → S → outcome S) (l : list A) :
  (∀ a s s', a ∈ l → I s → f a s = Ok s' → I s') →
  ∀ s s', I s → foldM f l s = Ok s' → I s'.
Proof.
  induction l as [|a l IH]; intros Hstep s s' Hs Hfold; simpl in Hfold.
  - by injection Hfold as <-.
  - apply bind_Ok in Hfold as (s1 & Hf & Hrest).
    apply (IH (λ a' s2 s3 Hin, Hstep a' s2 s3 (list_elem_of_further _ _ _ Hin)) s1 s');
      [|done].
    apply (Hstep a s s1); [apply list_elem_of_here|done..].
Qed.

(** [k] is the name of a field of the block. *)
Definition fieldOf (block : fieldBlock) (k : string) : Prop :=
  ∃ nf, nf ∈ Fields block ∧ (k = nf.1 ∨ k = Name nf.2).

(** Every binding of the record belongs to a field of the block. *)
Definition schemaOnly (block : fieldBlock) (rec : Item) : Prop :=
  ∀ k, is_Some (alookup k rec) → fieldOf block k.

Lemma schemaOnly_ainsert block k v rec :
  fieldOf block k → schemaOnly block rec → schemaOnly block (ainsert k v rec).
Proof.
  intros Hk Hrec k' [->|Hk']%alookup_ainsert_is_Some; [done|by apply Hrec].
Qed.

Lemma schemaOnly_nil block : schemaOnly block [].
Proof. by intros k [v Hv]. Qed.

Ltac split_Ok :=
  repeat match goal with
         | H : (_ ≫= _) = Ok _ |- _ => apply bind_Ok in H as (? & ? & H)
         | H : (let '(_, _) := ?x in _) = Ok _ |- _ => destruct x eqn:?
         | H : (match ?x with _ => _ end) = Ok _ |- _ => destruct x eqn:?
         | H : (if ?b then _ else _) = Ok _ |- _ => destruct b eqn:?
         | H : Ok _ = Ok _ |- _ => injection H as H; subst
         | H : (_, _) = (_, _) |- _ => injection H as ? ?; subst
         end.

Section SchemaOnly.
Context `{GoLib}.

Lemma selectFields_schemaOnly block m op top index project properties params :
  ∀ fields rec,
    (∀ nf, nf ∈ fields → nf ∈ Fields block) →
    schemaOnly block rec →
    schemaOnly block
      (selectFields m op top index project properties params fields rec).1.
Proof.
  induction fields as [|[name field] fields IH]; intros rec Hsub Hrec; simpl; [done|].
  assert (Hrest : ∀ nf, nf ∈ fields → nf ∈ Fields block).
  { intros nf Hin. apply Hsub. by apply list_elem_of_further. }
  destruct (hasBlock field); [by apply IH|].
  destruct (_ && _); [done|].
  apply IH; [done|]. destruct (_ && _); [done|].
  destruct (alookup name properties); [|done].
  apply schemaOnly_ainsert; [|done].
  exists (name, field). split; [apply Hsub, list_elem_of_here|by left].
Qed.

Lemma transformProperties_schemaOnly block op fields rec rec' :
  schemaOnly block rec → transformProperties op fields rec = Ok rec' →
  schemaOnly block rec'.
Proof.
  unfold transformProperties. apply foldM_Ok_inv.
  intros [name field] s s' Hs Hstep. destruct (hasBlock field); [by simplify_eq|].
  destruct (alookup name s) as [v|] eqn:Hl; [|by simplify_eq].
  apply bind_Ok in Hstep as (v' & _ & Hstep). injection Hstep as <-.
  apply schemaOnly_ainsert; [|done]. apply Hs. by rewrite Hl.
Qed.

Lemma collectProperties_schemaOnly fuel m op pathname block top index properties params
    context rec props' params' :
  Model.generic m = false ∨ top = false →
  collectProperties fuel m op pathname block top index properties params context
    = Ok (rec, props', params') →
  schemaOnly block rec.
Proof.
  intros Hgen Hcollect. destruct fuel as [|fuel]; [done|]. simpl in Hcollect.
  apply bind_Ok in Hcollect as ([[rec1 props1] params1] & Hnested & Hcollect).
  assert (Hrec1 : schemaOnly block rec1).
  { destruct (_ && _); [|injection Hnested as <- <- <-; apply schemaOnly_nil].
    revert Hnested.
    apply (foldM_Ok_inv_in (λ st : Item * Item * Params.t, schemaOnly block st.1.1));
      [|apply schemaOnly_nil].
    intros nf [[rec0 props0] params0] [[rec2 props2] params2] Hin Hrec0 Hstep.
    cbn [fst snd] in *.
    assert (Hname : fieldOf block (Name nf.2)) by (exists nf; split; [done|by right]).
    clear Hcollect.
    split_Ok; cbn [fst snd]; repeat case_match; try done;
      by apply schemaOnly_ainsert. }
  apply bind_Ok in Hcollect as (props2 & _ & Hcollect).
  apply bind_Ok in Hcollect as (props3 & _ & Hcollect).
  apply bind_Ok in Hcollect as (props4 & _ & Hcollect).
  apply bind_Ok in Hcollect as (props4' & _ & Hcollect).
  destruct (convertNulls _ _ _ _) as [props5 params2].
  apply bind_Ok in Hcollect as ([] & _ & Hcollect).
  destruct (selectProperties _ _ _ _ _ _ _ _) as [rec2 params3] eqn:Hselect.
  apply bind_Ok in Hcollect as (rec3 & Htransform & Hcollect).
  injection Hcollect as <- <- <-.
  eapply transformProperties_schemaOnly; [|exact Htransform].
  unfold selectProperties in Hselect.
  pose proof (selectFields_schemaOnly block m op top index (getProjection m index) props5
                params2 (Fields block) rec1 (λ _ Hin, Hin) Hrec1) as Hsel.
  destruct (selectFields _ _ _ _ _ _ _ _ _) as [rec' stopped]. cbn [fst] in Hsel.
  destruct stopped; [by injection Hselect as <- <-|].
  destruct top; [|by injection Hselect as <- <-].
  destruct Hgen as [Hgen|?]; [|done].
  injection Hselect as <- <-. unfold addProjectedProperties. by rewrite Hgen.
Qed.

(** X13: the record that [prepareProperties] builds for a model that is
    not generic holds schema fields only: every binding of the record
    belongs to a field of the block of the model, so a property the schema
    does not know is dropped without an error. *)
Theorem prepared_record_has_schema_fields
    (m : Model.t) (op : string) (props : Item) (params : Params.t)
    (rec props' : Item) (params' : Params.t) :
  Model.generic m = false →
  prepareProperties m op props params = Ok (PreparedRecord rec, props', params') →
  ∀ k, is_Some (alookup k rec) →
       ∃ nf, nf ∈ Fields (Model.block m) ∧ (k = nf.1 ∨ k = Name nf.2).
Proof.
  intros Hgen Hprep. unfold prepareProperties in Hprep.
  destruct (selectIndex _ _) as [index|]; [|done].
  destruct (needsFallback _ _ _); [done|].
  apply bind_Ok in Hprep as ([[rec0 props0] params0] & Hcollect & Hprep).
  destruct (Params.fallback params0); [done|].
  destruct (_ && _); [done|]. injection Hprep as <- <- <-.
  unfold collectTop in Hcollect.
  exact (collectProperties_schemaOnly _ _ _ _ _ _ _ _ _ _ _ _ _ (or_introl Hgen) Hcollect).
Qed.

End SchemaOnly.

(** * Worked instances *)

Lemma selectIndex_unknown_uses_primary_example :
  selectIndex exampleModel (Some (Params.set_Index "gs9" Params.zero))
    = Some examplePrimary.
Proof.
  apply (selectIndex_unknown_uses_primary exampleModel
           (Params.set_Index "gs9" Params.zero) examplePrimary "find" []);
    reflexivity.
Defined.




Lemma exampleBlock_ok : blockOk (Fields exampleBlock).
Proof.
  split.
  - apply (bool_decide_unpack _). vm_compute. exact I.
  - intros name field Hin. apply list_elem_of_In in Hin. simpl in Hin.
    intuition; simplify_eq; reflexivity.
Defined.

Lemma validation_collects_offending_fields_example :
  validateProperties (H := exampleLib) exampleModel "put" (Fields exampleBlock)
    [("pk", VString "user#42"); ("sk", VString "user#"); ("_type", VString "User");
     ("id", VString "42"); ("email", VString "ann"); ("status", VString "asleep")]
  = Err (OneTableError
           ("Validation Error in " +:+ dq +:+ "User" +:+ dq +:+ " for " +:+ dq
              +:+ "email, status" +:+ dq)
           (Some ErrValidation)
           (Some [("email", "Bad value " +:+ dq +:+ "ann" +:+ dq +:+ " for "
                              +:+ dq +:+ "email" +:+ dq);
                  ("status", "Bad value " +:+ dq +:+ "asleep" +:+ dq +:+ " for "
                               +:+ dq +:+ "status" +:+ dq)])).
Proof.
  pose proof (validation_collects_offending_fields (H := exampleLib) exampleModel "put"
                (Fields exampleBlock)
                [("pk", VString "user#42"); ("sk", VString "user#");
                 ("_type", VString "User"); ("id", VString "42");
                 ("email", VString "ann"); ("status", VString "asleep")]
                (or_introl eq_refl) exampleBlock_ok) as Hv.
  cbv zeta in Hv. destruct Hv as (_ & _ & Hfail).
  - apply (bool_decide_unpack _). vm_compute. exact I.
  - rewrite Hfail; [reflexivity|].
    exists "email", fEmail. split; reflexivity.
Defined.

(** A put on the model with the nested address schema: the status is not in
    its enumeration and the city of the address is missing, and the failure
    cites the city alone. *)
Lemma nested_failure_hides_outer_fields :
  prepareProperties (H := exampleLib) nestedModel "put"
    [("id", VString "42"); ("email", VString "ann@example.com");
     ("status", VString "asleep"); ("address", VMap [])] Params.zero
  = Err (OneTableError
           ("Validation Error in " +:+ dq +:+ "User" +:+ dq +:+ " for " +:+ dq
              +:+ "city" +:+ dq)
           (Some ErrValidation)
           (Some [("city", "Value not defined for required field "
                             +:+ dq +:+ "city" +:+ dq)]))
  ∧ offends (H := exampleLib) "put" fStatus
      [("id", VString "42"); ("email", VString "ann@example.com");
       ("status", VString "asleep"); ("address", VMap [])] = true.
Proof. split; vm_compute; reflexivity. Defined.

Lemma missing_hash_is_rejected_example :
  prepareProperties (H := exampleLib) exampleModel "get" [("name", VString "Ann")]
    Params.zero
  = Err (missingKey exampleModel "get").
Proof.
  destruct (missing_hash_is_rejected (H := exampleLib) exampleModel "get"
              [("name", VString "Ann")] Params.zero examplePrimary)
    as (_ & Hcheck & _).
  - intros Heq. discriminate Heq.
  - reflexivity.
  - let r := eval vm_compute in
          (collectTop (H := exampleLib) exampleModel "get" examplePrimary
             [("name", VString "Ann")] (resetFallback Params.zero)) in
    match r with
    | Ok (?rec, ?props', ?params') =>
        rewrite (Hcheck rec props' params' eq_refl ltac:(vm_compute; reflexivity))
    end.
    reflexivity.
Defined.

(** A find through the secondary index prepares a record without the
    primary hash [pk], and a get through it returns the properties as given
    although they hold no key at all. *)
Lemma prepared_record_without_primary_hash :
  (r ← prepareProperties (H := exampleLib) exampleModel "find"
         [("email", VString "ann@example.com")] (Params.set_Index "gs1" Params.zero);
   Ok (match r.1.1 with
       | PreparedRecord rec => Some (aget "gs1pk" rec, aget "pk" rec)
       | SameProperties => None
       end))
  = Ok (Some (VString "mail#ann@example.com", VNil))
  ∧ (r ← prepareProperties (H := exampleLib) exampleModel "get"
           [("name", VString "Ann")] (Params.set_Index "gs1" Params.zero);
     Ok r.1.1)
    = Ok SameProperties.
Proof. split; vm_compute; reflexivity. Defined.


Lemma preparation_keeps_the_request_example :
  ∃ result props' params',
    prepareProperties (H := exampleLib) exampleModel "put" exampleUser
      (Params.set_Index "primary" Params.zero) = Ok (result, props', params')
    ∧ Params.Index params' = Params.Index (Params.set_Index "primary" Params.zero).
Proof.
  do 3 eexists. split; [vm_compute; reflexivity|].
  refine (proj1 (proj2 (proj2 (proj2
    (preparation_keeps_the_request (H := exampleLib) exampleModel "put" exampleUser
       (Params.set_Index "primary" Params.zero) _ _ _ _))))).
  vm_compute. reflexivity.
Defined.

Lemma templates_never_overwrite_example :
  ∃ props',
    runTemplates (H := exampleLib) exampleModel "put" examplePrimary exampleFields
      [("id", VString "42"); ("pk", VString "custom")] = Ok props'
    ∧ alookup "pk" props' = Some (VString "custom").
Proof.
  eexists. split; [vm_compute; reflexivity|].
  refine (proj1 (templates_never_overwrite (H := exampleLib) exampleModel "put"
                   examplePrimary exampleFields
                   [("id", VString "42"); ("pk", VString "custom")] _ _)
            "pk" (VString "custom") _).
  - vm_compute. reflexivity.
  - reflexivity.
Defined.

Lemma padLeft_pads_to_length_example :
  ∃ k, padLeft "42" "0" 5 = Ok (copies k "0" +:+ "42")
       ∧ (5 ≤ Z.of_nat (String.length (copies k "0" +:+ "42")))%Z.
Proof.
  destruct (proj1 (padLeft_pads_to_length "42" "0" 5)) as (k & Hk & Hlen & _).
  - intros Heq. discriminate Heq.
  - exists k. split; [exact Hk|exact Hlen].
Defined.

Lemma client_errors_are_classified_example :
  calls (execute (H0 := cancellingTable) true "_Generic" "transactWrite"
           (ReqTransaction (mkTx None [])) Params.zero exampleWorld).2
  = [mkCall "_Generic" "transactWrite" (ReqTransaction (mkTx None []))].
Proof.
  apply (proj2 (client_errors_are_classified (H0 := cancellingTable) true "_Generic"
                  "transactWrite" "TransactionCanceledException: ConditionalCheckFailed"
                  (ReqTransaction (mkTx None [])) Params.zero exampleWorld));
    reflexivity.
Defined.

Lemma update_of_key_never_reaches_client_example :
  calls (updateItem (H := exampleLib) (H0 := exampleTable) exampleModel 0
           (Some (Params.set_Add (Some [("pk", VInt 1)]) Params.zero)) exampleWorld).2
  = calls exampleWorld.
Proof.
  apply (update_of_key_never_reaches_client (H := exampleLib) (H0 := exampleTable)
           exampleModel 0 (Params.set_Add (Some [("pk", VInt 1)]) Params.zero)
           examplePrimary "pk" exampleWorld).
  - reflexivity.
  - vm_compute. left.
  - left. reflexivity.
Defined.

Lemma emitted_placeholders_have_entries_example :
  ∃ e c,
    newExpression (H := exampleLib) exampleModel "find"
      [("pk", VString "a"); ("name", VString "n")] Params.zero = Ok e
    ∧ command (H := exampleLib) e = Ok c
    ∧ ∃ names, Command.ExpressionAttributeNames c = Some names
               ∧ is_Some (names !! nameKey 0).
Proof.
  eexists _, _. split; [vm_compute; reflexivity|].
  lazymatch goal with |- command ?e = _ ∧ _ => set (e0 := e) end.
  split; [vm_compute; reflexivity|].
  lazymatch goal with
  | |- ∃ names, Command.ExpressionAttributeNames ?c = _ ∧ _ =>
      refine (proj1 (emitted_placeholders_have_entries (H := exampleLib) exampleModel "find"
                       [("pk", VString "a"); ("name", VString "n")] Params.zero e0 c _ _ _)
                _ 0 _ _)
  end.
  - vm_compute; reflexivity.
  - vm_compute; reflexivity.
  - vm_compute; reflexivity.
  - apply (list_elem_of_lookup_2 _ 1). vm_compute; reflexivity.
  - vm_compute. apply list_elem_of_here.
Defined.

Lemma create_in_transaction_defers_example :
  calls (Create (H := exampleLib) (H0 := cancellingTable) 3 exampleModel 0
           (Some (Params.set_Transaction (Some 5) Params.zero)) exampleWorld).2
  = calls exampleWorld.
Proof.
  exact (proj1 (create_in_transaction_defers (H := exampleLib) (H0 := cancellingTable) 3
                  exampleModel 0 (Params.set_Transaction (Some 5) Params.zero) 5
                  exampleWorld eq_refl)).
Defined.

Lemma unique_create_commits_once_example :
  calls (Create (H := exampleLib) (H0 := cancellingTable) 3 exampleModel 0
           (Some Params.zero) exampleWorld).2 = calls exampleWorld
  ∨ ∃ tx, calls (Create (H := exampleLib) (H0 := cancellingTable) 3 exampleModel 0
                   (Some Params.zero) exampleWorld).2
          = calls exampleWorld ++ [commitCall tx]
          ∧ putsOnly (txItems tx)
          ∧ commitOutcome exampleModel
              (client (Table := cancellingTable) (calls exampleWorld) (commitCall tx))
              (Create (H := exampleLib) (H0 := cancellingTable) 3 exampleModel 0
                 (Some Params.zero) exampleWorld).1.
Proof.
  apply (unique_create_commits_once (H := exampleLib) (H0 := cancellingTable) 3
           exampleModel 0 Params.zero exampleWorld); reflexivity.
Defined.


Lemma prepared_record_has_schema_fields_example :
  ∃ rec props' params',
    prepareProperties (H := exampleLib) exampleModel "put"
      (exampleUser ++ [("nickname", VString "annie")]) Params.zero
    = Ok (PreparedRecord rec, props', params')
    ∧ ∀ k, is_Some (alookup k rec) →
           ∃ nf, nf ∈ Fields (Model.block exampleModel) ∧ (k = nf.1 ∨ k = Name nf.2).
Proof.
  do 3 eexists. split; [vm_compute; reflexivity|].
  refine (prepared_record_has_schema_fields (H := exampleLib) exampleModel "put"
            (exampleUser ++ [("nickname", VString "annie")]) Params.zero _ _ _ _ _).
  - reflexivity.
  - vm_compute. reflexivity.
Defined.
